(** * Tangible-Tensor: the numerical core of the lesson views

    The lesson components of the repository (React function components in
    [src/components]) share a small numerical core: a gradient-descent
    stepper, a midpoint Riemann-sum estimator, a matrix-composition
    animator, an eigen-alignment test, a camera projection, a depth-sorted
    render list and a handful of text-field handlers.  This file embeds
    those functions and states what the specification says about them.

    Every quantity in the source is a JavaScript [number].  The functions
    are written once, over an interface [Number] of the operations the
    source uses, and the interface has two instances:

    - [R], the real numbers: the reading in which the algebraic statements
      of the specification are meant (no rounding, no NaN, no infinities);
    - [float], IEEE 754 binary64 with round-to-nearest-even, which is the
      arithmetic a JavaScript engine performs; it is used to run the
      functions on concrete inputs.

    React state is modelled by explicit state passing: a component's
    [useState] cells are the fields of a record and a handler or effect is
    a function from the record to the record. *)

From Stdlib Require Import Floats.
From Stdlib Require Import Reals Lra Lia ZArith QArith List Bool.
From Stdlib Require Import String Ascii Permutation Sorted.
Import ListNotations.

#[local] Set Warnings "-inexact-float".

Set Implicit Arguments.

(** ** JavaScript numbers *)

Declare Scope js_scope.
Delimit Scope js_scope with js.

Class Number (T : Type) : Type := {
  ofZ   : Z -> T;            (* an integer literal *)
  add   : T -> T -> T;
  sub   : T -> T -> T;
  mul   : T -> T -> T;
  div   : T -> T -> T;
  neg   : T -> T;
  ltb   : T -> T -> bool;    (* a < b *)
  leb   : T -> T -> bool;    (* a <= b *)
  msqrt : T -> T;            (* Math.sqrt *)
  mabs  : T -> T;            (* Math.abs *)
  mmax  : T -> T -> T;       (* Math.max *)
  mmin  : T -> T -> T        (* Math.min *)
}.

(** [Math.cos] and [Math.sin]: not basic IEEE operations, so they are kept
    apart from [Number]. *)
Class Trig (T : Type) : Type := {
  mcos : T -> T;
  msin : T -> T
}.

Notation "x + y" := (add x y) : js_scope.
Notation "x - y" := (sub x y) : js_scope.
Notation "x * y" := (mul x y) : js_scope.
Notation "x / y" := (div x y) : js_scope.
Notation "- x" := (neg x) : js_scope.
Notation "x <? y" := (ltb x y) : js_scope.
Notation "x <=? y" := (leb x y) : js_scope.
Notation "x >? y" := (ltb y x) : js_scope.
Notation "x >=? y" := (leb y x) : js_scope.

(** The decimal literal [m / d] with [d] a power of ten: [dec 1 1000] is
    the source's [0.001].  Both [m] and [d] are small integers, so in
    binary64 the correctly rounded quotient is the value the literal
    denotes. *)
Definition dec {T} `{Number T} (m : Z) (d : positive) : T :=
  (ofZ m / ofZ (Zpos d))%js.

(** [v ** 2] *)
Definition sq {T} `{Number T} (v : T) : T := (v * v)%js.

(** *** The real numbers *)

#[export] Instance RNumber : Number R := {|
  ofZ := IZR;
  add := Rplus; sub := Rminus; mul := Rmult; div := Rdiv; neg := Ropp;
  ltb := fun a b => if Rlt_dec a b then true else false;
  leb := fun a b => if Rle_dec a b then true else false;
  msqrt := R_sqrt.sqrt;
  mabs := Rabs;
  mmax := Rmax;
  mmin := Rmin
|}.

#[export] Instance RTrig : Trig R := {| mcos := cos; msin := sin |}.

(** *** IEEE 754 binary64 *)

Definition float_ofZ (z : Z) : float :=
  match z with
  | Z0 => PrimFloat.zero
  | Zpos _ => PrimFloat.of_uint63 (Uint63.of_Z z)
  | Zneg p => PrimFloat.opp (PrimFloat.of_uint63 (Uint63.of_Z (Zpos p)))
  end.

(** [Math.max] and [Math.min] answer NaN as soon as one argument is NaN
    and order [-0] below [+0]. *)
Definition float_max (a b : float) : float :=
  if PrimFloat.is_nan a || PrimFloat.is_nan b then PrimFloat.nan
  else if PrimFloat.ltb a b then b
  else if PrimFloat.ltb b a then a
  else if PrimFloat.get_sign a then b else a.

Definition float_min (a b : float) : float :=
  if PrimFloat.is_nan a || PrimFloat.is_nan b then PrimFloat.nan
  else if PrimFloat.ltb a b then a
  else if PrimFloat.ltb b a then b
  else if PrimFloat.get_sign a then a else b.

#[export] Instance FloatNumber : Number float := {|
  ofZ := float_ofZ;
  add := PrimFloat.add; sub := PrimFloat.sub;
  mul := PrimFloat.mul; div := PrimFloat.div; neg := PrimFloat.opp;
  ltb := PrimFloat.ltb;
  leb := PrimFloat.leb;
  msqrt := PrimFloat.sqrt;
  mabs := PrimFloat.abs;
  mmax := float_max;
  mmin := float_min
|}.

(** [Math.PI] *)
Class Circle (T : Type) : Type := { mPI : T }.

#[export] Instance RCircle : Circle R := {| mPI := PI |}.

(** [v || d] on numbers: [v] when it is truthy (neither 0 nor NaN),
    else [d]. *)
Definition jsOr {T} `{Number T} (v d : T) : T :=
  if ((v <? ofZ 0) || (ofZ 0 <? v))%js then v else d.

(** [Math.hypot(a, b)] *)
Definition hypot {T} `{Number T} (a b : T) : T := msqrt (sq a + sq b)%js.

(** Unfolding the real instance down to the operations of [R]. *)
Ltac unR :=
  cbv [dec sq ofZ add sub mul div neg ltb leb msqrt mabs mmax mmin
       mcos msin RNumber RTrig] in *.

(** ** Points

    [{ x, y }] and [{ x, y, z }] objects.  The components declare them
    under several names ([Point], [Vector2], [Vector3], the [position],
    [pan] and [camera] cells); they are the same two shapes. *)

Module P2.
Record t (T : Type) : Type := mk { x : T; y : T }.
End P2.

Module P3.
Record t (T : Type) : Type := mk { x : T; y : T; z : T }.
End P3.

(** ** 3D utils

    [rotateX] and [rotateY] are repeated verbatim at the head of
    GradientDescent.tsx, ComingSoon.tsx, VectorPlayground.tsx and
    MatrixTransformLevel.tsx. *)

Section Rotation.
Context {T : Type} `{Number T} `{Trig T}.
Local Open Scope js_scope.

Definition rotateX (p : P3.t T) (angle : T) : P3.t T :=
  {| P3.x := P3.x p;
     P3.y := P3.y p * mcos angle - P3.z p * msin angle;
     P3.z := P3.y p * msin angle + P3.z p * mcos angle |}.

Definition rotateY (p : P3.t T) (angle : T) : P3.t T :=
  {| P3.x := P3.x p * mcos angle + P3.z p * msin angle;
     P3.y := P3.y p;
     P3.z := - P3.x p * msin angle + P3.z p * mcos angle |}.

End Rotation.

(** ** GradientDescent.tsx *)

Module GradientDescent.

Section Stepper.
Context {T : Type} `{Number T}.
Local Open Scope js_scope.

(** An entry of [FUNCTIONS]: the field, its two partials, the start
    point and the range. *)
Record Func : Type := mkFunc {
  f : T -> T -> T;
  df_dx : T -> T -> T;
  df_dy : T -> T -> T;
  start : P2.t T;
  range : T
}.

(** [FUNCTIONS[0]], the bowl. *)
Definition bowl : Func := {|
  f := fun x y => (x * x + y * y) / ofZ 4;
  df_dx := fun x y => x / ofZ 2;
  df_dy := fun x y => y / ofZ 2;
  start := {| P2.x := ofZ 3; P2.y := ofZ 3 |};
  range := ofZ 4
|}.

(** [FUNCTIONS[2]], the saddle. *)
Definition saddle : Func := {|
  f := fun x y => (x * x - y * y) / ofZ 4;
  df_dx := fun x y => x / ofZ 2;
  df_dy := fun x y => - y / ofZ 2;
  start := {| P2.x := dec 1 10; P2.y := ofZ 3 |};
  range := ofZ 4
|}.

(** The algorithm state of the component: the [position], [path],
    [iteration] and [isRunning] cells. *)
Record Algo : Type := mkAlgo {
  position : P2.t T;
  path : list (P3.t T);
  iteration : nat;
  isRunning : bool
}.

(** The candidate position computed at the head of [step]. *)
Definition nextX (activeFunc : Func) (learningRate : T) (prev : P2.t T) : T :=
  P2.x prev - learningRate * df_dx activeFunc (P2.x prev) (P2.y prev).

Definition nextY (activeFunc : Func) (learningRate : T) (prev : P2.t T) : T :=
  P2.y prev - learningRate * df_dy activeFunc (P2.x prev) (P2.y prev).

(** [dist] in [step]: the Euclidean displacement of the candidate. *)
Definition dist (activeFunc : Func) (learningRate : T) (prev : P2.t T) : T :=
  msqrt (sq (nextX activeFunc learningRate prev - P2.x prev)
         + sq (nextY activeFunc learningRate prev - P2.y prev)).

(** [step]: the updater passed to [setPosition], with the [setIsRunning],
    [setPath] and [setIteration] calls it makes. *)
Definition step (activeFunc : Func) (learningRate : T) (s : Algo) : Algo :=
  let prev := position s in
  let d := dist activeFunc learningRate prev in
  if (d <? dec 1 1000) || (d >? ofZ 10) then
    {| position := prev; path := path s; iteration := iteration s;
       isRunning := false |}
  else
    let currentZ := f activeFunc (P2.x prev) (P2.y prev) in
    {| position := {| P2.x := nextX activeFunc learningRate prev;
                      P2.y := nextY activeFunc learningRate prev |};
       path := path s ++ [ {| P3.x := P2.x prev; P3.y := currentZ;
                              P3.z := P2.y prev |} ];
       iteration := iteration s + 1;
       isRunning := isRunning s |}.

(** One firing of the interval timer: [step] runs while [isRunning]. *)
Definition tick (activeFunc : Func) (learningRate : T) (s : Algo) : Algo :=
  if isRunning s then step activeFunc learningRate s else s.

Fixpoint ticks (n : nat) (activeFunc : Func) (learningRate : T) (s : Algo)
  : Algo :=
  match n with
  | O => s
  | S k => ticks k activeFunc learningRate (tick activeFunc learningRate s)
  end.

(** [reset] *)
Definition reset (activeFunc : Func) (s : Algo) : Algo :=
  {| position := start activeFunc; path := []; iteration := 0;
     isRunning := false |}.

(** The state after the start button is pressed on a fresh view. *)
Definition started (activeFunc : Func) : Algo :=
  {| position := start activeFunc; path := []; iteration := 0;
     isRunning := true |}.

(** End-to-end scenario 4 of the specification, for a number type [T]:
    from the bowl's start with learning rate [0.1], each of the first [N]
    timer ticks is an accepted step (displacement neither below [0.001]
    nor above [10]) that strictly lowers [f], and tick [N + 1] finds the
    displacement below [0.001] and stops without moving. *)
Definition bowl_scenario (N : nat) : Prop :=
  let lr := dec 1 10 in
  let s0 := started bowl in
  (forall k, (k < N)%nat ->
     let s := ticks k bowl lr s0 in
     let s' := tick bowl lr s in
     isRunning s = true /\
     (dist bowl lr (position s) <? dec 1 1000) = false /\
     (dist bowl lr (position s) >? ofZ 10) = false /\
     iteration s' = S k /\
     (f bowl (P2.x (position s')) (P2.y (position s'))
        <? f bowl (P2.x (position s)) (P2.y (position s))) = true) /\
  let s := ticks N bowl lr s0 in
  let s' := tick bowl lr s in
  isRunning s = true /\
  (dist bowl lr (position s) <? dec 1 1000) = true /\
  isRunning s' = false /\ position s' = position s /\ iteration s' = N.

End Stepper.

Section View.
Context {T : Type} `{Number T} `{Trig T}.
Local Open Scope js_scope.

(** [FUNCTIONS[1]], the waves. *)
Definition waves : Func := {|
  f := fun x y => mcos x + mcos y + (x * x + y * y) / ofZ 10;
  df_dx := fun x y => - msin x + x / ofZ 5;
  df_dy := fun x y => - msin y + y / ofZ 5;
  start := {| P2.x := dec 25 10; P2.y := dec 25 10 |};
  range := ofZ 4
|}.

(** [FUNCTIONS] *)
Definition FUNCTIONS : list Func := [ bowl; waves; saddle ].

Inductive Drag : Type := ORBIT | BALL.

(** The component's cells: the algorithm state, the view state
    ([camera] holds pitch in [x] and yaw in [y]), the drag mode and the
    [lastMouse] ref. *)
Record State : Type := mkState {
  algo : Algo (T:=T);
  camera : P2.t T;
  scale : T;
  pan : P2.t T;
  dragging : option Drag;
  lastMouse : P2.t T
}.

(** What the handlers read from the event and from the canvas. *)
Record MouseEvent : Type := mkMouse { clientX : T; clientY : T }.
Record Canvas : Type := mkCanvas {
  rect_left : T; rect_top : T; width : T; height : T
}.

(** [project] *)
Definition project (s : State) (p : P3.t T) (w h : T) : P3.t T :=
  let r := rotateY p (P2.y (camera s)) in
  let r := rotateX r (P2.x (camera s)) in
  {| P3.x := w / ofZ 2 + P2.x (pan s) + P3.x r * scale s;
     P3.y := h / ofZ 2 + P2.y (pan s) - P3.y r * scale s;
     P3.z := P3.z r |}.

(** The pointer's distance to the projected ball, [dist] in
    [handleMouseDown]. *)
Definition ballDist (activeFunc : Func) (cv : Canvas) (e : MouseEvent)
    (s : State) : T :=
  let mx := clientX e - rect_left cv in
  let my := clientY e - rect_top cv in
  let pos := position (algo s) in
  let currentZ := f activeFunc (P2.x pos) (P2.y pos) in
  let ballPos3D := {| P3.x := P2.x pos; P3.y := currentZ; P3.z := P2.y pos |} in
  let proj := project s ballPos3D (width cv) (height cv) in
  msqrt (sq (mx - P3.x proj) + sq (my - P3.y proj)).

(** [handleMouseDown] *)
Definition handleMouseDown (activeFunc : Func) (cv : Canvas) (e : MouseEvent)
    (s : State) : State :=
  let last := {| P2.x := clientX e; P2.y := clientY e |} in
  if ballDist activeFunc cv e s <? ofZ 15 then
    {| algo := {| position := position (algo s); path := [];
                  iteration := 0; isRunning := false |};
       camera := camera s; scale := scale s; pan := pan s;
       dragging := Some BALL; lastMouse := last |}
  else
    {| algo := algo s; camera := camera s; scale := scale s; pan := pan s;
       dragging := Some ORBIT; lastMouse := last |}.

(** [handleMouseMove] *)
Definition handleMouseMove (e : MouseEvent) (s : State) : State :=
  match dragging s with
  | None => s
  | Some mode =>
    let dx := clientX e - P2.x (lastMouse s) in
    let dy := clientY e - P2.y (lastMouse s) in
    let last := {| P2.x := clientX e; P2.y := clientY e |} in
    match mode with
    | ORBIT =>
      {| algo := algo s;
         camera := {| P2.x := P2.x (camera s) + dy * dec 1 100;
                      P2.y := P2.y (camera s) + dx * dec 1 100 |};
         scale := scale s; pan := pan s;
         dragging := dragging s; lastMouse := last |}
    | BALL =>
      let sensitivity := ofZ 1 / scale s in
      let cosY := mcos (P2.y (camera s)) in
      let sinY := msin (P2.y (camera s)) in
      let dX := (dx * cosY + dy * sinY) * sensitivity in
      let dY := (dy * cosY - dx * sinY) * sensitivity in
      let prev := position (algo s) in
      {| algo := {| position :=
                      {| P2.x := mmax (- ofZ 4) (mmin (ofZ 4) (P2.x prev + dX));
                         P2.y := mmax (- ofZ 4) (mmin (ofZ 4) (P2.y prev + dY)) |};
                    path := path (algo s);
                    iteration := iteration (algo s);
                    isRunning := isRunning (algo s) |};
         camera := camera s; scale := scale s; pan := pan s;
         dragging := dragging s; lastMouse := last |}
    end
  end.

(** [handleMouseUp] *)
Definition handleMouseUp (s : State) : State :=
  {| algo := algo s; camera := camera s; scale := scale s; pan := pan s;
     dragging := None; lastMouse := lastMouse s |}.

(** What [handleWheel] reads from the event. *)
Record WheelEvent : Type := mkWheel { deltaY : T }.

(** [handleWheel] *)
Definition handleWheel (e : WheelEvent) (s : State) : State :=
  let zoomFactor := if deltaY e <? ofZ 0 then dec 11 10 else dec 9 10 in
  {| algo := algo s; camera := camera s;
     scale := mmax (ofZ 20) (mmin (ofZ 150) (scale s * zoomFactor));
     pan := pan s; dragging := dragging s; lastMouse := lastMouse s |}.

Definition handleWheels (es : list WheelEvent) (s : State) : State :=
  fold_left (fun st e => handleWheel e st) es s.

(** The canvas' listeners: [onMouseDown], [onMouseMove], [onMouseUp]
    (also bound to [onMouseLeave]) and [onWheel]. *)
Inductive Event : Type :=
| MouseDown (cv : Canvas) (e : MouseEvent)
| MouseMove (e : MouseEvent)
| MouseUp
| Wheel (e : WheelEvent).

Definition handle (activeFunc : Func) (s : State) (ev : Event) : State :=
  match ev with
  | MouseDown cv e => handleMouseDown activeFunc cv e s
  | MouseMove e => handleMouseMove e s
  | MouseUp => handleMouseUp s
  | Wheel e => handleWheel e s
  end.

(** A gesture's pointer-move events, handled in order. *)
Definition handleMouseMoves (es : list MouseEvent) (s : State) : State :=
  fold_left (fun st e => handleMouseMove e st) es s.


End View.

End GradientDescent.

(** ** ComingSoon.tsx: IntegralVisualizer, the Riemann-sum estimator *)

Module IntegralVisualizer.

Section Estimator.
Context {T : Type} `{Number T}.
Local Open Scope js_scope.

(** [FUNCTIONS[0]] and [FUNCTIONS[1]]: the paraboloid and the inclined
    plane; both have [range: 3]. *)
Definition paraboloid (x y : T) : T := ofZ 1 + (x * x + y * y) / ofZ 8.
Definition plane (x y : T) : T := ofZ 2 + dec 3 10 * x + dec 3 10 * y.

(** A prism of the [prisms] list, kept by what its [corners] are computed
    from: the cell's lower corner and the height at the midpoint. *)
Record Prism : Type := mkPrism { cellX : T; cellY : T; prismHeight : T }.

(** The accumulator of the two loops of [draw]: [vol] and [prisms]. *)
Definition Acc : Type := (T * list Prism)%type.

(** The body of the inner loop for the cell whose lower corner is
    [(x, y)]. *)
Definition cell (fn : T -> T -> T) (step x y : T) (acc : Acc) : Acc :=
  let midX := x + step / ofZ 2 in
  let midY := y + step / ofZ 2 in
  let height := fn midX midY in
  if height <=? ofZ 0 then acc
  else (fst acc + height * (step * step),
        snd acc ++ [ {| cellX := x; cellY := y; prismHeight := height |} ]).

(** [for (let y = -range; y < range; y += step)], entered at [y]; [None]
    when the fuel does not suffice. *)
Fixpoint innerLoop (fuel : nat) (fn : T -> T -> T) (range step x y : T)
    (acc : Acc) : option Acc :=
  match fuel with
  | O => None
  | S k =>
    if y <? range
    then innerLoop k fn range step x (y + step) (cell fn step x y acc)
    else Some acc
  end.

(** [for (let x = -range; x < range; x += step)], entered at [x]. *)
Fixpoint outerLoop (fuel : nat) (fn : T -> T -> T) (range step x : T)
    (acc : Acc) : option Acc :=
  match fuel with
  | O => None
  | S k =>
    if x <? range
    then match innerLoop fuel fn range step x (- range) acc with
         | Some acc' => outerLoop k fn range step (x + step) acc'
         | None => None
         end
    else Some acc
  end.

(** The midpoint loop of [draw]: the value handed to [setTotalVolume] and
    the prisms pushed. *)
Definition estimate (fuel : nat) (fn : T -> T -> T) (range resolution : T)
  : option Acc :=
  let step := (range * ofZ 2) / resolution in
  outerLoop fuel fn range step (- range) (ofZ 0, []).

End Estimator.

(** The estimator as the specification words it, over the reals: the
    square [[-r, r] x [-r, r]] is cut into [n * n] cells of side [2r/n],
    cell [(i, j)] has its lower corner at [(-r + i * 2r/n, -r + j * 2r/n)],
    and the estimate adds [f midpoint * (dx * dy)] over the cells whose
    midpoint value is positive. *)
Section MidpointRule.
Local Open Scope R_scope.

Definition side (r : R) (n : nat) : R := 2 * r / INR n.
Definition corner (r : R) (n i : nat) : R := - r + INR i * side r n.
Definition midpoint (r : R) (n i : nat) : R := corner r n i + side r n / 2.

Definition cells (n : nat) : list (nat * nat) :=
  list_prod (seq 0 n) (seq 0 n).

Definition positive_at (fn : R -> R -> R) (r : R) (n : nat)
    (ij : nat * nat) : bool :=
  if Rlt_dec 0 (fn (midpoint r n (fst ij)) (midpoint r n (snd ij)))
  then true else false.

Definition prism_at (fn : R -> R -> R) (r : R) (n : nat)
    (ij : nat * nat) : Prism (T:=R) :=
  {| cellX := corner r n (fst ij);
     cellY := corner r n (snd ij);
     prismHeight := fn (midpoint r n (fst ij)) (midpoint r n (snd ij)) |}.

Definition midpoint_sum (fn : R -> R -> R) (r : R) (n : nat) : R :=
  fold_left
    (fun acc ij =>
       acc + fn (midpoint r n (fst ij)) (midpoint r n (snd ij))
             * (side r n * side r n))
    (filter (positive_at fn r n) (cells n)) 0.

Definition midpoint_prisms (fn : R -> R -> R) (r : R) (n : nat)
  : list (Prism (T:=R)) :=
  map (prism_at fn r n) (filter (positive_at fn r n) (cells n)).

(** One pass of the loop body on cell [(i, j)] of the grid. *)
Definition visit (fn : R -> R -> R) (r : R) (n : nat)
    (acc : Acc (T:=R)) (ij : nat * nat) : Acc (T:=R) :=
  cell fn (side r n) (corner r n (fst ij)) (corner r n (snd ij)) acc.

End MidpointRule.

End IntegralVisualizer.

(** ** MatrixMultiplicationLevel.tsx: the composition animator *)

Module MatrixMultiplicationLevel.

Section Animator.
Context {T : Type} `{Number T}.
Local Open Scope js_scope.

(** [interface Matrix2x2 { a; b; c; d }], row-major. *)
Record Matrix2x2 : Type := mkMatrix { a : T; b : T; c : T; d : T }.

(** [interface TransformationStep] *)
Record TransformationStep : Type := mkStep {
  id : string;
  name : string;
  matrix : Matrix2x2;
  color : string
}.

(** [multiply]: [m1 * m2], apply [m2] first, then [m1]. *)
Definition multiply (m1 m2 : Matrix2x2) : Matrix2x2 :=
  {| a := a m1 * a m2 + b m1 * c m2;
     b := a m1 * b m2 + b m1 * d m2;
     c := c m1 * a m2 + d m1 * c m2;
     d := c m1 * b m2 + d m1 * d m2 |}.

(** [lerpMatrix] *)
Definition lerpMatrix (m1 m2 : Matrix2x2) (t : T) : Matrix2x2 :=
  {| a := a m1 + (a m2 - a m1) * t;
     b := b m1 + (b m2 - b m1) * t;
     c := c m1 + (c m2 - c m1) * t;
     d := d m1 + (d m2 - d m1) * t |}.

(** [{ a: 1, b: 0, c: 0, d: 1 }] *)
Definition identity : Matrix2x2 :=
  {| a := ofZ 1; b := ofZ 0; c := ofZ 0; d := ofZ 1 |}.

(** The four steps [addStep] can queue. *)
Definition ROTATE (i : string) : TransformationStep :=
  {| id := i; name := "ROTAR 90°";
     matrix := {| a := ofZ 0; b := - ofZ 1; c := ofZ 1; d := ofZ 0 |};
     color := "text-yellow-400" |}.
Definition SCALE (i : string) : TransformationStep :=
  {| id := i; name := "ESCALAR 1.5x";
     matrix := {| a := dec 15 10; b := ofZ 0; c := ofZ 0; d := dec 15 10 |};
     color := "text-green-400" |}.
Definition SHEAR (i : string) : TransformationStep :=
  {| id := i; name := "CIZALLA X";
     matrix := {| a := ofZ 1; b := ofZ 1; c := ofZ 0; d := ofZ 1 |};
     color := "text-red-400" |}.
Definition REFLECT (i : string) : TransformationStep :=
  {| id := i; name := "REFLEJO X";
     matrix := {| a := - ofZ 1; b := ofZ 0; c := ofZ 0; d := ofZ 1 |};
     color := "text-blue-400" |}.

(** The cells of the component that the animation reads and writes. *)
Record Anim : Type := mkAnim {
  queue : list TransformationStep;
  isAnimating : bool;
  currentMatrix : Matrix2x2;
  stepIndex : nat;
  progress : T;
  accumulatedMatrix : Matrix2x2
}.

(** [runSequence] *)
Definition runSequence (s : Anim) : Anim :=
  match queue s with
  | [] => s
  | _ :: _ =>
    {| queue := queue s; isAnimating := true; currentMatrix := identity;
       stepIndex := 0; progress := ofZ 0; accumulatedMatrix := identity |}
  end.

(** One call of [loop] in the animation effect: the updater given to
    [setProgress] and the setters it calls.  [queue[stepIndex].matrix]
    throws a [TypeError] when the index is out of range; that is
    [None]. *)
Definition loopTick (s : Anim) : option Anim :=
  if isAnimating s then
    let next := progress s + dec 2 100 in
    if next >=? ofZ 1 then
      if (Z.of_nat (stepIndex s) <? Z.of_nat (List.length (queue s)) - 1)%Z
      then
        match nth_error (queue s) (stepIndex s) with
        | Some st =>
          let stepM := matrix st in
          let newAcc := multiply stepM (accumulatedMatrix s) in
          Some {| queue := queue s; isAnimating := isAnimating s;
                  currentMatrix := currentMatrix s;
                  stepIndex := stepIndex s + 1;
                  progress := ofZ 0;
                  accumulatedMatrix := newAcc |}
        | None => None
        end
      else
        match nth_error (queue s) (stepIndex s) with
        | Some st =>
          let lastStepM := matrix st in
          let finalM := multiply lastStepM (accumulatedMatrix s) in
          Some {| queue := queue s; isAnimating := false;
                  currentMatrix := finalM;
                  stepIndex := stepIndex s;
                  progress := ofZ 1;
                  accumulatedMatrix := accumulatedMatrix s |}
        | None => None
        end
    else
      Some {| queue := queue s; isAnimating := isAnimating s;
              currentMatrix := currentMatrix s; stepIndex := stepIndex s;
              progress := next;
              accumulatedMatrix := accumulatedMatrix s |}
  else Some s.

(** Smoothstep, [progress * progress * (3 - 2 * progress)]. *)
Definition smoothstep (p : T) : T := p * p * (ofZ 3 - ofZ 2 * p).

(** The effect that updates the visual matrix after each render. *)
Definition visualEffect (s : Anim) : option Anim :=
  if isAnimating s && (0 <? List.length (queue s))%nat then
    match nth_error (queue s) (stepIndex s) with
    | Some st =>
      let stepM := matrix st in
      let targetM := multiply stepM (accumulatedMatrix s) in
      let t := smoothstep (progress s) in
      Some {| queue := queue s; isAnimating := isAnimating s;
              currentMatrix := lerpMatrix (accumulatedMatrix s) targetM t;
              stepIndex := stepIndex s; progress := progress s;
              accumulatedMatrix := accumulatedMatrix s |}
    | None => None
    end
  else if negb (isAnimating s) && (List.length (queue s) =? 0)%nat then
    Some {| queue := queue s; isAnimating := isAnimating s;
            currentMatrix := identity;
            stepIndex := stepIndex s; progress := progress s;
            accumulatedMatrix := identity |}
  else Some s.

(** One animation frame: a call of [loop], then the visual effect of the
    render it causes. *)
Definition frame (s : Anim) : option Anim :=
  match loopTick s with
  | Some s' => visualEffect s'
  | None => None
  end.

Fixpoint frames (n : nat) (s : Anim) : option Anim :=
  match n with
  | O => Some s
  | S k => match frame s with
           | Some s' => frames k s'
           | None => None
           end
  end.

(** The product [Mk * ... * M2 * M1] of a queue [[M1; ...; Mk]], built on
    [acc] by left multiplication in queue order. *)
Definition composeFrom (acc : Matrix2x2) (q : list TransformationStep)
  : Matrix2x2 :=
  fold_left (fun A st => multiply (matrix st) A) q acc.

Definition compose (q : list TransformationStep) : Matrix2x2 :=
  composeFrom identity q.

(** [transform] *)
Definition transform (p : P2.t T) (m : Matrix2x2) : P2.t T :=
  {| P2.x := a m * P2.x p + b m * P2.y p;
     P2.y := c m * P2.x p + d m * P2.y p |}.

(** [addStep]; [i] is the [Date.now().toString()] it reads. *)
Definition addStep (type : string) (i : string) (s : Anim) : Anim :=
  if isAnimating s then s
  else
    let push (step : TransformationStep) :=
      {| queue := queue s ++ [ step ]; isAnimating := isAnimating s;
         currentMatrix := currentMatrix s; stepIndex := stepIndex s;
         progress := progress s;
         accumulatedMatrix := accumulatedMatrix s |} in
    if String.eqb type "ROTATE" then push (ROTATE i)
    else if String.eqb type "SCALE" then push (SCALE i)
    else if String.eqb type "SHEAR" then push (SHEAR i)
    else if String.eqb type "REFLECT" then push (REFLECT i)
    else s.

(** [prev.filter((_, i) => i !== idx)] *)
Definition dropIndex {A : Type} (idx : nat) (l : list A) : list A :=
  map snd
      (filter (fun e => negb (fst e =? idx)%nat)
              (combine (seq 0 (List.length l)) l)).

(** [removeStep] *)
Definition removeStep (idx : nat) (s : Anim) : Anim :=
  if isAnimating s then s
  else
    {| queue := dropIndex idx (queue s); isAnimating := isAnimating s;
       currentMatrix := currentMatrix s; stepIndex := stepIndex s;
       progress := progress s; accumulatedMatrix := accumulatedMatrix s |}.

(** [reset] *)
Definition reset (s : Anim) : Anim :=
  {| queue := []; isAnimating := false; currentMatrix := identity;
     stepIndex := stepIndex s; progress := progress s;
     accumulatedMatrix := identity |}.

End Animator.

End MatrixMultiplicationLevel.

(** ** EigenvectorsLevel.tsx: the alignment test *)

Module EigenvectorsLevel.

Section Alignment.
Context {T : Type} `{Number T}.
Local Open Scope js_scope.

(** [cross] in [draw], for the probe and one eigen line. *)
Definition cross (probeBase line : P2.t T) : T :=
  P2.x probeBase * P2.y line - P2.y probeBase * P2.x line.

(** The [isAligned] flag after the [forEach] over the eigen lines. *)
Definition isAligned (probeBase : P2.t T) (eigenLines : list (P2.t T))
  : bool :=
  fold_left
    (fun isAligned line =>
       if mabs (cross probeBase line) <? dec 1 10 then true else isAligned)
    eigenLines false.

(** The eigen lines of the four [PRESETS]. *)
Definition SCALE_X_lines : list (P2.t T) :=
  [ {| P2.x := ofZ 1; P2.y := ofZ 0 |}; {| P2.x := ofZ 0; P2.y := ofZ 1 |} ].
Definition SCALE_UNIFORM_lines : list (P2.t T) :=
  [ {| P2.x := ofZ 1; P2.y := ofZ 0 |}; {| P2.x := ofZ 0; P2.y := ofZ 1 |};
    {| P2.x := ofZ 1; P2.y := ofZ 1 |} ].
Definition SHEAR_lines : list (P2.t T) :=
  [ {| P2.x := ofZ 1; P2.y := ofZ 0 |} ].
Definition DIAGONAL_lines : list (P2.t T) :=
  [ {| P2.x := ofZ 1; P2.y := ofZ 1 |}; {| P2.x := - ofZ 1; P2.y := ofZ 1 |} ].

End Alignment.

Section Presets.
Context {T : Type} `{Number T}.
Local Open Scope js_scope.

(** An entry of [PRESETS]: the matrix and its declared eigen lines. *)
Record Preset : Type := mkPreset {
  matrix : MatrixMultiplicationLevel.Matrix2x2 (T:=T);
  eigenLines : list (P2.t T)
}.

Definition SCALE_X : Preset :=
  {| matrix := MatrixMultiplicationLevel.mkMatrix
                 (ofZ 2) (ofZ 0) (ofZ 0) (ofZ 1);
     eigenLines := SCALE_X_lines |}.
Definition SCALE_UNIFORM : Preset :=
  {| matrix := MatrixMultiplicationLevel.mkMatrix
                 (ofZ 2) (ofZ 0) (ofZ 0) (ofZ 2);
     eigenLines := SCALE_UNIFORM_lines |}.
Definition SHEAR : Preset :=
  {| matrix := MatrixMultiplicationLevel.mkMatrix
                 (ofZ 1) (ofZ 1) (ofZ 0) (ofZ 1);
     eigenLines := SHEAR_lines |}.
Definition DIAGONAL : Preset :=
  {| matrix := MatrixMultiplicationLevel.mkMatrix
                 (ofZ 2) (ofZ 1) (ofZ 1) (ofZ 2);
     eigenLines := DIAGONAL_lines |}.

Definition PRESETS : list Preset :=
  [ SCALE_X; SCALE_UNIFORM; SHEAR; DIAGONAL ].

(** [lerp] *)
Definition lerp (start end_ amt : T) : T := start + (end_ - start) * amt.

(** [currentMatrix]: between the identity and the preset, at time [t]. *)
Definition currentMatrix (currentPreset : Preset) (t : T)
  : MatrixMultiplicationLevel.Matrix2x2 (T:=T) :=
  MatrixMultiplicationLevel.mkMatrix
    (lerp (ofZ 1) (MatrixMultiplicationLevel.a (matrix currentPreset)) t)
    (lerp (ofZ 0) (MatrixMultiplicationLevel.b (matrix currentPreset)) t)
    (lerp (ofZ 0) (MatrixMultiplicationLevel.c (matrix currentPreset)) t)
    (lerp (ofZ 1) (MatrixMultiplicationLevel.d (matrix currentPreset)) t).

(** [transform] *)
Definition transform (v : P2.t T)
    (m : MatrixMultiplicationLevel.Matrix2x2 (T:=T)) : P2.t T :=
  {| P2.x := MatrixMultiplicationLevel.a m * P2.x v
             + MatrixMultiplicationLevel.b m * P2.y v;
     P2.y := MatrixMultiplicationLevel.c m * P2.x v
             + MatrixMultiplicationLevel.d m * P2.y v |}.

(** [currentProbe] *)
Definition currentProbe (currentPreset : Preset) (t : T)
    (probeBase : P2.t T) : P2.t T :=
  transform probeBase (currentMatrix currentPreset t).

(** The [t] and [isPlaying] cells. *)
Record Timeline : Type := mkTimeline { t : T; isPlaying : bool }.

(** One call of [loop] in the animation effect. *)
Definition loop (s : Timeline) : Timeline :=
  if isPlaying s then
    if t s >=? ofZ 1 then {| t := ofZ 1; isPlaying := false |}
    else {| t := t s + dec 1 100; isPlaying := isPlaying s |}
  else s.

Fixpoint loops (n : nat) (s : Timeline) : Timeline :=
  match n with
  | O => s
  | S k => loops k (loop s)
  end.

(** The [ANIMAR] button. *)
Definition play (s : Timeline) : Timeline :=
  {| t := ofZ 0; isPlaying := true |}.

End Presets.

End EigenvectorsLevel.

(** ** VectorPlayground.tsx: the projection *)

Module VectorPlayground.

Section Projection.
Context {T : Type} `{Number T} `{Trig T}.
Local Open Scope js_scope.

(** The view cells [project] closes over; [cameraAngle] holds pitch in
    [x] and yaw in [y]. *)
Record View : Type := mkView {
  is3D : bool;
  cameraAngle : P2.t T;
  scale : T;
  pan : P2.t T
}.

(** [project] *)
Definition project (vw : View) (v : P3.t T) (width height : T) : P3.t T :=
  let p :=
    if is3D vw then
      let p := rotateY v (P2.y (cameraAngle vw)) in
      rotateX p (P2.x (cameraAngle vw))
    else {| P3.x := P3.x v; P3.y := P3.y v; P3.z := ofZ 0 |} in
  {| P3.x := width / ofZ 2 + P2.x (pan vw) + (P3.x p * scale vw);
     P3.y := height / ofZ 2 + P2.y (pan vw) - (P3.y p * scale vw);
     P3.z := P3.z p |}.

End Projection.

End VectorPlayground.

(** ** VectorPlayground.tsx: the pointer handlers *)

Module VectorPlaygroundDrag.

Section Handlers.
Context {T : Type} `{Number T} `{Trig T} `{Circle T}.
Import VectorPlayground.
Local Open Scope js_scope.

Inductive Handle : Type := HandleA | HandleB.

(** The cells of the component. *)
Record State : Type := mkState {
  vecA : P3.t T;
  vecB : P3.t T;
  view : View (T:=T);
  dragging : option Handle;
  isOrbiting : bool;
  lastMousePos : P2.t T
}.

(** What the handlers read from a mouse event and from the canvas. *)
Record MouseEvent : Type := mkMouse {
  clientX : T; clientY : T; buttons : Z
}.
Record Canvas : Type := mkCanvas {
  rect_left : T; rect_top : T; width : T; height : T
}.

(** [vecR], the resultant. *)
Definition vecR (s : State) : P3.t T :=
  {| P3.x := P3.x (vecA s) + P3.x (vecB s);
     P3.y := P3.y (vecA s) + P3.y (vecB s);
     P3.z := P3.z (vecA s) + P3.z (vecB s) |}.

(** [getMag] *)
Definition getMag (v : P3.t T) : T :=
  msqrt (sq (P3.x v) + sq (P3.y v) + sq (P3.z v)).

(** [handleMouseDown], with the canvas mounted ([canvasRef.current] is
    [cv]). *)
Definition handleMouseDown (cv : Canvas) (e : MouseEvent) (s : State)
  : State :=
  let mx := clientX e - rect_left cv in
  let my := clientY e - rect_top cv in
  let tipA := project (view s) (vecA s) (width cv) (height cv) in
  let tipB := project (view s) (vecB s) (width cv) (height cv) in
  let distA := msqrt (sq (mx - P3.x tipA) + sq (my - P3.y tipA)) in
  let distB := msqrt (sq (mx - P3.x tipB) + sq (my - P3.y tipB)) in
  let last := {| P2.x := clientX e; P2.y := clientY e |} in
  if distA <? ofZ 20 then
    {| vecA := vecA s; vecB := vecB s; view := view s;
       dragging := Some HandleA; isOrbiting := isOrbiting s;
       lastMousePos := last |}
  else if distB <? ofZ 20 then
    {| vecA := vecA s; vecB := vecB s; view := view s;
       dragging := Some HandleB; isOrbiting := isOrbiting s;
       lastMousePos := last |}
  else
    {| vecA := vecA s; vecB := vecB s; view := view s;
       dragging := dragging s;
       isOrbiting := if is3D (view s) then true else isOrbiting s;
       lastMousePos := last |}.

(** [updateVector]'s updater: the dragged vector after a pointer
    movement of [(dx, dy)]. *)
Definition updateVector (vw : View (T:=T)) (dx dy : T) (prev : P3.t T)
  : P3.t T :=
  let sensitivity := ofZ 1 / scale vw in
  if is3D vw then
    let cosY := mcos (P2.y (cameraAngle vw)) in
    let sinY := msin (P2.y (cameraAngle vw)) in
    {| P3.x := P3.x prev + (dx * cosY) * sensitivity;
       P3.y := P3.y prev - dy * sensitivity;
       P3.z := P3.z prev + (dx * sinY) * sensitivity |}
  else
    {| P3.x := P3.x prev + dx * sensitivity;
       P3.y := P3.y prev - dy * sensitivity;
       P3.z := P3.z prev |}.

Definition withCamera (vw : View (T:=T)) (ca : P2.t T) : View (T:=T) :=
  {| is3D := is3D vw; cameraAngle := ca; scale := scale vw; pan := pan vw |}.
Definition withPan (vw : View (T:=T)) (pn : P2.t T) : View (T:=T) :=
  {| is3D := is3D vw; cameraAngle := cameraAngle vw; scale := scale vw;
     pan := pn |}.
Definition withScale (vw : View (T:=T)) (sc : T) : View (T:=T) :=
  {| is3D := is3D vw; cameraAngle := cameraAngle vw; scale := sc;
     pan := pan vw |}.

(** [handleMouseMove] *)
Definition handleMouseMove (e : MouseEvent) (s : State) : State :=
  let dx := clientX e - P2.x (lastMousePos s) in
  let dy := clientY e - P2.y (lastMousePos s) in
  let last := {| P2.x := clientX e; P2.y := clientY e |} in
  match dragging s with
  | Some HandleA =>
    {| vecA := updateVector (view s) dx dy (vecA s); vecB := vecB s;
       view := view s; dragging := dragging s; isOrbiting := isOrbiting s;
       lastMousePos := last |}
  | Some HandleB =>
    {| vecA := vecA s; vecB := updateVector (view s) dx dy (vecB s);
       view := view s; dragging := dragging s; isOrbiting := isOrbiting s;
       lastMousePos := last |}
  | None =>
    if isOrbiting s && is3D (view s) then
      let prev := cameraAngle (view s) in
      {| vecA := vecA s; vecB := vecB s;
         view := withCamera (view s)
           {| P2.x := mmax (- mPI / ofZ 2)
                           (mmin (mPI / ofZ 2) (P2.x prev + dy * dec 1 100));
              P2.y := P2.y prev + dx * dec 1 100 |};
         dragging := dragging s; isOrbiting := isOrbiting s;
         lastMousePos := last |}
    else if (buttons e =? 1)%Z && negb (is3D (view s)) then
      let prev := pan (view s) in
      {| vecA := vecA s; vecB := vecB s;
         view := withPan (view s)
           {| P2.x := P2.x prev + dx; P2.y := P2.y prev + dy |};
         dragging := dragging s; isOrbiting := isOrbiting s;
         lastMousePos := last |}
    else
      {| vecA := vecA s; vecB := vecB s; view := view s;
         dragging := dragging s; isOrbiting := isOrbiting s;
         lastMousePos := last |}
  end.

(** [handleMouseUp] *)
Definition handleMouseUp (s : State) : State :=
  {| vecA := vecA s; vecB := vecB s; view := view s;
     dragging := None; isOrbiting := false;
     lastMousePos := lastMousePos s |}.

(** [handleWheel], as a function of [deltaY]. *)
Definition handleWheel (deltaY : T) (s : State) : State :=
  let zoomIntensity := dec 1 10 in
  let zoomFactor := if deltaY <? ofZ 0 then ofZ 1 + zoomIntensity
                    else ofZ 1 - zoomIntensity in
  {| vecA := vecA s; vecB := vecB s;
     view := withScale (view s)
       (mmax (ofZ 10) (mmin (ofZ 200) (scale (view s) * zoomFactor)));
     dragging := dragging s; isOrbiting := isOrbiting s;
     lastMousePos := lastMousePos s |}.

(** The [2D] button. *)
Definition set2D (s : State) : State :=
  {| vecA := vecA s; vecB := vecB s;
     view := {| is3D := false;
                cameraAngle := {| P2.x := ofZ 0; P2.y := ofZ 0 |};
                scale := ofZ 40;
                pan := {| P2.x := ofZ 0; P2.y := ofZ 0 |} |};
     dragging := dragging s; isOrbiting := isOrbiting s;
     lastMousePos := lastMousePos s |}.

(** The [3D] button. *)
Definition set3D (s : State) : State :=
  {| vecA := vecA s; vecB := vecB s;
     view := {| is3D := true;
                cameraAngle := {| P2.x := - dec 3 10; P2.y := dec 5 10 |};
                scale := scale (view s); pan := pan (view s) |};
     dragging := dragging s; isOrbiting := isOrbiting s;
     lastMousePos := lastMousePos s |}.

(** The [REINICIAR VISTA] button. *)
Definition resetView (s : State) : State :=
  {| vecA := vecA s; vecB := vecB s;
     view := {| is3D := is3D (view s);
                cameraAngle := {| P2.x := - dec 3 10; P2.y := dec 5 10 |};
                scale := ofZ 40;
                pan := {| P2.x := ofZ 0; P2.y := ofZ 0 |} |};
     dragging := dragging s; isOrbiting := isOrbiting s;
     lastMousePos := lastMousePos s |}.

(** The cells' initial values. *)
Definition initial : State :=
  {| vecA := {| P3.x := ofZ 4; P3.y := ofZ 1; P3.z := ofZ 0 |};
     vecB := {| P3.x := ofZ 1; P3.y := ofZ 3; P3.z := ofZ 0 |};
     view := {| is3D := false;
                cameraAngle := {| P2.x := - dec 3 10; P2.y := dec 5 10 |};
                scale := ofZ 40;
                pan := {| P2.x := ofZ 0; P2.y := ofZ 0 |} |};
     dragging := None; isOrbiting := false;
     lastMousePos := {| P2.x := ofZ 0; P2.y := ofZ 0 |} |}.

(** Everything that writes a view cell: the canvas' listeners and the
    three view buttons. *)
Inductive Event : Type :=
| MouseDown (cv : Canvas) (e : MouseEvent)
| MouseMove (e : MouseEvent)
| MouseUp
| Wheel (deltaY : T)
| Set2D
| Set3D
| ResetView.

Definition handle (s : State) (ev : Event) : State :=
  match ev with
  | MouseDown cv e => handleMouseDown cv e s
  | MouseMove e => handleMouseMove e s
  | MouseUp => handleMouseUp s
  | Wheel deltaY => handleWheel deltaY s
  | Set2D => set2D s
  | Set3D => set3D s
  | ResetView => resetView s
  end.

(** The dragged vector and its projected tip. *)
Definition dragged (h : Handle) (s : State) : P3.t T :=
  match h with HandleA => vecA s | HandleB => vecB s end.

Definition tip (h : Handle) (s : State) (w ht : T) : P3.t T :=
  project (view s) (dragged h s) w ht.

End Handlers.

End VectorPlaygroundDrag.

(** ** The DotProductLevel component (second document of
    GradientDescent.tsx): the derived quantities *)

Module DotProductLevel.

Section Math.
Context {T : Type} `{Number T}.
Local Open Scope js_scope.

(** [dotProduct] *)
Definition dotProduct (vecA vecB : P3.t T) : T :=
  P3.x vecA * P3.x vecB + P3.y vecA * P3.y vecB + P3.z vecA * P3.z vecB.

(** [magA] and [magB] *)
Definition mag (v : P3.t T) : T :=
  msqrt (sq (P3.x v) + sq (P3.y v) + sq (P3.z v)).

(** The argument handed to [Math.acos] for [angleRad]. *)
Definition cosArg (vecA vecB : P3.t T) : T :=
  mmin (ofZ 1)
       (mmax (- ofZ 1)
             (dotProduct vecA vecB / jsOr (mag vecA * mag vecB) (ofZ 1))).

(** [scalarProj] *)
Definition scalarProj (vecA vecB : P3.t T) : T :=
  dotProduct vecA vecB / jsOr (sq (mag vecB)) (ofZ 1).

(** [vecProj], the shadow of A on B. *)
Definition vecProj (vecA vecB : P3.t T) : P3.t T :=
  {| P3.x := P3.x vecB * scalarProj vecA vecB;
     P3.y := P3.y vecB * scalarProj vecA vecB;
     P3.z := P3.z vecB * scalarProj vecA vecB |}.

End Math.

End DotProductLevel.

(** ** CrossProductLevel.tsx: the cross product *)

Module CrossProductLevel.

Section Math.
Context {T : Type} `{Number T}.
Local Open Scope js_scope.

(** [vecC] *)
Definition vecC (vecA vecB : P3.t T) : P3.t T :=
  {| P3.x := P3.y vecA * P3.z vecB - P3.z vecA * P3.y vecB;
     P3.y := P3.z vecA * P3.x vecB - P3.x vecA * P3.z vecB;
     P3.z := P3.x vecA * P3.y vecB - P3.y vecA * P3.x vecB |}.

(** [magC], shown as the area of the parallelogram. *)
Definition magC (vecA vecB : P3.t T) : T :=
  msqrt (sq (P3.x (vecC vecA vecB)) + sq (P3.y (vecC vecA vecB))
         + sq (P3.z (vecC vecA vecB))).

End Math.

End CrossProductLevel.

(** ** ScalarMultiplication.tsx: the scaled vector *)

Module ScalarMultiplication.

Section Math.
Context {T : Type} `{Number T}.
Local Open Scope js_scope.

(** [resultVector] *)
Definition resultVector (vector : P3.t T) (scalar : T) : P3.t T :=
  {| P3.x := P3.x vector * scalar;
     P3.y := P3.y vector * scalar;
     P3.z := P3.z vector * scalar |}.

(** [baseMag] *)
Definition baseMag (vector : P3.t T) : T :=
  msqrt (sq (P3.x vector) + sq (P3.y vector) + sq (P3.z vector)).

(** [resultMag] *)
Definition resultMag (vector : P3.t T) (scalar : T) : T :=
  msqrt (sq (P3.x (resultVector vector scalar))
         + sq (P3.y (resultVector vector scalar))
         + sq (P3.z (resultVector vector scalar))).

End Math.

End ScalarMultiplication.

(** ** VectorVisualizer.tsx: polar input and the zoom about the pointer *)

Module VectorVisualizer.

Section Visualizer.
Context {T : Type} `{Number T} `{Trig T} `{Circle T}.
Import VectorPlayground.
Local Open Scope js_scope.

(** [magnitude] *)
Definition magnitude (is3D : bool) (vector : P3.t T) : T :=
  msqrt (sq (P3.x vector) + sq (P3.y vector)
         + (if is3D then sq (P3.z vector) else ofZ 0)).

(** [updateFromPolar]: the vector it sets. *)
Definition updateFromPolar (is3D : bool) (newR newThetaDeg newPhiDeg : T)
  : P3.t T :=
  let tRad := newThetaDeg * mPI / ofZ 180 in
  if negb is3D then
    {| P3.x := newR * mcos tRad; P3.y := newR * msin tRad; P3.z := ofZ 0 |}
  else
    let pRad := newPhiDeg * mPI / ofZ 180 in
    {| P3.x := newR * msin pRad * mcos tRad;
       P3.y := newR * msin pRad * msin tRad;
       P3.z := newR * mcos pRad |}.

(** What [handleCanvasWheel] reads from the event and from the canvas. *)
Record WheelEvent : Type := mkWheel {
  clientX : T; clientY : T; deltaY : T
}.
Record Canvas : Type := mkCanvas {
  rect_left : T; rect_top : T; width : T; height : T
}.

(** [handleCanvasWheel], on the view cells, with the canvas mounted. *)
Definition handleCanvasWheel (cv : Canvas) (e : WheelEvent)
    (vw : View (T:=T)) : View (T:=T) :=
  let mx := clientX e - rect_left cv in
  let my := clientY e - rect_top cv in
  let cx := mx - width cv / ofZ 2 in
  let cy := my - height cv / ofZ 2 in
  let zoomIntensity := dec 1 10 in
  let zoomFactor := if deltaY e <? ofZ 0 then ofZ 1 + zoomIntensity
                    else ofZ 1 - zoomIntensity in
  let newScale := mmax (ofZ 5) (mmin (ofZ 500) (scale vw * zoomFactor)) in
  {| is3D := is3D vw; cameraAngle := cameraAngle vw;
     scale := newScale;
     pan := {| P2.x := cx - ((cx - P2.x (pan vw)) / scale vw) * newScale;
               P2.y := cy - ((cy - P2.y (pan vw)) / scale vw) * newScale |}
  |}.

End Visualizer.

End VectorVisualizer.

(** ** CurlLevel.tsx: the fields and the paddle wheel *)

Module CurlLevel.

Section Fields.
Context {T : Type} `{Number T}.
Local Open Scope js_scope.

(** An entry of [FIELDS]. *)
Record Field : Type := mkField {
  Fx : T -> T -> T;
  Fy : T -> T -> T;
  dFy_dx : T -> T -> T;
  dFx_dy : T -> T -> T;
  curl_const : T
}.

Definition vortex : Field := {|
  Fx := fun x y => - y;
  Fy := fun x y => x;
  dFy_dx := fun x y => ofZ 1;
  dFx_dy := fun x y => - ofZ 1;
  curl_const := ofZ 2
|}.

Definition shear : Field := {|
  Fx := fun x y => y;
  Fy := fun x y => ofZ 0;
  dFy_dx := fun x y => ofZ 0;
  dFx_dy := fun x y => ofZ 1;
  curl_const := - ofZ 1
|}.

Definition expansion : Field := {|
  Fx := fun x y => x;
  Fy := fun x y => y;
  dFy_dx := fun x y => ofZ 0;
  dFx_dy := fun x y => ofZ 0;
  curl_const := ofZ 0
|}.

Definition FIELDS : list Field := [ vortex; shear; expansion ].

(** [curlVal] *)
Definition curlVal (activeField : Field) (position : P2.t T) : T :=
  let term1 := dFy_dx activeField (P2.x position) (P2.y position) in
  let term2 := dFx_dy activeField (P2.x position) (P2.y position) in
  term1 - term2.

(** One call of [loop]: the updater given to [setPaddleAngle]. *)
Definition loop (curlVal : T) (paddleAngle : T) : T :=
  paddleAngle + curlVal * dec 5 100.

Fixpoint loops (n : nat) (curlVal : T) (paddleAngle : T) : T :=
  match n with
  | O => paddleAngle
  | S k => loops k curlVal (loop curlVal paddleAngle)
  end.

(** The caption under the value. *)
Definition caption (curlVal : T) : string :=
  if curlVal >? dec 1 10 then "Giro Anti-horario (Positivo)"
  else if curlVal <? - dec 1 10 then "Giro Horario (Negativo)"
  else "Sin Rotación".

End Fields.

End CurlLevel.

(** ** DerivativeVisualizer.tsx: the surfaces and their tangents *)

Module DerivativeVisualizer.

Section Surfaces.
Context {T : Type} `{Number T} `{Trig T}.
Local Open Scope js_scope.

(** An entry of [FUNCTIONS]. *)
Record Func : Type := mkFunc {
  f : T -> T -> T;
  df_dx : T -> T -> T;
  df_dy : T -> T -> T;
  range : T
}.

Definition waves : Func := {|
  f := fun x y => msin x + mcos y;
  df_dx := fun x y => mcos x;
  df_dy := fun x y => - msin y;
  range := dec 35 10
|}.

Definition bowl : Func := {|
  f := fun x y => (x * x + y * y) / ofZ 4;
  df_dx := fun x y => x / ofZ 2;
  df_dy := fun x y => y / ofZ 2;
  range := dec 35 10
|}.

Definition saddle : Func := {|
  f := fun x y => (x * x - y * y) / ofZ 4;
  df_dx := fun x y => x / ofZ 2;
  df_dy := fun x y => - y / ofZ 2;
  range := dec 35 10
|}.

Definition mult : Func := {|
  f := fun x y => (x * y) / ofZ 4;
  df_dx := fun x y => y / ofZ 4;
  df_dy := fun x y => x / ofZ 4;
  range := dec 35 10
|}.

Definition FUNCTIONS : list Func := [ waves; bowl; saddle; mult ].

(** [zVal], [slopeX] and [slopeY] *)
Definition zVal (activeFunc : Func) (position : P2.t T) : T :=
  f activeFunc (P2.x position) (P2.y position).
Definition slopeX (activeFunc : Func) (position : P2.t T) : T :=
  df_dx activeFunc (P2.x position) (P2.y position).
Definition slopeY (activeFunc : Func) (position : P2.t T) : T :=
  df_dy activeFunc (P2.x position) (P2.y position).

Definition tangentLength : T := dec 15 10.

(** The ends of the two tangent segments of [drawMain]. *)
Definition tX_start (activeFunc : Func) (position : P2.t T) : P3.t T :=
  {| P3.x := P2.x position - tangentLength;
     P3.y := zVal activeFunc position
             - slopeX activeFunc position * tangentLength;
     P3.z := P2.y position |}.
Definition tX_end (activeFunc : Func) (position : P2.t T) : P3.t T :=
  {| P3.x := P2.x position + tangentLength;
     P3.y := zVal activeFunc position
             + slopeX activeFunc position * tangentLength;
     P3.z := P2.y position |}.
Definition tY_start (activeFunc : Func) (position : P2.t T) : P3.t T :=
  {| P3.x := P2.x position;
     P3.y := zVal activeFunc position
             - slopeY activeFunc position * tangentLength;
     P3.z := P2.y position - tangentLength |}.
Definition tY_end (activeFunc : Func) (position : P2.t T) : P3.t T :=
  {| P3.x := P2.x position;
     P3.y := zVal activeFunc position
             + slopeY activeFunc position * tangentLength;
     P3.z := P2.y position + tangentLength |}.

End Surfaces.

End DerivativeVisualizer.

(** ** The DraggableWindow component (unnamed/part_002): dragging a
    window by its header *)

Module DraggableWindow.

Section Window.
Context {T : Type} `{Number T}.
Local Open Scope js_scope.

(** The [position] and [isDragging] cells and [dragStartRef]. *)
Record State : Type := mkState {
  position : P2.t T;
  isDragging : bool;
  dragStartRef : P2.t T
}.

(** What the handlers read from a mouse event and from [window]. *)
Record MouseEvent : Type := mkMouse {
  button : Z; clientX : T; clientY : T
}.
Record Window : Type := mkWindow { innerWidth : T; innerHeight : T }.

(** [handleHeaderMouseDown] *)
Definition handleHeaderMouseDown (e : MouseEvent) (s : State) : State :=
  if negb (button e =? 0)%Z then s
  else
    {| position := position s; isDragging := true;
       dragStartRef := {| P2.x := clientX e - P2.x (position s);
                          P2.y := clientY e - P2.y (position s) |} |}.

(** [handleMouseMove] *)
Definition handleMouseMove (win : Window) (e : MouseEvent) (s : State)
  : State :=
  if negb (isDragging s) then s
  else
    let newX := clientX e - P2.x (dragStartRef s) in
    let newY := clientY e - P2.y (dragStartRef s) in
    let maxX := innerWidth win - ofZ 50 in
    let maxY := innerHeight win - ofZ 50 in
    {| position := {| P2.x := mmin (mmax (- ofZ 100) newX) maxX;
                      P2.y := mmin (mmax (- ofZ 100) newY) maxY |};
       isDragging := isDragging s; dragStartRef := dragStartRef s |}.

(** [handleMouseUp] *)
Definition handleMouseUp (s : State) : State :=
  {| position := position s; isDragging := false;
     dragStartRef := dragStartRef s |}.

(** A run of [mousemove] events, each with the window size at its
    time. *)
Definition handleMouseMoves (moves : list (Window * MouseEvent))
    (s : State) : State :=
  fold_left (fun st we => handleMouseMove (fst we) (snd we) st) moves s.

End Window.

End DraggableWindow.

(** ** App.tsx: the level-to-level buttons *)

Module App.

(** [enum ViewState] *)
Inductive ViewState : Type :=
| HOME
| LEVEL_SELECT_LIN_ALG
| LEVEL_1_VECTOR
| VECTORS
| SCALAR_MULTIPLICATION
| LINE_EQUATION
| DOT_PRODUCT
| CROSS_PRODUCT
| MATRICES
| MATRIX_MULTIPLICATION
| EIGENVECTORS
| LEVEL_SELECT_CALCULUS
| DERIVATIVE_DEFINITION
| GRADIENT
| INTEGRAL
| ROTATIONAL
| COMING_SOON
| THEORY.

(** The view the [onNextLevel] prop passed by [renderView] switches to;
    [None] where the prop is not passed. *)
Definition onNextLevel (currentView : ViewState) : option ViewState :=
  match currentView with
  | LEVEL_1_VECTOR => Some VECTORS
  | VECTORS => Some SCALAR_MULTIPLICATION
  | SCALAR_MULTIPLICATION => Some LINE_EQUATION
  | LINE_EQUATION => Some DOT_PRODUCT
  | DOT_PRODUCT => Some CROSS_PRODUCT
  | CROSS_PRODUCT => Some MATRICES
  | MATRICES => Some MATRIX_MULTIPLICATION
  | MATRIX_MULTIPLICATION => Some EIGENVECTORS
  | DERIVATIVE_DEFINITION => Some INTEGRAL
  | INTEGRAL => Some GRADIENT
  | GRADIENT => Some ROTATIONAL
  | _ => None
  end.

(** The view the [onPrevLevel] prop switches to. *)
Definition onPrevLevel (currentView : ViewState) : option ViewState :=
  match currentView with
  | VECTORS => Some LEVEL_1_VECTOR
  | SCALAR_MULTIPLICATION => Some VECTORS
  | LINE_EQUATION => Some SCALAR_MULTIPLICATION
  | DOT_PRODUCT => Some LINE_EQUATION
  | CROSS_PRODUCT => Some DOT_PRODUCT
  | MATRICES => Some CROSS_PRODUCT
  | MATRIX_MULTIPLICATION => Some MATRICES
  | EIGENVECTORS => Some MATRIX_MULTIPLICATION
  | DERIVATIVE_DEFINITION => Some LEVEL_SELECT_CALCULUS
  | INTEGRAL => Some DERIVATIVE_DEFINITION
  | GRADIENT => Some INTEGRAL
  | ROTATIONAL => Some GRADIENT
  | _ => None
  end.

(** Pressing the next-level button [n] times. *)
Fixpoint forward (n : nat) (v : ViewState) : option ViewState :=
  match n with
  | O => Some v
  | S k => match onNextLevel v with
           | Some w => forward k w
           | None => None
           end
  end.

End App.

(** ** [Array.prototype.forEach] and [Array.prototype.sort]

    A callback may change the canvas it draws on and may throw; a throw
    leaves the canvas as it was at that point.  [forEach] calls the
    callback on the elements in order and has no handler of its own, so a
    throw ends it.  [sort] with a comparator is stable; insertion from
    the right is the stable sort, and [compare a b > 0] puts [b] first. *)

Inductive Outcome (C : Type) : Type :=
| Returned (c : C)
| Thrown (c : C).
Arguments Returned {C} c.
Arguments Thrown {C} c.

Fixpoint forEach {A C : Type} (call : A -> C -> Outcome C) (l : list A)
    (c : C) : Outcome C :=
  match l with
  | [] => Returned c
  | it :: rest =>
    match call it c with
    | Returned c' => forEach call rest c'
    | Thrown c' => Thrown c'
    end
  end.

Section Sort.
Context {T : Type} `{Number T} {A : Type}.
Variable compare : A -> A -> T.
Local Open Scope js_scope.

Fixpoint insert (it : A) (l : list A) : list A :=
  match l with
  | [] => [it]
  | y :: rest =>
    if compare it y >? ofZ 0 then y :: insert it rest else it :: y :: rest
  end.

Fixpoint sort (l : list A) : list A :=
  match l with
  | [] => []
  | it :: rest => insert it (sort rest)
  end.

End Sort.

(** ** MatrixTransformLevel.tsx: the 3D render list *)

Module MatrixTransformLevel.

Section RenderList.
Context {T : Type} `{Number T} `{Trig T}.
Local Open Scope js_scope.

(** [interface Matrix3x3], row-major. *)
Record Matrix3x3 : Type := mkMatrix3 {
  a : T; b : T; c : T;
  d : T; e : T; f : T;
  g : T; h : T; i : T
}.

(** The view cells [project] closes over; [camera] holds pitch in [x]
    and yaw in [y]. *)
Record View : Type := mkView {
  scale : T;
  pan : P2.t T;
  camera : P2.t T
}.

(** [transform3D]; every point of the 3D branch carries a [z], so
    [(p.z||0)] is [p.z]. *)
Definition transform3D (p : P3.t T) (m : Matrix3x3) : P3.t T :=
  {| P3.x := a m * P3.x p + b m * P3.y p + c m * P3.z p;
     P3.y := d m * P3.x p + e m * P3.y p + f m * P3.z p;
     P3.z := g m * P3.x p + h m * P3.y p + i m * P3.z p |}.

(** [project] *)
Definition project (vw : View) (p : P3.t T) (w h : T) : P3.t T :=
  let r := rotateY p (P2.y (camera vw)) in
  let r := rotateX r (P2.x (camera vw)) in
  {| P3.x := w / ofZ 2 + P2.x (pan vw) + P3.x r * scale vw;
     P3.y := h / ofZ 2 + P2.y (pan vw) - P3.y r * scale vw;
     P3.z := P3.z r |}.

(** What a [draw] closure of the render list puts on the canvas: the
    stroke of a line, an arrow with its label, or a filled face.  The
    canvas is the list of what has been painted, oldest first. *)
Inductive Paint : Type :=
| PaintLine (proj1 proj2 : P3.t T) (color : string) (width : T)
            (dashed : bool)
| PaintArrow (pOrigin pEnd : P3.t T) (color label : string)
| PaintFace (pts : list (P3.t T)) (detNonNegative : bool).

Definition Canvas : Type := list Paint.

Inductive ItemType : Type := LINE | ARROW | FACE.

(** [interface RenderItem { type; z; draw }] *)
Record RenderItem : Type := mkItem {
  type : ItemType;
  z : T;
  draw : Canvas -> Outcome Canvas
}.

(** The unbiased depth of a line or of a vector: [avgZ], the mean depth
    of the two projected ends. *)
Definition segmentDepth (m : Matrix3x3) (vw : View) (w h : T)
    (p1 p2 : P3.t T) : T :=
  let proj1 := project vw (transform3D p1 m) w h in
  let proj2 := project vw (transform3D p2 m) w h in
  (P3.z proj1 + P3.z proj2) / ofZ 2.

Definition origin : P3.t T :=
  {| P3.x := ofZ 0; P3.y := ofZ 0; P3.z := ofZ 0 |}.

(** The item [addLine] pushes. *)
Definition addLine (m : Matrix3x3) (vw : View) (w h : T)
    (p1 p2 : P3.t T) (color : string) (width : T) (dashed : bool)
  : RenderItem :=
  let proj1 := project vw (transform3D p1 m) w h in
  let proj2 := project vw (transform3D p2 m) w h in
  let avgZ := (P3.z proj1 + P3.z proj2) / ofZ 2 in
  {| type := LINE;
     z := avgZ;
     draw := fun ctx =>
       Returned (ctx ++ [PaintLine proj1 proj2 color width dashed]) |}.

(** The item [addVector] pushes. *)
Definition addVector (m : Matrix3x3) (vw : View) (w h : T)
    (v : P3.t T) (color label : string) : RenderItem :=
  let pOrigin := project vw (transform3D origin m) w h in
  let pEnd := project vw (transform3D v m) w h in
  let avgZ := (P3.z pOrigin + P3.z pEnd) / ofZ 2 in
  {| type := ARROW;
     z := avgZ - ofZ 100;
     draw := fun ctx =>
       Returned (ctx ++ [PaintArrow pOrigin pEnd color label]) |}.

(** [det3D] *)
Definition det3D (m : Matrix3x3) : T :=
  a m * (e m * i m - f m * h m) - b m * (d m * i m - f m * g m)
  + c m * (d m * h m - e m * g m).

(** The unbiased depth of a face: the mean depth of its four projected
    corners. *)
Definition faceDepth (pts : list (P3.t T)) : T :=
  fold_left (fun sum p => sum + P3.z p) pts (ofZ 0) / ofZ 4.

(** The item pushed for one face of the unit cube. *)
Definition addFace (m : Matrix3x3) (pts : list (P3.t T)) : RenderItem :=
  let avgZ := faceDepth pts in
  {| type := FACE;
     z := avgZ + ofZ 50;
     draw := fun ctx => Returned (ctx ++ [PaintFace pts (det3D m >=? ofZ 0)]) |}.

(** The grid coordinates [-limit .. limit] with [limit = 3]. *)
Definition lattice : list Z := [-3; -2; -1; 0; 1; 2; 3]%Z.

Definition axisColor (onAxis : bool) (axis : string) : string :=
  if onAxis then axis else "#1e293b".
Definition axisWidth (onAxis : bool) : T :=
  if onAxis then ofZ 2 else ofZ 1.

(** The three nests of loops that generate the grid lines. *)
Definition gridLines (m : Matrix3x3) (vw : View) (w h : T)
  : list RenderItem :=
  flat_map (fun y => map (fun z =>
      let on := ((y =? 0) && (z =? 0))%Z in
      addLine m vw w h
        {| P3.x := - ofZ 3; P3.y := ofZ y; P3.z := ofZ z |}
        {| P3.x := ofZ 3; P3.y := ofZ y; P3.z := ofZ z |}
        (axisColor on "#ef4444") (axisWidth on) false) lattice) lattice
  ++
  flat_map (fun x => map (fun z =>
      let on := ((x =? 0) && (z =? 0))%Z in
      addLine m vw w h
        {| P3.x := ofZ x; P3.y := - ofZ 3; P3.z := ofZ z |}
        {| P3.x := ofZ x; P3.y := ofZ 3; P3.z := ofZ z |}
        (axisColor on "#22c55e") (axisWidth on) false) lattice) lattice
  ++
  flat_map (fun x => map (fun y =>
      let on := ((x =? 0) && (y =? 0))%Z in
      addLine m vw w h
        {| P3.x := ofZ x; P3.y := ofZ y; P3.z := - ofZ 3 |}
        {| P3.x := ofZ x; P3.y := ofZ y; P3.z := ofZ 3 |}
        (axisColor on "#3b82f6") (axisWidth on) false) lattice) lattice.

(** The three basis vectors. *)
Definition basisVectors (m : Matrix3x3) (vw : View) (w h : T)
  : list RenderItem :=
  [ addVector m vw w h
      {| P3.x := ofZ 1; P3.y := ofZ 0; P3.z := ofZ 0 |} "#ef4444" "i";
    addVector m vw w h
      {| P3.x := ofZ 0; P3.y := ofZ 1; P3.z := ofZ 0 |} "#22c55e" "j";
    addVector m vw w h
      {| P3.x := ofZ 0; P3.y := ofZ 0; P3.z := ofZ 1 |} "#3b82f6" "k" ].

(** The corners of the unit cube and its six faces. *)
Definition corners : list (P3.t T) :=
  map (fun xyz : Z * Z * Z =>
         let '(x, y, z) := xyz in
         {| P3.x := ofZ x; P3.y := ofZ y; P3.z := ofZ z |})
      [ (0, 0, 0); (1, 0, 0); (1, 1, 0); (0, 1, 0);
        (0, 0, 1); (1, 0, 1); (1, 1, 1); (0, 1, 1) ]%Z.

Definition faces : list (list nat) :=
  [ [0; 1; 2; 3]; [4; 5; 6; 7]; [0; 4; 7; 3];
    [1; 5; 6; 2]; [0; 1; 5; 4]; [3; 2; 6; 7] ]%nat.

Definition cubeFaces (m : Matrix3x3) (vw : View) (w h : T)
  : list RenderItem :=
  let tCorners := map (fun p => project vw (transform3D p m) w h) corners in
  map (fun faceIndices =>
         addFace m (map (fun i => nth i tCorners origin) faceIndices))
      faces.

(** [renderList] as the 3D branch of [draw] has filled it before the
    sort: the grid lines, the basis vectors, the cube faces. *)
Definition renderList (m : Matrix3x3) (vw : View) (w h : T)
  : list RenderItem :=
  gridLines m vw w h ++ basisVectors m vw w h ++ cubeFaces m vw w h.

(** The comparator [(a, b) => b.z - a.z]. *)
Definition byDepth (a b : RenderItem) : T := z b - z a.

(** [renderList.sort(...)], then [renderList.forEach(item => item.draw())]. *)
Definition flush (items : list RenderItem) (ctx : Canvas) : Outcome Canvas :=
  forEach draw (sort byDepth items) ctx.

Definition draw3D (m : Matrix3x3) (vw : View) (w h : T) (ctx : Canvas)
  : Outcome Canvas :=
  flush (renderList m vw w h) ctx.

(** An item whose callback paints [p] and returns. *)
Definition paints (it : RenderItem) (p : Paint) : Prop :=
  forall ctx, draw it ctx = Returned (ctx ++ [p]).

(** The failure semantics the specification asks of the render queue:
    whatever the other callbacks of the frame do, the paint of every
    callback that paints and returns ends up on the canvas. *)
Definition isolates_failures : Prop :=
  forall (items : list RenderItem) (ctx : Canvas)
         (it : RenderItem) (p : Paint),
    In it items -> paints it p ->
    exists ctx', (flush items ctx = Returned ctx' \/
                  flush items ctx = Thrown ctx') /\ In p ctx'.

(** In the list [l], every occurrence of [first] comes before every
    occurrence of [later]. *)
Definition precedes (first later : RenderItem) (l : list RenderItem) : Prop :=
  forall l1 l2, l = l1 ++ later :: l2 -> In first l1 /\ ~ In first l2.

End RenderList.

Section Handlers.
Context {T : Type} `{Number T}.
Local Open Scope js_scope.

Inductive Drag : Type := PAN | ORBIT.

(** The view cells, the [dragging] cell and the [lastMouse] ref. *)
Record Pointer : Type := mkPointer {
  view : View (T:=T);
  dragging : option Drag;
  lastMouse : P2.t T
}.

Record MouseEvent : Type := mkMouse { clientX : T; clientY : T }.

(** The initial values of [scale], [pan] and [camera]. *)
Definition initialView : View (T:=T) :=
  {| scale := ofZ 30;
     pan := {| P2.x := ofZ 0; P2.y := ofZ 0 |};
     camera := {| P2.x := - dec 4 10; P2.y := dec 6 10 |} |}.

(** [handleMouseDown] *)
Definition handleMouseDown (is3D : bool) (e : MouseEvent) (s : Pointer)
  : Pointer :=
  {| view := view s;
     dragging := Some (if is3D then ORBIT else PAN);
     lastMouse := {| P2.x := clientX e; P2.y := clientY e |} |}.

(** [handleMouseMove] *)
Definition handleMouseMove (e : MouseEvent) (s : Pointer) : Pointer :=
  match dragging s with
  | None => s
  | Some mode =>
    let dx := clientX e - P2.x (lastMouse s) in
    let dy := clientY e - P2.y (lastMouse s) in
    let last := {| P2.x := clientX e; P2.y := clientY e |} in
    match mode with
    | PAN =>
      {| view := {| scale := scale (view s);
                    pan := {| P2.x := P2.x (pan (view s)) + dx;
                              P2.y := P2.y (pan (view s)) + dy |};
                    camera := camera (view s) |};
         dragging := dragging s; lastMouse := last |}
    | ORBIT =>
      {| view := {| scale := scale (view s);
                    pan := pan (view s);
                    camera :=
                      {| P2.x := P2.x (camera (view s)) + dy * dec 1 100;
                         P2.y := P2.y (camera (view s)) + dx * dec 1 100 |} |};
         dragging := dragging s; lastMouse := last |}
    end
  end.

(** [handleMouseUp] *)
Definition handleMouseUp (s : Pointer) : Pointer :=
  {| view := view s; dragging := None; lastMouse := lastMouse s |}.

End Handlers.

End MatrixTransformLevel.

(** ** Numeric text fields

    [parseFloat] is the engine's: it skips leading white space, reads the
    longest prefix that is a decimal literal (sign, digits, fraction,
    exponent) and answers NaN when there is none.  NaN is [None] here.
    The literal [Infinity] is not a real number and is left out. *)

Section ParseFloat.

Definition isDigit (ch : ascii) : bool :=
  (48 <=? nat_of_ascii ch)%nat && (nat_of_ascii ch <=? 57)%nat.

Definition digitValue (ch : ascii) : Z := Z.of_nat (nat_of_ascii ch - 48).

Definition isWhiteSpace (ch : ascii) : bool :=
  let n := nat_of_ascii ch in
  ((9 <=? n)%nat && (n <=? 13)%nat) || (n =? 32)%nat.

Fixpoint trimStart (s : string) : string :=
  match s with
  | String ch rest => if isWhiteSpace ch then trimStart rest else s
  | EmptyString => s
  end.

(** The longest run of digits at the head of [s], appended to the
    mantissa [m]; [n] counts the digits read. *)
Fixpoint readDigits (s : string) (m : Z) (n : nat) : Z * nat * string :=
  match s with
  | String ch rest =>
    if isDigit ch then readDigits rest (10 * m + digitValue ch) (S n)
    else (m, n, s)
  | EmptyString => (m, n, s)
  end.

Definition readSign (s : string) : bool * string :=
  match s with
  | String "-" rest => (true, rest)
  | String "+" rest => (false, rest)
  | _ => (false, s)
  end.

(** The exponent part, 0 when there is none or it has no digit. *)
Definition readExponent (s : string) : Z :=
  match s with
  | String ch rest =>
    if (ch =? "e")%char || (ch =? "E")%char then
      let '(negative, rest) := readSign rest in
      let '(e, n, _) := readDigits rest 0 0 in
      if (n =? 0)%nat then 0 else if negative then - e else e
    else 0
  | EmptyString => 0
  end%Z.

(** A decimal literal: its sign, and [mantissa * 10 ^ exponent]. *)
Record Decimal : Type := mkDecimal {
  negative : bool;
  mantissa : Z;
  exponent : Z
}.

Definition parseDecimal (val : string) : option Decimal :=
  let '(neg, s) := readSign (trimStart val) in
  let '(m1, n1, s) := readDigits s 0 0 in
  let '(m2, n2, s) :=
    match s with
    | String "." rest => readDigits rest m1 0
    | _ => (m1, 0%nat, s)
    end in
  if (n1 + n2 =? 0)%nat then None
  else Some {| negative := neg; mantissa := m2;
               exponent := readExponent s - Z.of_nat n2 |}.

Context {T : Type} `{Number T}.
Local Open Scope js_scope.

Definition decimalValue (dl : Decimal) : T :=
  let v := if (0 <=? exponent dl)%Z
           then ofZ (mantissa dl * 10 ^ exponent dl)
           else ofZ (mantissa dl) / ofZ (10 ^ (- exponent dl)) in
  if negative dl then - v else v.

Definition parseFloat (val : string) : option T :=
  option_map decimalValue (parseDecimal val).

(** [parseFloat(val) || 0]: NaN and zero are falsy. *)
Definition parseFloatOrZero (val : string) : T :=
  match parseFloat val with
  | Some num => if (num <? ofZ 0) || (ofZ 0 <? num) then num else ofZ 0
  | None => ofZ 0
  end.

End ParseFloat.

(** ** MatrixTransform.tsx: [updateMatrix] *)

Module MatrixTransform.

Section Fields.
Context {T : Type} `{Number T}.
Import MatrixMultiplicationLevel.

(** [keyof Matrix2x2]; the matrix is the [{ a, b, c, d }] record. *)
Inductive Key : Type := Ka | Kb | Kc | Kd.

(** [{ ...prev, [key]: num }] *)
Definition setKey (prev : Matrix2x2) (key : Key) (num : T) : Matrix2x2 :=
  match key with
  | Ka => {| a := num; b := b prev; c := c prev; d := d prev |}
  | Kb => {| a := a prev; b := num; c := c prev; d := d prev |}
  | Kc => {| a := a prev; b := b prev; c := num; d := d prev |}
  | Kd => {| a := a prev; b := b prev; c := c prev; d := num |}
  end.

Definition getKey (m : Matrix2x2) (key : Key) : T :=
  match key with
  | Ka => a m | Kb => b m | Kc => c m | Kd => d m
  end.

(** [updateMatrix], as a function of the [matrix] cell. *)
Definition updateMatrix (key : Key) (val : string) (matrix : Matrix2x2)
  : Matrix2x2 :=
  match parseFloat val with
  | Some num => setKey matrix key num
  | None => matrix
  end.

Local Open Scope js_scope.

(** [transform], as a function of the [matrix] cell. *)
Definition transform (matrix : Matrix2x2) (p : P2.t T) : P2.t T :=
  {| P2.x := a matrix * P2.x p + b matrix * P2.y p;
     P2.y := c matrix * P2.x p + d matrix * P2.y p |}.

(** [det] *)
Definition det (matrix : Matrix2x2) : T :=
  (a matrix * d matrix) - (b matrix * c matrix).

Definition VIEW_SCALE : T := ofZ 15.
Definition CANVAS_SIZE : T := ofZ 400.
Definition CENTER : T := CANVAS_SIZE / ofZ 2.

(** [toSvg] *)
Definition toSvg (p : P2.t T) : P2.t T :=
  {| P2.x := CENTER + P2.x p * VIEW_SCALE;
     P2.y := CENTER - P2.y p * VIEW_SCALE |}.

(** The text shown under the determinant: [det === 0]. *)
Definition collapsed (matrix : Matrix2x2) : bool :=
  (det matrix <=? ofZ 0) && (ofZ 0 <=? det matrix).

End Fields.

End MatrixTransform.

(** ** MatrixTransformLevel.tsx: the animation towards the target *)

Module MatrixTransformAnimation.

Section Animation.
Context {T : Type} `{Number T}.
Import MatrixMultiplicationLevel.
Local Open Scope js_scope.

(** [lerp] in [animate] *)
Definition lerp (start end_ : T) : T := start + (end_ - start) * dec 1 10.

(** The cells of the 2D branch. *)
Record Cells2D : Type := mkCells2D {
  targetMatrix2D : Matrix2x2 (T:=T);
  currentMatrix2D : Matrix2x2 (T:=T);
  animating : bool
}.

(** [diff] in the 2D branch. *)
Definition diff2D (next target : Matrix2x2) : T :=
  mabs (a next - a target) + mabs (b next - b target)
  + mabs (c next - c target) + mabs (d next - d target).

(** One call of [animate] with [is3D] false. *)
Definition animate (s : Cells2D) : Cells2D :=
  if animating s then
    let prev := currentMatrix2D s in
    let target := targetMatrix2D s in
    let next := {| a := lerp (a prev) (a target);
                   b := lerp (b prev) (b target);
                   c := lerp (c prev) (c target);
                   d := lerp (d prev) (d target) |} in
    if diff2D next target <? dec 5 1000 then
      {| targetMatrix2D := target; currentMatrix2D := target;
         animating := false |}
    else
      {| targetMatrix2D := target; currentMatrix2D := next;
         animating := animating s |}
  else s.

Fixpoint animates (n : nat) (s : Cells2D) : Cells2D :=
  match n with
  | O => s
  | S k => animates k (animate s)
  end.

(** [setPreset] with [is3D] false. *)
Definition setPreset (type : string) (s : Cells2D) : Cells2D :=
  let target (m : Matrix2x2) :=
    {| targetMatrix2D := m; currentMatrix2D := currentMatrix2D s;
       animating := true |} in
  if String.eqb type "IDENTITY" then
    target {| a := ofZ 1; b := ofZ 0; c := ofZ 0; d := ofZ 1 |}
  else if String.eqb type "SHEAR" then
    target {| a := ofZ 1; b := ofZ 1; c := ofZ 0; d := ofZ 1 |}
  else if String.eqb type "ROTATE" then
    target {| a := ofZ 0; b := - ofZ 1; c := ofZ 1; d := ofZ 0 |}
  else if String.eqb type "SCALE" then
    target {| a := ofZ 2; b := ofZ 0; c := ofZ 0; d := ofZ 2 |}
  else if String.eqb type "REFLECT" then
    target {| a := - ofZ 1; b := ofZ 0; c := ofZ 0; d := ofZ 1 |}
  else if String.eqb type "COLLAPSE" then
    target {| a := ofZ 1; b := ofZ 1; c := ofZ 1; d := ofZ 1 |}
  else
    {| targetMatrix2D := targetMatrix2D s;
       currentMatrix2D := currentMatrix2D s; animating := true |}.

(** [transform2D] *)
Definition transform2D (p : P2.t T) (m : Matrix2x2) : P2.t T :=
  {| P2.x := a m * P2.x p + b m * P2.y p;
     P2.y := c m * P2.x p + d m * P2.y p |}.

(** [det] in [draw], the label of the shaded area. *)
Definition det (currentMatrix2D : Matrix2x2) : T :=
  a currentMatrix2D * d currentMatrix2D
  - b currentMatrix2D * c currentMatrix2D.

(** [update2D] *)
Definition update2D (key : MatrixTransform.Key) (val : string)
    (s : Cells2D) : Cells2D :=
  {| targetMatrix2D :=
       MatrixTransform.setKey (targetMatrix2D s) key (parseFloatOrZero val);
     currentMatrix2D := currentMatrix2D s;
     animating := true |}.

End Animation.

Section Animation3D.
Context {T : Type} `{Number T}.
Import MatrixTransformLevel.
Local Open Scope js_scope.

(** The cells of the 3D branch; [animating3D] is the same [animating]
    cell, read by the 3D branch. *)
Record Cells3D : Type := mkCells3D {
  targetMatrix3D : Matrix3x3 (T:=T);
  currentMatrix3D : Matrix3x3 (T:=T);
  animating3D : bool
}.

(** [diff] in the 3D branch. *)
Definition diff3D (next target : Matrix3x3) : T :=
  mabs (a next - a target) + mabs (b next - b target)
  + mabs (c next - c target)
  + mabs (d next - d target) + mabs (e next - e target)
  + mabs (f next - f target)
  + mabs (g next - g target) + mabs (h next - h target)
  + mabs (i next - i target).

(** One call of [animate] with [is3D] true. *)
Definition animate3D (s : Cells3D) : Cells3D :=
  if animating3D s then
    let prev := currentMatrix3D s in
    let target := targetMatrix3D s in
    let next := {| a := lerp (a prev) (a target);
                   b := lerp (b prev) (b target);
                   c := lerp (c prev) (c target);
                   d := lerp (d prev) (d target);
                   e := lerp (e prev) (e target);
                   f := lerp (f prev) (f target);
                   g := lerp (g prev) (g target);
                   h := lerp (h prev) (h target);
                   i := lerp (i prev) (i target) |} in
    if diff3D next target <? dec 5 1000 then
      {| targetMatrix3D := target; currentMatrix3D := target;
         animating3D := false |}
    else
      {| targetMatrix3D := target; currentMatrix3D := next;
         animating3D := animating3D s |}
  else s.

Fixpoint animates3D (n : nat) (s : Cells3D) : Cells3D :=
  match n with
  | O => s
  | S k => animates3D k (animate3D s)
  end.

(** The 3D identity, the initial value of both matrix cells. *)
Definition identity3D : Matrix3x3 (T:=T) :=
  {| a := ofZ 1; b := ofZ 0; c := ofZ 0;
     d := ofZ 0; e := ofZ 1; f := ofZ 0;
     g := ofZ 0; h := ofZ 0; i := ofZ 1 |}.

(** [update3D] on the cell [i], the z entry of the third column. *)
Definition update3D_i (val : string) (s : Cells3D) : Cells3D :=
  let prev := targetMatrix3D s in
  {| targetMatrix3D :=
       {| a := a prev; b := b prev; c := c prev;
          d := d prev; e := e prev; f := f prev;
          g := g prev; h := h prev; i := parseFloatOrZero val |};
     currentMatrix3D := currentMatrix3D s;
     animating3D := true |}.

End Animation3D.

End MatrixTransformAnimation.

(** ** [ColumnVector.handleChange]

    The same handler in VectorPlayground.tsx and in the DotProductLevel of
    GradientDescent.tsx. *)

Module ColumnVector.

Section Fields.
Context {T : Type} `{Number T}.

(** [keyof Vector3] *)
Inductive Axis : Type := AxisX | AxisY | AxisZ.

(** [{ ...vec, [axis]: num }] *)
Definition setAxis (vec : P3.t T) (axis : Axis) (num : T) : P3.t T :=
  match axis with
  | AxisX => {| P3.x := num; P3.y := P3.y vec; P3.z := P3.z vec |}
  | AxisY => {| P3.x := P3.x vec; P3.y := num; P3.z := P3.z vec |}
  | AxisZ => {| P3.x := P3.x vec; P3.y := P3.y vec; P3.z := num |}
  end.

Definition getAxis (vec : P3.t T) (axis : Axis) : T :=
  match axis with
  | AxisX => P3.x vec | AxisY => P3.y vec | AxisZ => P3.z vec
  end.

(** [handleChange]: the vector handed to [onChange]. *)
Definition handleChange (vec : P3.t T) (axis : Axis) (val : string)
  : P3.t T :=
  setAxis vec axis (parseFloatOrZero val).

End Fields.

End ColumnVector.

(** The model rule of the specification for a numeric text field: text
    that does not parse leaves the bound value as it was. *)
Definition retains_last_good {T : Type} `{Number T} : Prop :=
  forall (val : string), parseFloat (T:=T) val = None ->
    (forall key matrix,
       MatrixTransform.updateMatrix key val matrix = matrix) /\
    (forall vec axis,
       ColumnVector.handleChange vec axis val = vec).

(** ** Invariants used in the proofs *)

(** [Math.cos] and [Math.sin] as far as a camera at pitch 0 and yaw 0
    needs them: ECMAScript fixes [Math.cos(+0) = 1] and
    [Math.sin(+0) = +0]; at another angle this stand-in answers NaN. *)
Definition levelTrig : Trig float :=
  {| mcos := fun angle =>
       if PrimFloat.eqb angle 0%float then 1%float else PrimFloat.nan;
     msin := fun angle =>
       if PrimFloat.eqb angle 0%float then 0%float else PrimFloat.nan |}.

(** The trajectory of the bowl scenario over the reals: after [k] accepted
    steps the stepper is still running, has counted [k] iterations and
    the probe is at [3 * (19/20)^k] on both axes. *)
Definition on_track (k : nat) (s : GradientDescent.Algo (T:=R)) : Prop :=
  GradientDescent.isRunning s = true /\
  GradientDescent.iteration s = k /\
  P2.x (GradientDescent.position s) = (3 * (19 / 20) ^ k)%R /\
  P2.y (GradientDescent.position s) = (3 * (19 / 20) ^ k)%R.

(** Unfolding the gradient-descent fields and functions. *)
Ltac unGD :=
  cbv [GradientDescent.nextX GradientDescent.nextY GradientDescent.dist
       GradientDescent.bowl GradientDescent.f GradientDescent.df_dx
       GradientDescent.df_dy GradientDescent.start
       GradientDescent.position GradientDescent.path
       GradientDescent.iteration GradientDescent.isRunning
       GradientDescent.started P2.x P2.y] in *.

(** The animator over the reals, [j] ticks into step [i] of queue [q] with
    accumulated total [A]. *)
Definition in_step (q : list (MatrixMultiplicationLevel.TransformationStep (T:=R)))
    (i : nat) (A : MatrixMultiplicationLevel.Matrix2x2 (T:=R)) (j : nat)
    (s : MatrixMultiplicationLevel.Anim (T:=R)) : Prop :=
  MatrixMultiplicationLevel.queue s = q /\
  MatrixMultiplicationLevel.isAnimating s = true /\
  MatrixMultiplicationLevel.stepIndex s = i /\
  MatrixMultiplicationLevel.accumulatedMatrix s = A /\
  MatrixMultiplicationLevel.progress s = (INR j / 50)%R.

(** Furthest first: no later item is deeper than an earlier one. *)
Definition furthest_first (a b : MatrixTransformLevel.RenderItem (T:=R))
  : Prop :=
  (MatrixTransformLevel.z b <= MatrixTransformLevel.z a)%R.

(** In the list [l], no occurrence of [first] comes after an occurrence
    of [later]. *)
Fixpoint never_after (first later : MatrixTransformLevel.RenderItem (T:=R))
    (l : list MatrixTransformLevel.RenderItem) : Prop :=
  match l with
  | [] => True
  | y :: rest => (y = later -> ~ In first rest) /\ never_after first later rest
  end.

(** * Properties *)

(** ** The number instances *)

(** The helper [dec] yields the binary64 value of the decimal literal. *)
Example dec_float_literals :
  dec (T:=float) 1 1000 = 0.001%float /\
  dec (T:=float) 1 10 = 0.1%float /\
  dec (T:=float) 2 100 = 0.02%float.
Proof. repeat split; reflexivity. Qed.

Lemma ltb_R_true (a b : R) : (a <? b)%js = true <-> (a < b)%R.
Proof. unR. destruct (Rlt_dec a b); split; intros; try discriminate; tauto. Qed.

Lemma ltb_R_false (a b : R) : (a <? b)%js = false <-> (b <= a)%R.
Proof.
  unR. destruct (Rlt_dec a b); split; intros; try discriminate;
    try reflexivity; lra.
Qed.

Lemma leb_R_true (a b : R) : (a <=? b)%js = true <-> (a <= b)%R.
Proof. unR. destruct (Rle_dec a b); split; intros; try discriminate; tauto. Qed.

Lemma leb_R_false (a b : R) : (a <=? b)%js = false <-> (b < a)%R.
Proof.
  unR. destruct (Rle_dec a b); split; intros; try discriminate;
    try reflexivity; lra.
Qed.

(** Comparing a square root with a positive bound is comparing squares. *)
Lemma sqrt_lt_bound (a b : R) :
  (0 <= a)%R -> (0 < b)%R -> (sqrt a < b <-> a < b * b)%R.
Proof.
  intros Ha Hb. split; intro Hlt.
  - apply sqrt_lt_0_alt. rewrite sqrt_square by lra. exact Hlt.
  - rewrite <- (sqrt_square b) by lra. apply sqrt_lt_1_alt. lra.
Qed.

Lemma sqrt_gt_bound (a b : R) :
  (0 <= a)%R -> (0 <= b)%R -> (b < sqrt a <-> b * b < a)%R.
Proof.
  intros Ha Hb. split; intro Hlt.
  - apply sqrt_lt_0_alt. rewrite sqrt_square by lra. exact Hlt.
  - rewrite <- (sqrt_square b) by lra. apply sqrt_lt_1_alt. nra.
Qed.

Lemma Rabs_le_between (a b : R) : (Rabs a <= b)%R -> (- b <= a <= b)%R.
Proof. unfold Rabs. destruct (Rcase_abs a); lra. Qed.

Lemma pow_le_antitone (q : R) (m n : nat) :
  (0 <= q <= 1)%R -> (m <= n)%nat -> (q ^ n <= q ^ m)%R.
Proof.
  intros Hq Hmn. induction Hmn as [|n Hmn IH]; [ lra | ].
  simpl. assert (0 <= q ^ n)%R by (apply pow_le; lra). nra.
Qed.

Lemma forallb_below (P : nat -> bool) (n : nat) :
  forallb P (seq 0 n) = true -> forall k, (k < n)%nat -> P k = true.
Proof.
  intros H k Hk. rewrite forallb_forall in H. apply H.
  apply in_seq. lia.
Qed.

(** ** Gradient descent *)

Section GradientDescentFacts.
Import GradientDescent.
Local Open Scope js_scope.

(** C1.  One call of [step], for any field with its two partials and any
    learning rate: the candidate is [x - a * df_dx x y],
    [y - a * df_dy x y]; its displacement is the Euclidean distance from
    the old position; when the displacement is below [0.001] or above
    [10] the call only clears [isRunning]; otherwise the pre-step point
    [(x, f x y, y)] is appended to [path], the iteration count grows by
    one and the candidate becomes the position. *)
Theorem step_spec {T : Type} `{Number T}
    (activeFunc : Func) (learningRate : T) (s : Algo) :
  let prev := position s in
  let x' := P2.x prev
            - learningRate * df_dx activeFunc (P2.x prev) (P2.y prev) in
  let y' := P2.y prev
            - learningRate * df_dy activeFunc (P2.x prev) (P2.y prev) in
  let d := msqrt (sq (x' - P2.x prev) + sq (y' - P2.y prev)) in
  ((d <? dec 1 1000) = true \/ (d >? ofZ 10) = true ->
     isRunning (step activeFunc learningRate s) = false /\
     position (step activeFunc learningRate s) = prev /\
     path (step activeFunc learningRate s) = path s /\
     iteration (step activeFunc learningRate s) = iteration s)
  /\
  ((d <? dec 1 1000) = false -> (d >? ofZ 10) = false ->
     position (step activeFunc learningRate s)
       = {| P2.x := x'; P2.y := y' |} /\
     path (step activeFunc learningRate s)
       = path s ++ [ {| P3.x := P2.x prev;
                        P3.y := f activeFunc (P2.x prev) (P2.y prev);
                        P3.z := P2.y prev |} ] /\
     iteration (step activeFunc learningRate s) = (iteration s + 1)%nat /\
     isRunning (step activeFunc learningRate s) = isRunning s).
Proof.
  intros prev x' y' d. unfold step.
  fold prev. change (dist activeFunc learningRate prev) with d.
  split.
  - intros Hstop.
    assert (Hc : (d <? dec 1 1000) || (d >? ofZ 10) = true)
      by (apply orb_true_iff; exact Hstop).
    cbv zeta. rewrite Hc. cbn. auto.
  - intros Hlo Hhi. cbv zeta. rewrite Hlo, Hhi. cbn. auto.
Qed.

(** [step_spec] on binary64: from the bowl's start the first step is
    accepted and lands on [(2.85, 2.85)]; at the origin the displacement
    is zero and the stepper stops. *)
Lemma step_spec_witness :
  (position (step bowl (dec 1 10) (started (T:=float) bowl))
     = {| P2.x := 2.85%float; P2.y := 2.85%float |} /\
   path (step bowl (dec 1 10) (started (T:=float) bowl))
     = [ {| P3.x := 3%float; P3.y := 4.5%float; P3.z := 3%float |} ]) /\
  isRunning (step bowl (dec 1 10)
               {| position := {| P2.x := 0%float; P2.y := 0%float |};
                  path := []; iteration := 0; isRunning := true |}) = false.
Proof.
  split.
  - destruct (proj2 (step_spec bowl (dec 1 10) (started (T:=float) bowl)))
      as (Hpos & Hpath & _); [ reflexivity | reflexivity | ].
    split; [ exact Hpos | exact Hpath ].
  - apply (proj1 (step_spec bowl (dec 1 10)
               {| position := {| P2.x := 0%float; P2.y := 0%float |};
                  path := []; iteration := 0; isRunning := true |})).
    left. reflexivity.
Defined.

Lemma ticks_succ {T} `{Number T} (n : nat) (fn : Func) (lr : T) (s : Algo) :
  ticks (S n) fn lr s = tick fn lr (ticks n fn lr s).
Proof.
  revert s. induction n as [|n IH]; intro s; [ reflexivity | ].
  change (ticks (S (S n)) fn lr s) with (ticks (S n) fn lr (tick fn lr s)).
  rewrite IH. reflexivity.
Qed.

Local Open Scope R_scope.

(** On the bowl with learning rate [0.1] the candidate is the position
    scaled by [19/20], and the displacement is a twentieth of the
    position's norm. *)
Lemma bowl_nextX (p : P2.t R) : nextX bowl (dec 1 10) p = 19 / 20 * P2.x p.
Proof. unGD. unR. lra. Qed.

Lemma bowl_nextY (p : P2.t R) : nextY bowl (dec 1 10) p = 19 / 20 * P2.y p.
Proof. unGD. unR. lra. Qed.

Lemma bowl_dist (p : P2.t R) :
  dist bowl (dec 1 10) p
    = sqrt ((P2.x p * P2.x p + P2.y p * P2.y p) / 400).
Proof.
  unfold dist. rewrite bowl_nextX, bowl_nextY. unR. f_equal. lra.
Qed.

Lemma on_track_dist (k : nat) (s : Algo (T:=R)) :
  on_track k s ->
  dist bowl (dec 1 10) (position s)
    = sqrt (9 / 200 * ((19 / 20) ^ k * (19 / 20) ^ k)).
Proof.
  intros (_ & _ & Hx & Hy). rewrite bowl_dist, Hx, Hy. f_equal. lra.
Qed.

Lemma on_track_far (k : nat) (s : Algo (T:=R)) :
  on_track k s -> (k < 105)%nat ->
  (dist bowl (dec 1 10) (position s) <? dec 1 1000)%js = false /\
  (dist bowl (dec 1 10) (position s) >? ofZ 10)%js = false.
Proof.
  intros Ht Hk. rewrite (on_track_dist Ht).
  assert (Hq : 0 < (19 / 20) ^ k) by (apply pow_lt; lra).
  assert (Hlow : (19 / 20) ^ 104 <= (19 / 20) ^ k)
    by (apply pow_le_antitone; [ lra | lia ]).
  assert (Hup : (19 / 20) ^ k <= 1).
  { replace 1 with ((19 / 20) ^ 0) by reflexivity.
    apply pow_le_antitone; [ lra | lia ]. }
  assert (H104 : 4715 / 1000000 < (19 / 20) ^ 104) by lra.
  split.
  - apply ltb_R_false. unR.
    apply Rnot_lt_le. intro Hlt.
    apply sqrt_lt_bound in Hlt; [ | nra | lra ]. nra.
  - apply ltb_R_false. unR.
    apply Rnot_lt_le. intro Hlt.
    apply sqrt_gt_bound in Hlt; [ | nra | lra ]. nra.
Qed.

Lemma on_track_step (k : nat) (s : Algo (T:=R)) :
  on_track k s -> (k < 105)%nat ->
  on_track (S k) (tick bowl (dec 1 10) s).
Proof.
  intros Ht Hk. destruct (on_track_far Ht Hk) as [Hlo Hhi].
  destruct Ht as (Hrun & Hit & Hx & Hy).
  unfold tick. rewrite Hrun. unfold step. cbv zeta. rewrite Hlo, Hhi.
  cbn [orb]. unfold on_track. cbn [isRunning iteration position P2.x P2.y].
  rewrite bowl_nextX, bowl_nextY, Hx, Hy, Hrun, Hit.
  repeat split; try lia; simpl; lra.
Qed.

Lemma on_track_ticks (k : nat) :
  (k <= 105)%nat ->
  on_track k (ticks k bowl (dec 1 10) (started (T:=R) bowl)).
Proof.
  induction k as [|k IH]; intro Hk.
  - unfold on_track. cbn. unR. repeat split; lra.
  - rewrite ticks_succ. apply on_track_step; [ apply IH | ]; lia.
Qed.

Lemma on_track_descends (k : nat) (s : Algo (T:=R)) :
  on_track k s -> (k < 105)%nat ->
  let s' := tick bowl (dec 1 10) s in
  (f bowl (P2.x (position s')) (P2.y (position s'))
     <? f bowl (P2.x (position s)) (P2.y (position s)))%js = true.
Proof.
  intros Ht Hk s'. pose proof (on_track_step Ht Hk) as Ht'. fold s' in Ht'.
  destruct Ht as (_ & _ & Hx & Hy). destruct Ht' as (_ & _ & Hx' & Hy').
  apply ltb_R_true. rewrite Hx, Hy, Hx', Hy'. unGD. unR.
  assert (Hq : 0 < (19 / 20) ^ k) by (apply pow_lt; lra).
  simpl. nra.
Qed.

Lemma on_track_halts (s : Algo (T:=R)) :
  on_track 105 s ->
  let s' := tick bowl (dec 1 10) s in
  (dist bowl (dec 1 10) (position s) <? dec 1 1000)%js = true /\
  isRunning s' = false /\ position s' = position s /\
  iteration s' = 105%nat.
Proof.
  intros Ht s'.
  assert (Hd : (dist bowl (dec 1 10) (position s) <? dec 1 1000)%js = true).
  { rewrite (on_track_dist Ht). apply ltb_R_true. unR.
    apply sqrt_lt_bound; [ | lra | lra ].
    assert (0 < (19 / 20) ^ 105) by (apply pow_lt; lra). nra. }
  destruct Ht as (Hrun & Hit & _ & _).
  split; [ exact Hd | ].
  unfold s', tick. rewrite Hrun. unfold step. cbv zeta. rewrite Hd.
  cbn [orb isRunning position iteration].
  split; [ reflexivity | ]. split; [ reflexivity | exact Hit ].
Qed.

(** The scenario over the reals: 105 accepted steps, each lowering [f],
    then the stop on the [0.001] threshold. *)
Lemma bowl_scenario_R : bowl_scenario (T:=R) 105.
Proof.
  unfold bowl_scenario. cbv zeta. split.
  - intros k Hk.
    pose proof (@on_track_ticks k ltac:(lia)) as Ht.
    revert Ht. generalize (ticks k bowl (dec 1 10) (started (T:=R) bowl)).
    intros s Ht.
    destruct (on_track_far Ht Hk) as [Hlo Hhi].
    pose proof (on_track_step Ht Hk) as (_ & Hit' & _ & _).
    pose proof (on_track_descends Ht Hk) as Hdesc.
    destruct Ht as (Hrun & _).
    repeat split; assumption.
  - pose proof (@on_track_ticks 105 ltac:(lia)) as Ht.
    revert Ht. generalize (ticks 105 bowl (dec 1 10) (started (T:=R) bowl)).
    intros s Ht.
    destruct (on_track_halts Ht) as (Hd & Hstop & Hpos & Hit).
    destruct Ht as (Hrun & _).
    repeat split; assumption.
Qed.

(** The same scenario run in binary64: the engine's arithmetic takes the
    same 105 accepted steps. *)
Lemma bowl_scenario_float : bowl_scenario (T:=float) 105.
Proof.
  unfold bowl_scenario. cbv zeta. split.
  - intros k Hk.
    pose (P := fun k =>
      let s := ticks k bowl (dec 1 10) (started (T:=float) bowl) in
      let s' := tick bowl (dec 1 10) s in
      isRunning s
      && negb (dist bowl (dec 1 10) (position s) <? dec 1 1000)%js
      && negb (dist bowl (dec 1 10) (position s) >? ofZ 10)%js
      && Nat.eqb (iteration s') (S k)
      && (f bowl (P2.x (position s')) (P2.y (position s'))
            <? f bowl (P2.x (position s)) (P2.y (position s)))%js).
    assert (HP : P k = true).
    { apply (@forallb_below P 105); [ vm_compute; reflexivity | exact Hk ]. }
    unfold P in HP. cbv zeta in HP.
    repeat (apply andb_true_iff in HP; destruct HP as [HP ?]).
    repeat split; try assumption.
    + apply negb_true_iff; assumption.
    + apply negb_true_iff; assumption.
    + apply Nat.eqb_eq; assumption.
  - vm_compute. repeat split.
Qed.

(** C2.  Gradient descent on the bowl [f(x,y) = (x^2 + y^2)/4] from
    [(3,3)] with learning rate [0.1]: every accepted step strictly lowers
    [f] at the current position, no step is rejected for exceeding [10],
    and the run halts at the first step whose displacement is below
    [0.001], which is step 106; this holds over the reals and in
    binary64. *)
Theorem bowl_descent :
  bowl_scenario (T:=R) 105 /\ bowl_scenario (T:=float) 105.
Proof. split; [ exact bowl_scenario_R | exact bowl_scenario_float ]. Qed.

End GradientDescentFacts.

(** ** The Riemann-sum estimator *)

Section RiemannExact.
Import IntegralVisualizer.
Local Open Scope R_scope.
Variable fn : R -> R -> R.
Variable r : R.
Variable n : nat.
Hypothesis r_pos : 0 < r.
Hypothesis n_pos : (1 <= n)%nat.

Lemma INR_n_pos : 0 < INR n.
Proof. apply lt_0_INR. lia. Qed.

Lemma side_pos : 0 < side r n.
Proof.
  unfold side. pose proof INR_n_pos.
  apply Rdiv_lt_0_compat; lra.
Qed.

Lemma corner_0 : corner r n 0 = - r.
Proof. unfold corner. simpl. lra. Qed.

Lemma corner_S (i : nat) : corner r n (S i) = corner r n i + side r n.
Proof. unfold corner. rewrite S_INR. lra. Qed.

Lemma corner_n : corner r n n = r.
Proof. unfold corner, side. pose proof INR_n_pos. field. lra. Qed.

Lemma corner_lt (i : nat) : (i < n)%nat -> corner r n i < r.
Proof.
  intro Hi. rewrite <- corner_n at 2. unfold corner.
  pose proof side_pos. apply lt_INR in Hi. nra.
Qed.

(** In exact arithmetic the inner loop entered at the [j]-th corner
    visits the cells [j .. n-1] of its column and stops. *)
Lemma innerLoop_exact (i m j fuel : nat) (y : R) (acc : Acc (T:=R)) :
  (j + m = n)%nat -> (m < fuel)%nat -> y = corner r n j ->
  innerLoop fuel fn r (side r n) (corner r n i) y acc
    = Some (fold_left (fun a j' => visit fn r n a (i, j')) (seq j m) acc).
Proof.
  revert j fuel y acc. induction m as [|m IH]; intros j fuel y acc Hn Hf ->.
  - destruct fuel as [|fuel]; [ lia | ]. cbn [innerLoop seq fold_left].
    replace j with n by lia. rewrite corner_n.
    assert (Hlt : (r <? r)%js = false) by (apply ltb_R_false; lra).
    rewrite Hlt. reflexivity.
  - destruct fuel as [|fuel]; [ lia | ]. cbn [innerLoop seq fold_left].
    assert (Hlt : (corner r n j <? r)%js = true)
      by (apply ltb_R_true, corner_lt; lia).
    rewrite Hlt.
    rewrite (IH (S j) fuel); [ reflexivity | lia | lia | ].
    rewrite corner_S. reflexivity.
Qed.

Lemma outerLoop_exact (m i fuel : nat) (x : R) (acc : Acc (T:=R)) :
  (i + m = n)%nat -> (n + m <= fuel)%nat -> x = corner r n i ->
  outerLoop fuel fn r (side r n) x acc
    = Some (fold_left
              (fun a i' => fold_left (fun a' j' => visit fn r n a' (i', j'))
                                     (seq 0 n) a)
              (seq i m) acc).
Proof.
  revert i fuel x acc. induction m as [|m IH]; intros i fuel x acc Hn Hf ->.
  - destruct fuel as [|fuel]; [ lia | ]. cbn [outerLoop seq fold_left].
    replace i with n by lia. rewrite corner_n.
    assert (Hlt : (r <? r)%js = false) by (apply ltb_R_false; lra).
    rewrite Hlt. reflexivity.
  - destruct fuel as [|fuel]; [ lia | ].
    cbn [outerLoop seq fold_left].
    assert (Hlt : (corner r n i <? r)%js = true)
      by (apply ltb_R_true, corner_lt; lia).
    rewrite Hlt.
    rewrite (@innerLoop_exact i n 0 (S fuel)); [ | lia | lia | ].
    + rewrite (IH (S i) fuel); [ reflexivity | lia | lia | ].
      rewrite corner_S. reflexivity.
    + unR. rewrite corner_0. reflexivity.
Qed.

Lemma fold_list_prod {A B C : Type} (g : C -> A * B -> C)
    (l1 : list A) (l2 : list B) (c : C) :
  fold_left g (list_prod l1 l2) c
    = fold_left (fun a i => fold_left (fun a' j => g a' (i, j)) l2 a) l1 c.
Proof.
  revert c. induction l1 as [|a l1 IH]; intro c; [ reflexivity | ].
  simpl. rewrite fold_left_app, IH. f_equal.
  clear IH. revert c. induction l2 as [|b l2 IH2]; intro c; [ reflexivity | ].
  simpl. apply IH2.
Qed.

(** Visiting a list of cells adds the contributions of those with a
    positive midpoint value, and pushes their prisms, in order. *)
Lemma visit_fold (l : list (nat * nat)) (acc : Acc (T:=R)) :
  fold_left (visit fn r n) l acc
    = (fold_left
         (fun a ij => a + fn (midpoint r n (fst ij)) (midpoint r n (snd ij))
                          * (side r n * side r n))
         (filter (positive_at fn r n) l) (fst acc),
       snd acc ++ map (prism_at fn r n) (filter (positive_at fn r n) l)).
Proof.
  revert acc. induction l as [|ij l IH]; intros [vol prisms].
  - simpl. rewrite app_nil_r. reflexivity.
  - cbn [fold_left filter]. rewrite IH.
    unfold visit at 1 2, cell, positive_at, midpoint. unR.
    destruct (Rle_dec _ 0) as [Hle|Hgt];
      destruct (Rlt_dec 0 _) as [Hlt|Hnlt]; try lra.
    + reflexivity.
    + cbn [fst snd map fold_left]. rewrite <- app_assoc. reflexivity.
Qed.

(** The estimator over the reals is the midpoint rule of the
    specification: with enough fuel the loops stop after exactly [n * n]
    cells and return the sum over the positive ones. *)
Lemma estimate_exact (fuel : nat) :
  (2 * n <= fuel)%nat ->
  estimate fuel fn r (INR n)
    = Some (midpoint_sum fn r n, midpoint_prisms fn r n).
Proof.
  intro Hf. unfold estimate.
  replace ((r * ofZ 2) / INR n)%js with (side r n)
    by (unfold side; unR; lra).
  rewrite (@outerLoop_exact n 0 fuel); [ | lia | lia | ].
  - rewrite <- (fold_list_prod (visit fn r n)).
    rewrite visit_fold. reflexivity.
  - unR. rewrite corner_0. reflexivity.
Qed.

End RiemannExact.

Section RiemannRuns.
Import IntegralVisualizer.
Local Open Scope R_scope.

Lemma paraboloid_positive (r : R) (n : nat) (ij : nat * nat) :
  positive_at paraboloid r n ij = true.
Proof.
  unfold positive_at, paraboloid. unR.
  destruct (Rlt_dec _ _) as [H|H]; [ reflexivity | exfalso; apply H; nra ].
Qed.

Lemma filter_all {A : Type} (p : A -> bool) (l : list A) :
  (forall a, p a = true) -> filter p l = l.
Proof.
  intro Hp. induction l as [|a l IH]; [ reflexivity | ].
  simpl. rewrite Hp, IH. reflexivity.
Qed.

(** The midpoint rule for the paraboloid on [[-3, 3] x [-3, 3]] with nine
    subdivisions: 81 prisms and the value [188/3]. *)
Lemma midpoint_rule_paraboloid_9 :
  midpoint_sum paraboloid 3 9 = (188 / 3)%R /\
  List.length (midpoint_prisms paraboloid 3 9) = 81%nat.
Proof.
  unfold midpoint_sum, midpoint_prisms.
  rewrite (filter_all _ _ (paraboloid_positive 3 9)).
  split; [ | reflexivity ].
  unfold cells, midpoint, corner, side, paraboloid. unR.
  cbn [seq list_prod map app fold_left fst snd INR]. lra.
Qed.

(** C3, at resolution 9 on the paraboloid.  Over the reals the loops
    visit the 9 x 9 cells of the square and return the midpoint rule,
    [188/3].  In binary64 the step [6/9] rounds down, nine additions
    from [-3] reach [2.9999999999999991 < 3], so both loops run a tenth
    time: 100 prisms are pushed, the last one with its lower corner at
    the far edge of the square and its midpoint outside it, and the
    volume handed to [setTotalVolume] is [86.419...]. *)
Theorem estimate_resolution_9 :
  (estimate (T:=R) 20 paraboloid 3 (INR 9)
     = Some ((188 / 3)%R, midpoint_prisms paraboloid 3 9) /\
   List.length (midpoint_prisms paraboloid 3 9) = 81%nat)
  /\
  (exists (vol : float) (prisms : list (Prism (T:=float))),
     estimate (T:=float) 20 paraboloid (ofZ 3) (ofZ 9) = Some (vol, prisms) /\
     vol = 86.419753086419703%float /\
     List.length prisms = 100%nat /\
     exists p, last prisms p = p /\
       cellX p = 2.9999999999999991%float /\
       cellY p = 2.9999999999999991%float /\
       (ofZ 3 <? (cellX p + (ofZ 3 * ofZ 2) / ofZ 9 / ofZ 2))%js = true).
Proof.
  split.
  - destruct midpoint_rule_paraboloid_9 as [Hsum Hlen].
    split; [ | exact Hlen ].
    rewrite <- Hsum. apply estimate_exact; [ lra | lia | lia ].
  - destruct (estimate (T:=float) 20 paraboloid (ofZ 3) (ofZ 9))
      as [[vol prisms]|] eqn:E; [ | vm_compute in E; discriminate ].
    exists vol, prisms. split; [ reflexivity | ].
    vm_compute in E. injection E as <- <-.
    split; [ reflexivity | ]. split; [ reflexivity | ].
    eexists. split; [ vm_compute; reflexivity | ].
    repeat split.
Qed.

(** The tenth pass is not particular to nine subdivisions: among the
    slider's resolutions 2..50 these are the ones at which the binary64
    loop counter stops short of the range. *)
Example overshooting_resolutions :
  filter (fun n => match estimate (T:=float) 120 (fun _ _ => ofZ 1)
                           (ofZ 3) (ofZ (Z.of_nat n)) with
                   | Some (_, prisms) => negb (List.length prisms =? n * n)%nat
                   | None => true
                   end)
         (seq 2 49)
  = [9; 11; 14; 15; 20; 21; 22; 23; 29; 31; 33; 34; 35; 36; 39; 40; 42; 43;
     44; 45; 47]%nat.
Proof. vm_compute. reflexivity. Qed.

End RiemannRuns.

(** ** The matrix-composition animator *)

Section AnimatorFacts.
Import MatrixMultiplicationLevel.
Local Open Scope R_scope.

Lemma frames_add {T} `{Number T} (m n : nat) (s : Anim (T:=T)) :
  frames (m + n) s
    = match frames m s with Some s' => frames n s' | None => None end.
Proof.
  revert s. induction m as [|m IH]; intro s; [ reflexivity | ].
  cbn [Nat.add frames]. destruct (frame s) as [s'|]; [ apply IH | reflexivity ].
Qed.

Lemma nth_error_length_pos {A : Type} (l : list A) (i : nat) (v : A) :
  nth_error l i = Some v -> (0 <? List.length l)%nat = true.
Proof.
  intro Hn. apply Nat.ltb_lt.
  assert (i < List.length l)%nat by (apply nth_error_Some; congruence). lia.
Qed.

Lemma skipn_nth_error {A : Type} (l : list A) (i : nat) (v : A) :
  nth_error l i = Some v -> skipn i l = v :: skipn (S i) l.
Proof.
  revert i. induction l as [|x l IH]; intros [|i] Hn; try discriminate.
  - injection Hn as ->. reflexivity.
  - cbn [skipn]. apply IH. exact Hn.
Qed.

(** A tick inside a step only advances [progress]; the visual matrix is
    the interpolation at the eased progress. *)
Lemma frame_within (q : list TransformationStep) (i j : nat)
    (A : Matrix2x2) (st : TransformationStep) (s : Anim) :
  in_step q i A j s -> (j < 49)%nat -> nth_error q i = Some st ->
  exists s', frame s = Some s' /\ in_step q i A (S j) s' /\
    currentMatrix s'
      = lerpMatrix A (multiply (matrix st) A) (smoothstep (INR (S j) / 50)).
Proof.
  intros (Hq & Han & Hi & HA & Hp) Hj Hst.
  assert (Hnext : (progress s + dec 2 100)%js = INR (S j) / 50)
    by (rewrite Hp, S_INR; unR; lra).
  assert (Hlt : (progress s + dec 2 100 >=? ofZ 1)%js = false).
  { rewrite Hnext. apply leb_R_false. unR.
    apply lt_INR in Hj. rewrite S_INR. simpl in Hj. lra. }
  unfold frame, loopTick. rewrite Han, Hlt.
  unfold visualEffect.
  cbn [isAnimating queue stepIndex accumulatedMatrix progress].
  rewrite Hq, Hi, HA, (nth_error_length_pos _ _ Hst), Hst, Hnext.
  cbn [andb].
  eexists. split; [ reflexivity | ].
  split; [ | reflexivity ].
  unfold in_step. cbn. repeat split; reflexivity.
Qed.

(** The tick that ends a step which is not the last folds the step into
    the accumulated total and starts the next step at progress 0, where
    the visual matrix is the new total. *)
Lemma frame_boundary (q : list TransformationStep) (i : nat)
    (A : Matrix2x2) (st : TransformationStep) (s : Anim) :
  in_step q i A 49 s -> nth_error q i = Some st ->
  (S i < List.length q)%nat ->
  exists s', frame s = Some s' /\
    in_step q (S i) (multiply (matrix st) A) 0 s' /\
    currentMatrix s' = multiply (matrix st) A.
Proof.
  intros (Hq & Han & Hi & HA & Hp) Hst Hlen.
  assert (Hge : (progress s + dec 2 100 >=? ofZ 1)%js = true).
  { rewrite Hp. apply leb_R_true. unR. simpl. lra. }
  assert (Hidx : (Z.of_nat (stepIndex s)
                  <? Z.of_nat (List.length (queue s)) - 1)%Z = true)
    by (apply Z.ltb_lt; rewrite Hq, Hi; lia).
  destruct (nth_error q (S i)) as [st'|] eqn:Hst';
    [ | apply nth_error_None in Hst'; lia ].
  unfold frame, loopTick. rewrite Han, Hge, Hidx, Hq, Hi, Hst, HA.
  unfold visualEffect.
  cbn [isAnimating queue stepIndex accumulatedMatrix progress].
  replace (i + 1)%nat with (S i) by lia.
  rewrite (nth_error_length_pos _ _ Hst), Hst'. cbn [andb].
  eexists. split; [ reflexivity | ].
  split.
  - unfold in_step. cbn. repeat split; try reflexivity. unR. lra.
  - cbn [currentMatrix]. unfold lerpMatrix, smoothstep. unR.
    destruct (multiply (matrix st) A) as [ma mb mc md]. cbn [a b c d].
    f_equal; lra.
Qed.

(** The tick that ends the last step publishes the final product and
    stops the animation; the visual effect leaves it in place. *)
Lemma frame_final (q : list TransformationStep) (i : nat)
    (A : Matrix2x2) (st : TransformationStep) (s : Anim) :
  in_step q i A 49 s -> nth_error q i = Some st ->
  S i = List.length q ->
  exists s', frame s = Some s' /\ isAnimating s' = false /\
    currentMatrix s' = multiply (matrix st) A /\ queue s' = q.
Proof.
  intros (Hq & Han & Hi & HA & Hp) Hst Hlen.
  assert (Hge : (progress s + dec 2 100 >=? ofZ 1)%js = true).
  { rewrite Hp. apply leb_R_true. unR. simpl. lra. }
  assert (Hidx : (Z.of_nat (stepIndex s)
                  <? Z.of_nat (List.length (queue s)) - 1)%Z = false)
    by (apply Z.ltb_ge; rewrite Hq, Hi; lia).
  unfold frame, loopTick. rewrite Han, Hge, Hidx, Hq, Hi, Hst, HA.
  unfold visualEffect.
  cbn [isAnimating queue stepIndex accumulatedMatrix progress andb negb].
  assert (Hz : (List.length q =? 0)%nat = false)
    by (apply Nat.eqb_neq; lia).
  rewrite Hz.
  eexists. split; [ reflexivity | ]. cbn. repeat split; reflexivity.
Qed.

(** The 49 ticks between the start of a step and its last tick. *)
Lemma frames_within (q : list TransformationStep) (i : nat)
    (A : Matrix2x2) (st : TransformationStep) (m j : nat) (s : Anim) :
  in_step q i A j s -> nth_error q i = Some st -> (j + m = 49)%nat ->
  exists s', frames m s = Some s' /\ in_step q i A 49 s'.
Proof.
  revert j s. induction m as [|m IH]; intros j s Hin Hst Hjm.
  - exists s. split; [ reflexivity | ].
    replace 49%nat with j by lia. exact Hin.
  - destruct (@frame_within q i j A st s Hin ltac:(lia) Hst)
      as (s1 & Hf & Hin1 & _).
    destruct (IH (S j) s1 Hin1 Hst ltac:(lia)) as (s' & Hfs & Hin').
    exists s'. split; [ | exact Hin' ].
    cbn [frames]. rewrite Hf. exact Hfs.
Qed.

(** From the start of step [i], the remaining [m] steps take [50 * m]
    frames and end on the product of the remaining queue with the
    accumulated total. *)
Lemma frames_rest (q : list TransformationStep) (m i : nat)
    (A : Matrix2x2) (s : Anim) :
  in_step q i A 0 s -> (i + S m = List.length q)%nat ->
  exists s', frames (50 * S m) s = Some s' /\ isAnimating s' = false /\
    currentMatrix s' = composeFrom A (skipn i q) /\ queue s' = q.
Proof.
  revert i A s. induction m as [|m IH]; intros i A s Hin Hlen.
  - destruct (nth_error q i) as [st|] eqn:Hst;
      [ | apply nth_error_None in Hst; lia ].
    destruct (@frames_within q i A st 49 0 s Hin Hst eq_refl)
      as (s49 & Hfs & Hin49).
    destruct (@frame_final q i A st s49 Hin49 Hst ltac:(lia))
      as (s' & Hf & Hstop & Hcur & Hq).
    exists s'. split; [ | split; [ exact Hstop | split; [ | exact Hq ] ] ].
    + change (50 * 1)%nat with (49 + 1)%nat. rewrite frames_add, Hfs.
      cbn [frames]. rewrite Hf. reflexivity.
    + rewrite Hcur, (skipn_nth_error _ _ Hst), skipn_all2 by lia.
      reflexivity.
  - destruct (nth_error q i) as [st|] eqn:Hst;
      [ | apply nth_error_None in Hst; lia ].
    destruct (@frames_within q i A st 49 0 s Hin Hst eq_refl)
      as (s49 & Hfs & Hin49).
    destruct (@frame_boundary q i A st s49 Hin49 Hst ltac:(lia))
      as (s1 & Hf & Hin1 & _).
    destruct (IH (S i) _ s1 Hin1 ltac:(lia)) as (s' & Hrest & Hstop & Hcur & Hq).
    exists s'. split; [ | split; [ exact Hstop | split; [ | exact Hq ] ] ].
    + replace (50 * S (S m))%nat with (49 + (1 + 50 * S m))%nat by lia.
      rewrite frames_add, Hfs, frames_add. cbn [frames]. rewrite Hf.
      exact Hrest.
    + rewrite Hcur, (skipn_nth_error _ _ Hst). reflexivity.
Qed.

Lemma compose_snoc {T} `{Number T}
    (q : list TransformationStep) (st : TransformationStep (T:=T)) :
  compose (q ++ [st]) = multiply (matrix st) (compose q).
Proof. unfold compose, composeFrom. rewrite fold_left_app. reflexivity. Qed.

Lemma multiply_identity_r (m : Matrix2x2 (T:=R)) : multiply m identity = m.
Proof.
  destruct m as [ma mb mc md]. unfold multiply, identity. cbn [a b c d].
  unR. f_equal; lra.
Qed.

Lemma multiply_assoc (m1 m2 m3 : Matrix2x2 (T:=R)) :
  multiply m1 (multiply m2 m3) = multiply (multiply m1 m2) m3.
Proof.
  destruct m1, m2, m3. unfold multiply. cbn [a b c d]. unR. f_equal; lra.
Qed.

(** C4.  The animator over the reals, for any state [s] of the
    component, with every matrix written out by its four entries.  While
    a step with matrix [M] is animated from the accumulated total [A],
    the visual matrix has the entries [A.x + ((M * A).x - A.x) * t] for
    [x = a, b, c, d], where [M * A] is the matrix product
    [(M.a A.a + M.b A.c, M.a A.b + M.b A.d; M.c A.a + M.d A.c,
    M.c A.b + M.d A.d)] and [t = p * p * (3 - 2 * p)] is the eased
    progress.  The tick on which [progress + 0.02] reaches [1] in a step
    that is not the last replaces the accumulated total by that product
    [M * A] and moves to the next step at progress 0.  Run from
    [runSequence] on a non-empty queue, the animation stops after 50
    frames per step and displays [compose] of the queue, which is the
    identity [(1, 0; 0, 1)] for the empty queue and, for a queue extended
    by a last step [M], the product of [M] with the composite of the
    steps before it: the product [Mk * ... * M2 * M1], the step queued
    later multiplying from the left. *)
Theorem composition_animation (s : Anim (T:=R)) (st : TransformationStep) :
  let product (M A : Matrix2x2 (T:=R)) : Matrix2x2 (T:=R) :=
    {| a := a M * a A + b M * c A;
       b := a M * b A + b M * d A;
       c := c M * a A + d M * c A;
       d := c M * b A + d M * d A |} in
  let A := accumulatedMatrix s in
  let MA := product (matrix st) A in
  let t := progress s * progress s * (3 - 2 * progress s) in
  (isAnimating s = true ->
   nth_error (queue s) (stepIndex s) = Some st ->
   exists s', visualEffect s = Some s' /\
     currentMatrix s'
       = {| a := a A + (a MA - a A) * t;
            b := b A + (b MA - b A) * t;
            c := c A + (c MA - c A) * t;
            d := d A + (d MA - d A) * t |})
  /\
  (isAnimating s = true ->
   nth_error (queue s) (stepIndex s) = Some st ->
   1 <= progress s + 2 / 100 ->
   (S (stepIndex s) < List.length (queue s))%nat ->
   exists s', loopTick s = Some s' /\
     accumulatedMatrix s' = MA /\
     stepIndex s' = S (stepIndex s) /\ progress s' = 0 /\
     isAnimating s' = true /\ queue s' = queue s)
  /\
  (queue s <> [] ->
   exists s', frames (50 * List.length (queue s)) (runSequence s) = Some s' /\
     isAnimating s' = false /\ queue s' = queue s /\
     currentMatrix s' = compose (queue s))
  /\
  (compose (T:=R) [] = {| a := 1; b := 0; c := 0; d := 1 |} /\
   (forall q, compose (q ++ [st]) = product (matrix st) (compose q)) /\
   forall st1 st2 st3 : TransformationStep,
     compose [st1; st2; st3]
       = product (matrix st3) (product (matrix st2) (matrix st1))).
Proof.
  cbv zeta. split; [ | split; [ | split ] ].
  - intros Han Hst. unfold visualEffect.
    rewrite Han, (nth_error_length_pos _ _ Hst), Hst. cbn [andb].
    eexists. split; reflexivity.
  - intros Han Hst Hge Hlen.
    assert (Hge' : (progress s + dec 2 100 >=? ofZ 1)%js = true)
      by (apply leb_R_true; unR; lra).
    assert (Hidx : (Z.of_nat (stepIndex s)
                    <? Z.of_nat (List.length (queue s)) - 1)%Z = true)
      by (apply Z.ltb_lt; lia).
    unfold loopTick. rewrite Han, Hge', Hidx, Hst.
    eexists. split; [ reflexivity | ]. cbn.
    repeat split; try reflexivity. lia.
  - intros Hne. destruct (queue s) as [|st0 q] eqn:Hq; [ congruence | ].
    assert (Hin : in_step (st0 :: q) 0 identity 0 (runSequence s)).
    { unfold runSequence. rewrite Hq. unfold in_step. cbn.
      repeat split; try reflexivity. unR. lra. }
    destruct (@frames_rest (st0 :: q) (List.length q) 0 identity _ Hin eq_refl)
      as (s' & Hfs & Hstop & Hcur & Hq').
    exists s'. repeat split; assumption.
  - split; [ reflexivity | ]. split.
    + intro q. rewrite compose_snoc. reflexivity.
    + intros st1 st2 st3. unfold compose, composeFrom. cbn [fold_left].
      rewrite multiply_identity_r. reflexivity.
Qed.

(** [composition_animation] at the last tick of the first of two queued
    steps, a rotation by 90 degrees [(0, -1; 1, 0)] followed by a shear
    [(1, 1; 0, 1)]: the visual matrix at progress [49/50], the
    accumulated total after the tick, and the matrix displayed at the
    end, [(1, -1; 1, 0)], the shear applied after the rotation. *)
Lemma composition_animation_witness :
  let q := [ROTATE (T:=R) "1"; SHEAR "2"] in
  let s := {| queue := q; isAnimating := true; currentMatrix := identity;
              stepIndex := 0; progress := 49 / 50;
              accumulatedMatrix := identity |} in
  let t := 49 / 50 * (49 / 50) * (3 - 2 * (49 / 50)) in
  (exists s', visualEffect s = Some s' /\
     currentMatrix s'
       = {| a := 1 - t; b := - t; c := t; d := 1 - t |}) /\
  (exists s', loopTick s = Some s' /\
     accumulatedMatrix s' = {| a := 0; b := -1; c := 1; d := 0 |} /\
     stepIndex s' = 1%nat /\ progress s' = 0 /\
     isAnimating s' = true /\ queue s' = q) /\
  (exists s', frames 100 (runSequence s) = Some s' /\
     isAnimating s' = false /\ queue s' = q /\
     currentMatrix s' = {| a := 1; b := -1; c := 1; d := 0 |}).
Proof.
  intros q s t.
  destruct (composition_animation s (ROTATE "1")) as (H1 & H2 & H3 & H4).
  split; [ | split ].
  - destruct H1 as (s' & Hv & Hc); [ reflexivity | reflexivity | ].
    exists s'. split; [ exact Hv | ]. rewrite Hc.
    unfold t. cbn [accumulatedMatrix progress matrix ROTATE identity s
                   a b c d]. unR. f_equal; lra.
  - destruct H2 as (s' & Hl & Hacc & Hrest);
      [ reflexivity | reflexivity | | | ].
    + cbn [progress s]. lra.
    + cbn. lia.
    + exists s'. split; [ exact Hl | ]. split; [ | exact Hrest ].
      rewrite Hacc.
      cbn [accumulatedMatrix matrix ROTATE identity s a b c d]. unR.
      f_equal; lra.
  - destruct H3 as (s' & Hf & Hstop & Hq & Hc); [ discriminate | ].
    exists s'. split; [ exact Hf | ]. split; [ exact Hstop | ].
    split; [ exact Hq | ]. rewrite Hc.
    unfold compose, composeFrom, multiply.
    cbn [queue s q fold_left matrix ROTATE SHEAR identity a b c d]. unR.
    f_equal; lra.
Defined.

(** Written out for three queued steps: the last queued step is the
    leftmost factor. *)
Example compose_three (s1 s2 s3 : TransformationStep (T:=R)) :
  compose [s1; s2; s3]
    = multiply (matrix s3) (multiply (matrix s2) (matrix s1)).
Proof.
  unfold compose, composeFrom. cbn [fold_left].
  rewrite multiply_identity_r. reflexivity.
Qed.

(** The order of the queue matters: a rotation then a shear is not a
    shear then a rotation. *)
Example compose_order_sensitive :
  compose [ROTATE (T:=R) "1"; SHEAR "2"]
    <> compose [SHEAR (T:=R) "1"; ROTATE "2"].
Proof.
  unfold compose, composeFrom, ROTATE, SHEAR, multiply, identity.
  cbn [fold_left matrix a b c d]. unR.
  intro Heq. injection Heq as Ha _ _ _. lra.
Qed.

(** The same run in binary64: rotate, then scale by 1.5, then shear;
    150 frames end the animation on the product. *)
Example animation_float_run :
  let q := [ROTATE (T:=float) "1"; SCALE "2"; SHEAR "3"] in
  let s0 := {| queue := q; isAnimating := false; currentMatrix := identity;
               stepIndex := 0; progress := 0%float;
               accumulatedMatrix := identity |} in
  option_map (fun s => (isAnimating s, currentMatrix s))
             (frames 150 (runSequence s0))
    = Some (false, compose q) /\
  compose q = {| a := 1.5%float; b := (-1.5)%float;
                 c := 1.5%float; d := 0%float |}.
Proof. split; vm_compute; reflexivity. Qed.

End AnimatorFacts.

(** ** The eigen-alignment test *)

Section AlignmentFacts.
Import EigenvectorsLevel.
Local Open Scope js_scope.

Lemma isAligned_fold {T} `{Number T} (probeBase : P2.t T)
    (eigenLines : list (P2.t T)) (flag : bool) :
  fold_left
    (fun isAligned line =>
       if mabs (cross probeBase line) <? dec 1 10 then true else isAligned)
    eigenLines flag = true
  <-> flag = true \/
      exists line, In line eigenLines /\
        (mabs (cross probeBase line) <? dec 1 10) = true.
Proof.
  revert flag. induction eigenLines as [|l ls IH]; intro flag.
  - cbn [fold_left]. split; [ auto | ].
    intros [Hf | (line & [] & _)]. exact Hf.
  - cbn [fold_left]. rewrite IH. split.
    + intros [Hf | (line & Hin & Hc)].
      * destruct (mabs (cross probeBase l) <? dec 1 10) eqn:E.
        -- right. exists l. split; [ left; reflexivity | exact E ].
        -- left. exact Hf.
      * right. exists line. split; [ right; exact Hin | exact Hc ].
    + intros [Hf | (line & [<- | Hin] & Hc)].
      * left. rewrite Hf. destruct (_ <? _); reflexivity.
      * left. rewrite Hc. reflexivity.
      * right. exists line. split; assumption.
Qed.

(** C5.  For any number type, probe and list of eigen lines, the probe is
    classified aligned exactly when some line has
    [|probe.x * line.y - probe.y * line.x| < 0.1].  The test is a
    tolerance: over the reals the probe [(1, 1/20)] is aligned with the
    lines of the first preset although it lies on none of them. *)
Theorem isAligned_spec :
  (forall (T : Type) (N : Number T) (probeBase : P2.t T)
          (eigenLines : list (P2.t T)),
     isAligned probeBase eigenLines = true
     <-> exists line, In line eigenLines /\
           (mabs (P2.x probeBase * P2.y line - P2.y probeBase * P2.x line)
              <? dec 1 10) = true)
  /\
  (let probe := {| P2.x := 1%R; P2.y := (1 / 20)%R |} in
   isAligned probe SCALE_X_lines = true /\
   Forall (fun line => cross probe line <> 0%R) SCALE_X_lines).
Proof.
  split.
  - intros T N probeBase eigenLines. unfold isAligned.
    rewrite isAligned_fold. unfold cross. split.
    + intros [Hf | Hex]; [ discriminate | exact Hex ].
    + intro Hex. right. exact Hex.
  - cbv zeta. split.
    + unfold isAligned. apply isAligned_fold. right.
      exists {| P2.x := ofZ 1; P2.y := ofZ 0 |}.
      split; [ left; reflexivity | ].
      apply ltb_R_true. unfold cross. cbn [P2.x P2.y]. unR.
      replace (1 * 0 - 1 / 20 * 1)%R with (- (1 / 20))%R by lra.
      rewrite Rabs_Ropp, Rabs_pos_eq; lra.
    + unfold SCALE_X_lines, cross. repeat constructor; cbn [P2.x P2.y]; unR; lra.
Qed.

(** The same probes in binary64: [(1, 0.05)] is within the tolerance of
    the x axis, the component's initial probe [(1, 2)] is not aligned
    with the diagonal preset. *)
Example isAligned_float_runs :
  isAligned {| P2.x := 1%float; P2.y := 0.05%float |} SCALE_X_lines = true /\
  isAligned {| P2.x := 1%float; P2.y := 2%float |} DIAGONAL_lines = false /\
  isAligned {| P2.x := 2%float; P2.y := 2.05%float |} DIAGONAL_lines = true.
Proof. repeat split; vm_compute; reflexivity. Qed.

End AlignmentFacts.

(** ** The projection *)

Section ProjectionFacts.
Import VectorPlayground.
Local Open Scope R_scope.

(** C6.  The projection of VectorPlayground over the reals.  In 3D mode
    the point is rotated about the vertical axis by the yaw
    ([cameraAngle.y]), then about the horizontal axis by the pitch
    ([cameraAngle.x]), and the screen point is
    [(w/2 + pan.x + rx * scale, h/2 + pan.y - ry * scale)] with the
    rotated z as depth.  In 2D mode no rotation is applied and the depth
    is 0 whatever the point's z.  With pitch = yaw = 0 a point with
    z = 0 has the same projection in both modes. *)
Theorem project_spec (vw : View (T:=R)) (v : P3.t R) (w h : R) :
  (is3D vw = true ->
   let yaw := P2.y (cameraAngle vw) in
   let pitch := P2.x (cameraAngle vw) in
   let r := rotateX (rotateY v yaw) pitch in
   project vw v w h
     = {| P3.x := w / 2 + P2.x (pan vw) + P3.x r * scale vw;
          P3.y := h / 2 + P2.y (pan vw) - P3.y r * scale vw;
          P3.z := P3.z r |} /\
   let z1 := - P3.x v * sin yaw + P3.z v * cos yaw in
   P3.x r = P3.x v * cos yaw + P3.z v * sin yaw /\
   P3.y r = P3.y v * cos pitch - z1 * sin pitch /\
   P3.z r = P3.y v * sin pitch + z1 * cos pitch)
  /\
  (is3D vw = false ->
   project vw v w h
     = {| P3.x := w / 2 + P2.x (pan vw) + P3.x v * scale vw;
          P3.y := h / 2 + P2.y (pan vw) - P3.y v * scale vw;
          P3.z := 0 |})
  /\
  (P3.z v = 0 ->
   forall angle2D,
   project {| is3D := true; cameraAngle := {| P2.x := 0; P2.y := 0 |};
              scale := scale vw; pan := pan vw |} v w h
   = project {| is3D := false; cameraAngle := angle2D;
                scale := scale vw; pan := pan vw |} v w h).
Proof.
  split; [ | split ].
  - intros H3 yaw pitch r. unfold project. rewrite H3.
    split; [ reflexivity | ]. cbv zeta. repeat split.
  - intros H2. unfold project. rewrite H2. reflexivity.
  - intros Hz angle2D. destruct v as [vx vy vz]. cbn [P3.z] in Hz. subst vz.
    unfold project, rotateX, rotateY.
    cbn [is3D cameraAngle scale pan P2.x P2.y P3.x P3.y P3.z]. unR.
    rewrite cos_0, sin_0. f_equal; lra.
Qed.

(** [project_spec] at the component's initial vector A = (4, 1, 0). *)
Lemma project_spec_witness :
  let v := {| P3.x := 4; P3.y := 1; P3.z := 0 |} in
  let pan0 := {| P2.x := 0; P2.y := 0 |} in
  project {| is3D := false; cameraAngle := {| P2.x := -3 / 10; P2.y := 1 / 2 |};
             scale := 40; pan := pan0 |} v 800 600
    = {| P3.x := 800 / 2 + 0 + 4 * 40; P3.y := 600 / 2 + 0 - 1 * 40;
         P3.z := 0 |} /\
  project {| is3D := true; cameraAngle := {| P2.x := 0; P2.y := 0 |};
             scale := 40; pan := pan0 |} v 800 600
    = project {| is3D := false;
                 cameraAngle := {| P2.x := -3 / 10; P2.y := 1 / 2 |};
                 scale := 40; pan := pan0 |} v 800 600 /\
  P3.x (rotateX (rotateY v (1 / 2)) (-3 / 10))
    = 4 * cos (1 / 2) + 0 * sin (1 / 2).
Proof.
  intros v pan0. split; [ | split ].
  - apply (proj1 (proj2 (project_spec
      {| is3D := false; cameraAngle := {| P2.x := -3 / 10; P2.y := 1 / 2 |};
         scale := 40; pan := pan0 |} v 800 600))).
    reflexivity.
  - apply (proj2 (proj2 (project_spec
      {| is3D := false; cameraAngle := {| P2.x := -3 / 10; P2.y := 1 / 2 |};
         scale := 40; pan := pan0 |} v 800 600))).
    reflexivity.
  - apply (proj1 (project_spec
      {| is3D := true; cameraAngle := {| P2.x := -3 / 10; P2.y := 1 / 2 |};
         scale := 40; pan := pan0 |} v 800 600)).
    reflexivity.
Defined.

(** The order of the two rotations matters: at a quarter turn of yaw and
    of pitch the x axis goes to the y axis, while pitch first and yaw
    second sends it to the negative z axis. *)
Example rotation_order_matters :
  let ex := {| P3.x := 1; P3.y := 0; P3.z := 0 |} in
  rotateX (rotateY ex (PI / 2)) (PI / 2)
    = {| P3.x := 0; P3.y := 1; P3.z := 0 |} /\
  rotateY (rotateX ex (PI / 2)) (PI / 2)
    = {| P3.x := 0; P3.y := 0; P3.z := -1 |}.
Proof.
  cbv zeta. unfold rotateX, rotateY. cbn [P3.x P3.y P3.z]. unR.
  rewrite cos_PI2, sin_PI2. split; f_equal; lra.
Qed.

End ProjectionFacts.

(** ** Dragging the probe *)

Section DragFacts.
Import GradientDescent.
Local Open Scope R_scope.



Lemma handleMouseMove_dragging (e : MouseEvent) (s : State (T:=R)) :
  dragging (handleMouseMove e s) = dragging s.
Proof.
  unfold handleMouseMove. destruct (dragging s) as [[|]|] eqn:Hd;
    cbn [dragging]; congruence.
Qed.





End DragFacts.

(** ** The render list *)

Section SortFacts.
Context {A : Type}.
Variable compare : A -> A -> R.

Lemma insert_perm (it : A) (l : list A) :
  Permutation (it :: l) (insert compare it l).
Proof.
  induction l as [|y l IH]; [ reflexivity | ].
  cbn [insert]. destruct (compare it y >? ofZ 0)%js.
  - rewrite perm_swap. apply perm_skip, IH.
  - reflexivity.
Qed.

Lemma sort_perm (l : list A) : Permutation l (sort compare l).
Proof.
  induction l as [|it l IH]; [ reflexivity | ].
  cbn [sort]. rewrite <- insert_perm. apply perm_skip, IH.
Qed.

End SortFacts.

Section RenderListFacts.
Import MatrixTransformLevel.
Local Open Scope R_scope.

Lemma insert_sorted (it : RenderItem (T:=R)) (l : list RenderItem) :
  StronglySorted furthest_first l ->
  StronglySorted furthest_first (insert byDepth it l).
Proof.
  induction 1 as [|y l Hs IH Hall]; cbn [insert].
  - repeat constructor.
  - destruct (byDepth it y >? ofZ 0)%js eqn:Hc.
    + apply ltb_R_true in Hc. unfold byDepth in Hc. unR.
      constructor; [ exact IH | ].
      apply (Permutation_Forall (insert_perm byDepth it l)).
      constructor; [ unfold furthest_first; lra | exact Hall ].
    + apply ltb_R_false in Hc. unfold byDepth in Hc. unR.
      constructor; [ constructor; assumption | ].
      constructor; [ unfold furthest_first; lra | ].
      eapply Forall_impl; [ | exact Hall ].
      unfold furthest_first. intros b Hb. lra.
Qed.

Lemma sort_sorted (l : list (RenderItem (T:=R))) :
  StronglySorted furthest_first (sort byDepth l).
Proof.
  induction l as [|it l IH]; [ constructor | ].
  cbn [sort]. apply insert_sorted, IH.
Qed.

Lemma sorted_tail (l1 l2 : list RenderItem) (it : RenderItem (T:=R)) :
  StronglySorted furthest_first (l1 ++ it :: l2) ->
  Forall (fun b => z b <= z it) l2.
Proof.
  induction l1 as [|y l1 IH]; cbn [app]; intro Hs.
  - apply StronglySorted_inv in Hs. exact (proj2 Hs).
  - apply StronglySorted_inv in Hs. apply IH, (proj1 Hs).
Qed.

(** In the sorted list a strictly deeper item is painted before a
    shallower one, at every occurrence. *)
Lemma deeper_precedes (items : list RenderItem) (X A : RenderItem (T:=R)) :
  In X items -> z A < z X -> precedes X A (sort byDepth items).
Proof.
  intros HX Hz l1 l2 Heq.
  pose proof (sort_sorted items) as Hs. rewrite Heq in Hs.
  pose proof (sorted_tail _ _ _ Hs) as Htail.
  assert (Hnot : ~ In X l2).
  { intro Hin. rewrite Forall_forall in Htail.
    specialize (Htail X Hin). lra. }
  split; [ | exact Hnot ].
  assert (Hin : In X (l1 ++ A :: l2)).
  { rewrite <- Heq. apply (Permutation_in _ (sort_perm byDepth items)), HX. }
  apply in_app_or in Hin. destruct Hin as [H1 | [HA | H2]].
  - exact H1.
  - subst X. lra.
  - contradiction.
Qed.

(** The sort is stable: an item that is at least as deep as another and
    is never queued after it is never painted after it. *)
Lemma insert_never_after (X A it : RenderItem (T:=R)) (l : list RenderItem) :
  z A <= z X -> never_after X A l -> (it = A -> ~ In X l) ->
  never_after X A (insert byDepth it l).
Proof.
  intros Hz. induction l as [|y l IH]; intros Hna Hit; cbn [insert].
  - cbn. split; [ intros _ [] | exact I ].
  - destruct (byDepth it y >? ofZ 0)%js eqn:Hc.
    + apply ltb_R_true in Hc. unfold byDepth in Hc. unR.
      destruct Hna as [Hy Hna]. cbn [never_after]. split.
      * intros -> Hin.
        apply (Permutation_in _ (Permutation_sym (insert_perm byDepth it l)))
          in Hin.
        destruct Hin as [-> | Hin]; [ lra | exact (Hy eq_refl Hin) ].
      * apply IH; [ exact Hna | ].
        intros HA Hin. apply (Hit HA). right. exact Hin.
    + cbn [never_after]. split; [ exact Hit | exact Hna ].
Qed.

Lemma sort_never_after (X A : RenderItem (T:=R)) (l : list RenderItem) :
  z A <= z X -> never_after X A l -> never_after X A (sort byDepth l).
Proof.
  intros Hz. induction l as [|it l IH]; intros Hna; [ exact I | ].
  destruct Hna as [Hit Hna]. cbn [sort].
  apply insert_never_after; [ exact Hz | apply IH, Hna | ].
  intros HA Hin. apply (Hit HA).
  apply (Permutation_in _ (Permutation_sym (sort_perm byDepth l))), Hin.
Qed.

Lemma never_after_split (X A : RenderItem (T:=R)) (l l1 l2 : list RenderItem) :
  never_after X A l -> l = l1 ++ A :: l2 -> ~ In X l2.
Proof.
  revert l. induction l1 as [|y l1 IH]; intros l Hna ->; cbn [app] in Hna.
  - exact (proj1 Hna eq_refl).
  - exact (IH _ (proj2 Hna) eq_refl).
Qed.

Lemma never_after_app (X A : RenderItem (T:=R)) (l r : list RenderItem) :
  ~ In A l -> ~ In X r -> never_after X A (l ++ r).
Proof.
  intros HA HX. induction l as [|y l IH]; cbn [app].
  - clear HA. induction r as [|y r IHr]; [ exact I | ].
    split; [ intros _ Hin; apply HX; right; exact Hin | ].
    apply IHr. intro Hin. apply HX. right. exact Hin.
  - split.
    + intros ->. exfalso. apply HA. left. reflexivity.
    + apply IH. intro Hin. apply HA. right. exact Hin.
Qed.

Lemma stable_precedes (items : list RenderItem) (X A : RenderItem (T:=R)) :
  In X items -> X <> A -> z A <= z X -> never_after X A items ->
  precedes X A (sort byDepth items).
Proof.
  intros HX Hne Hz Hna l1 l2 Heq.
  assert (Hnot : ~ In X l2)
    by (eapply never_after_split; [ apply sort_never_after | ]; eassumption).
  split; [ | exact Hnot ].
  assert (Hin : In X (l1 ++ A :: l2)).
  { rewrite <- Heq. apply (Permutation_in _ (sort_perm byDepth items)), HX. }
  apply in_app_or in Hin. destruct Hin as [H1 | [HA | H2]];
    [ exact H1 | congruence | contradiction ].
Qed.

(** The kinds of the items the frame queues. *)
Lemma gridLines_type (m : Matrix3x3) (vw : View) (w h : R)
    (it : RenderItem) :
  In it (gridLines m vw w h) -> type it = LINE.
Proof.
  unfold gridLines. intro Hin.
  apply in_app_or in Hin; destruct Hin as [Hin | Hin];
    [ | apply in_app_or in Hin; destruct Hin as [Hin | Hin] ];
    apply in_flat_map in Hin; destruct Hin as (u & _ & Hin);
    apply in_map_iff in Hin; destruct Hin as (v & <- & _); reflexivity.
Qed.

Lemma basisVectors_type (m : Matrix3x3) (vw : View) (w h : R)
    (it : RenderItem) :
  In it (basisVectors m vw w h) -> type it = ARROW.
Proof. intros [<- | [<- | [<- | []]]]; reflexivity. Qed.

Lemma cubeFaces_type (m : Matrix3x3) (vw : View) (w h : R)
    (it : RenderItem) :
  In it (cubeFaces m vw w h) -> type it = FACE.
Proof.
  unfold cubeFaces. intro Hin. apply in_map_iff in Hin.
  destruct Hin as (u & <- & _). reflexivity.
Qed.

(** In the frame's own list the lines are queued before the vectors, so
    a line is painted before a vector even when their keys tie. *)
Lemma frame_line_precedes_arrow (m : Matrix3x3) (vw : View) (w h : R)
    (line arrow : RenderItem) :
  In line (gridLines m vw w h) -> In arrow (basisVectors m vw w h) ->
  z arrow <= z line ->
  precedes line arrow (sort byDepth (renderList m vw w h)).
Proof.
  intros Hl Ha Hz.
  pose proof (gridLines_type Hl) as Htl.
  pose proof (basisVectors_type Ha) as Hta.
  apply stable_precedes.
  - unfold renderList. apply in_or_app. left. exact Hl.
  - intros ->. congruence.
  - exact Hz.
  - unfold renderList. apply never_after_app.
    + intro Hin. apply gridLines_type in Hin. congruence.
    + intro Hin. apply in_app_or in Hin. destruct Hin as [Hin | Hin].
      * apply basisVectors_type in Hin. congruence.
      * apply cubeFaces_type in Hin. congruence.
Qed.

Lemma forEach_paints (l : list (RenderItem (T:=R))) (ps : list Paint)
    (ctx : Canvas) :
  Forall2 paints l ps -> forEach draw l ctx = Returned (ctx ++ ps).
Proof.
  intro HF. revert ctx. induction HF as [|it p l ps Hp HF IH]; intro ctx.
  - cbn. rewrite app_nil_r. reflexivity.
  - cbn [forEach]. rewrite (Hp ctx), IH, <- app_assoc. reflexivity.
Qed.

(** With the camera level (pitch 0, yaw 0) the projection uses the
    cosine and the sine at 0 only, which ECMAScript fixes at 1 and 0:
    under any binary64 cosine and sine with these two values it is the
    projection under [levelTrig]. *)
Lemma project_level (Tr : Trig float) (vw : View (T:=float))
  (p : P3.t float) (w h : float) :
  @mcos float Tr 0%float = 1%float -> @msin float Tr 0%float = 0%float ->
  camera vw = {| P2.x := 0%float; P2.y := 0%float |} ->
  @project float _ Tr vw p w h = @project float _ levelTrig vw p w h.
Proof.
  intros Hc Hs Hcam. unfold project, rotateX, rotateY. rewrite Hcam.
  cbn [P2.x P2.y]. rewrite Hc, Hs. reflexivity.
Qed.

Lemma renderList_level (Tr : Trig float) (m : Matrix3x3 (T:=float))
  (vw : View (T:=float)) (w h : float) :
  @mcos float Tr 0%float = 1%float -> @msin float Tr 0%float = 0%float ->
  camera vw = {| P2.x := 0%float; P2.y := 0%float |} ->
  @renderList float _ Tr m vw w h = @renderList float _ levelTrig m vw w h.
Proof.
  intros Hc Hs Hcam.
  assert (P : forall p, @project float _ Tr vw p w h
                        = @project float _ levelTrig vw p w h)
    by (intro p; apply project_level; assumption).
  unfold renderList. f_equal; [ | f_equal ].
  - unfold gridLines. f_equal; [ | f_equal ];
      apply flat_map_ext; intro u; apply map_ext; intro v;
      unfold addLine; cbv zeta; rewrite !P; reflexivity.
  - unfold basisVectors, addVector. cbv zeta. rewrite !P. reflexivity.
  - unfold cubeFaces. cbv zeta.
    rewrite (map_ext (fun p => @project float _ Tr vw (transform3D p m) w h)
                     (fun p => @project float _ levelTrig vw
                                 (transform3D p m) w h)
                     (fun p => P (transform3D p m))).
    reflexivity.
Qed.

(** C7.  The 3D frame, for any list of render items, over the reals
    and then on one frame in binary64.
    Over the reals: the sort keeps every item and orders them furthest
    first; [flush] runs the callbacks in that order, so when each
    callback paints, the canvas receives the paints in descending depth.
    A vector's key is its mean depth minus 100, a line's key is its mean
    depth and a face's key is its mean depth plus 50; so a line whose
    depth is less than 100 away from a vector's depth, and a face whose
    depth is at most 100 away, are painted before that vector, the
    vector on top.  In the frame's own list the lines are queued before
    the vectors and the sort is stable, so there a line exactly 100 away
    is painted before the vector too.
    In binary64 the two biases are lost once the depths are large.  In
    3D mode, press at (400, 300) and move to (340, 340) from the default
    camera, which levels it (pitch 0, yaw 0), and type 9e18 into the
    cell i;
    on the 30th frame of the glide the cell is 8.6184795755230536e18
    and the glide is still running.  The basis vector k and the left
    face of the unit cube (the corners 0, 4, 7, 3) then have the same
    mean depth 4.3092397877615268e18, and at that size subtracting 100
    and adding 50 change nothing: both keys are that depth.  The vector
    was queued first and the sort is stable, so the frame paints the
    vector k at position 43 and the face right after it, at position 44,
    over the vector.  This holds under any binary64 cosine and sine that
    give 1 and 0 at 0. *)
Theorem render_order (items : list (RenderItem (T:=R))) :
  let sorted := sort byDepth items in
  (Permutation items sorted /\
   StronglySorted (fun a b => z b <= z a) sorted /\
   forall ps ctx, Forall2 paints sorted ps ->
                  flush items ctx = Returned (ctx ++ ps))
  /\
  (forall m vw w h v color label,
     z (addVector m vw w h v color label)
       = segmentDepth m vw w h origin v - 100)
  /\
  (forall m vw w h v color label p1 p2 lcolor width dashed,
     let arrow := addVector m vw w h v color label in
     let line := addLine m vw w h p1 p2 lcolor width dashed in
     In line items ->
     Rabs (segmentDepth m vw w h p1 p2 - segmentDepth m vw w h origin v)
       < 100 ->
     precedes line arrow sorted)
  /\
  (forall m vw w h v color label pts,
     let arrow := addVector m vw w h v color label in
     let face := addFace m pts in
     In face items ->
     Rabs (faceDepth pts - segmentDepth m vw w h origin v) <= 100 ->
     precedes face arrow sorted)
  /\
  (forall m vw w h v color label p1 p2 lcolor width dashed,
     let arrow := addVector m vw w h v color label in
     let line := addLine m vw w h p1 p2 lcolor width dashed in
     In line (gridLines m vw w h) -> In arrow (basisVectors m vw w h) ->
     Rabs (segmentDepth m vw w h p1 p2 - segmentDepth m vw w h origin v)
       <= 100 ->
     precedes line arrow (sort byDepth (renderList m vw w h)))
  /\
  (forall Tr : Trig float,
     @mcos float Tr 0%float = 1%float -> @msin float Tr 0%float = 0%float ->
     let pressed :=
       handleMouseDown true {| clientX := 400%float; clientY := 300%float |}
         {| view := initialView; dragging := None;
            lastMouse := {| P2.x := 0%float; P2.y := 0%float |} |} in
     let vw :=
       view (handleMouseMove
               {| clientX := 340%float; clientY := 340%float |} pressed) in
     let cells :=
       MatrixTransformAnimation.animates3D 30
         (MatrixTransformAnimation.update3D_i "9e18"
            {| MatrixTransformAnimation.targetMatrix3D :=
                 MatrixTransformAnimation.identity3D;
               MatrixTransformAnimation.currentMatrix3D :=
                 MatrixTransformAnimation.identity3D;
               MatrixTransformAnimation.animating3D := false |}) in
     let m := MatrixTransformAnimation.currentMatrix3D cells in
     let w := 800%float in
     let h := 600%float in
     let k := {| P3.x := 0%float; P3.y := 0%float; P3.z := 1%float |} in
     let pOrigin := project vw (transform3D origin m) w h in
     let pEnd := project vw (transform3D k m) w h in
     let leftFace :=
       map (fun p => project vw (transform3D p m) w h)
           [ {| P3.x := 0%float; P3.y := 0%float; P3.z := 0%float |};
             {| P3.x := 0%float; P3.y := 0%float; P3.z := 1%float |};
             {| P3.x := 0%float; P3.y := 1%float; P3.z := 1%float |};
             {| P3.x := 0%float; P3.y := 1%float; P3.z := 0%float |} ] in
     camera vw = {| P2.x := 0%float; P2.y := 0%float |} /\
     MatrixTransformAnimation.animating3D cells = true /\
     i m = 8.6184795755230536e+18%float /\
     segmentDepth m vw w h origin k = 4.3092397877615268e+18%float /\
     faceDepth leftFace = 4.3092397877615268e+18%float /\
     z (addVector m vw w h k "#3b82f6" "k") = 4.3092397877615268e+18%float /\
     z (addFace m leftFace) = 4.3092397877615268e+18%float /\
     exists ps,
       draw3D m vw w h [] = Returned ps /\
       nth_error ps 43 = Some (PaintArrow pOrigin pEnd "#3b82f6" "k") /\
       nth_error ps 44 = Some (PaintFace leftFace (det3D m >=? ofZ 0)%js)).
Proof.
  cbv zeta. split; [ | split; [ | split; [ | split; [ | split ] ] ] ];
    cycle 4.
  { intros m vw w h v color label p1 p2 lcolor width dashed Hl Ha Habs.
    apply frame_line_precedes_arrow; [ exact Hl | exact Ha | ].
    unfold addVector, addLine. cbn [z].
    fold (segmentDepth m vw w h origin v) (segmentDepth m vw w h p1 p2).
    apply Rabs_le_between in Habs. unR. lra. }
  { intros Tr Hc Hs.
    set (vw := view (handleMouseMove _ _)).
    set (m := MatrixTransformAnimation.currentMatrix3D _).
    assert (Hcam : camera vw = {| P2.x := 0%float; P2.y := 0%float |})
      by (vm_compute; reflexivity).
    assert (P : forall p w h, @project float _ Tr vw p w h
                              = @project float _ levelTrig vw p w h)
      by (intros; apply project_level; assumption).
    split; [ exact Hcam | ].
    split; [ vm_compute; reflexivity | ].
    split; [ vm_compute; reflexivity | ].
    split; [ unfold segmentDepth; cbv zeta; rewrite !P; vm_compute;
             reflexivity | ].
    cbn [map]. rewrite !P.
    split; [ vm_compute; reflexivity | ].
    split; [ unfold addVector; cbv zeta; rewrite !P; vm_compute;
             reflexivity | ].
    split; [ vm_compute; reflexivity | ].
    unfold draw3D.
    rewrite (@renderList_level Tr m vw 800%float 600%float Hc Hs Hcam).
    remember (flush (@renderList float _ levelTrig m vw 800%float 600%float)
                    []) as r eqn:Hr.
    vm_compute in Hr. subst r.
    eexists. split; [ reflexivity | ].
    split; vm_compute; reflexivity. }
  - split; [ apply sort_perm | ]. split; [ apply sort_sorted | ].
    intros ps ctx HF. unfold flush. apply forEach_paints, HF.
  - intros. reflexivity.
  - intros m vw w h v color label p1 p2 lcolor width dashed Hin Habs.
    apply deeper_precedes; [ exact Hin | ].
    unfold addVector, addLine. cbn [z].
    fold (segmentDepth m vw w h origin v) (segmentDepth m vw w h p1 p2).
    apply Rabs_def2 in Habs. unR. lra.
  - intros m vw w h v color label pts Hin Habs.
    apply deeper_precedes; [ exact Hin | ].
    unfold addVector, addFace. cbn [z].
    fold (segmentDepth m vw w h origin v).
    apply Rabs_le_between in Habs. unR. lra.
Qed.

(** [render_order] on three items seen with a level camera under the
    identity matrix: the x axis of the grid (depth 0), the basis vector k
    (depth 1/2, key -99.5) and the back face of the unit cube (depth 0,
    key 50); on their own and within the frame's full list. *)
Lemma render_order_witness :
  let m := {| a := 1; b := 0; c := 0; d := 0; e := 1; f := 0;
              g := 0; h := 0; i := 1 |} in
  let vw := {| scale := 30; pan := {| P2.x := 0; P2.y := 0 |};
               camera := {| P2.x := 0; P2.y := 0 |} |} in
  let k := {| P3.x := 0; P3.y := 0; P3.z := 1 |} in
  let pts := [ {| P3.x := 400; P3.y := 300; P3.z := 0 |};
               {| P3.x := 430; P3.y := 300; P3.z := 0 |};
               {| P3.x := 430; P3.y := 270; P3.z := 0 |};
               {| P3.x := 400; P3.y := 270; P3.z := 0 |} ] in
  let arrow := addVector m vw 800 600 k "#3b82f6" "k" in
  let line := addLine m vw 800 600
                {| P3.x := -3; P3.y := 0; P3.z := 0 |}
                {| P3.x := 3; P3.y := 0; P3.z := 0 |} "#ef4444" 2 false in
  let face := addFace m pts in
  let items := [arrow; line; face] in
  precedes line arrow (sort byDepth items) /\
  precedes face arrow (sort byDepth items) /\
  precedes line arrow (sort byDepth (renderList m vw 800 600)) /\
  (exists pf pl pa,
     paints face pf /\ paints line pl /\ paints arrow pa /\
     flush items [] = Returned [pf; pl; pa]).
Proof.
  intros m vw k pts arrow line face items.
  destruct (render_order items)
    as ((_ & _ & Hflush) & _ & Hline & Hface & Hframe & _).
  split; [ | split; [ | split ] ].
  - apply Hline; [ right; left; reflexivity | ].
    unfold segmentDepth, project, transform3D, rotateX, rotateY, origin, m, vw, k.
    cbn [a b c d e f g h i scale pan camera P2.x P2.y P3.x P3.y P3.z].
    unR. rewrite cos_0, sin_0. apply Rabs_def1; lra.
  - apply Hface; [ right; right; left; reflexivity | ].
    unfold faceDepth, segmentDepth, project, transform3D, rotateX, rotateY,
      origin, m, vw, k, pts.
    cbn [a b c d e f g h i scale pan camera P2.x P2.y P3.x P3.y P3.z
         fold_left].
    unR. rewrite cos_0, sin_0. apply Rabs_le; lra.
  - apply (Hframe m vw 800 600 k "#3b82f6"%string "k"%string
             {| P3.x := -3; P3.y := 0; P3.z := 0 |}
             {| P3.x := 3; P3.y := 0; P3.z := 0 |} "#ef4444"%string 2 false).
    + unfold gridLines. apply in_or_app. left.
      apply in_flat_map. exists 0%Z. split; [ cbn; tauto | ].
      apply in_map_iff. exists 0%Z. split; [ reflexivity | cbn; tauto ].
    + right. right. left. reflexivity.
    + unfold segmentDepth, project, transform3D, rotateX, rotateY, origin,
        m, vw, k.
      cbn [a b c d e f g h i scale pan camera P2.x P2.y P3.x P3.y P3.z].
      unR. rewrite cos_0, sin_0. apply Rabs_le; lra.
  - assert (Zl : z line = 0).
    { unfold line, addLine, project, transform3D, rotateX, rotateY, m, vw.
      cbn [z a b c d e f g h i scale pan camera P2.x P2.y P3.x P3.y P3.z].
      unR. rewrite cos_0, sin_0. lra. }
    assert (Za : z arrow = 1 / 2 - 100).
    { unfold arrow, addVector, project, transform3D, rotateX, rotateY, origin,
        m, vw, k.
      cbn [z a b c d e f g h i scale pan camera P2.x P2.y P3.x P3.y P3.z].
      unR. rewrite cos_0, sin_0. lra. }
    assert (Zf : z face = 50).
    { unfold face, addFace, faceDepth, pts. cbn [z fold_left P3.z]. unR. lra. }
    assert (Hsorted : sort byDepth items = [face; line; arrow]).
    { unfold items. cbn [sort insert].
      assert (H1 : (byDepth line face >? ofZ 0)%js = true)
        by (apply ltb_R_true; unfold byDepth; rewrite Zl, Zf; unR; lra).
      assert (H2 : (byDepth arrow face >? ofZ 0)%js = true)
        by (apply ltb_R_true; unfold byDepth; rewrite Za, Zf; unR; lra).
      assert (H3 : (byDepth arrow line >? ofZ 0)%js = true)
        by (apply ltb_R_true; unfold byDepth; rewrite Za, Zl; unR; lra).
      rewrite H1. cbn [insert]. rewrite H2. cbn [insert]. rewrite H3.
      reflexivity. }
    eexists. eexists. eexists.
    split; [ intro ctx; reflexivity | ].
    split; [ intro ctx; reflexivity | ].
    split; [ intro ctx; reflexivity | ].
    apply (Hflush _ []). rewrite Hsorted.
    repeat constructor; intro ctx; reflexivity.
Defined.

(** The same three keys in binary64, pushed in the source's order:
    the face (key 50) is painted first, then the line (key 0), then the
    arrow (key -99.5). *)
Example flush_float_run :
  let o := {| P3.x := 0%float; P3.y := 0%float; P3.z := 0%float |} in
  let mk ty key p :=
    {| type := ty; z := key; draw := fun ctx => Returned (ctx ++ [p]) |} in
  flush [ mk LINE 0%float (PaintLine o o "#ef4444" 2%float false);
          mk ARROW (0.5 - 100)%float (PaintArrow o o "#3b82f6" "k");
          mk FACE (0 + 50)%float (PaintFace [o] true) ] []
  = Returned [ PaintFace [o] true;
               PaintLine o o "#ef4444" 2%float false;
               PaintArrow o o "#3b82f6" "k" ].
Proof. vm_compute. reflexivity. Qed.

(** ** A callback that throws *)

(** C8, as the code has it.  [forEach] has no handler and neither [draw]
    wraps its calls in one: when a callback throws, the callbacks ordered
    before it have run, the throw leaves [forEach] with the canvas as it
    was at the throw, and none of the remaining callbacks runs, whatever
    they are.  This holds for the render list of MatrixTransformLevel
    ([flush]) as for any other [forEach], the prisms of
    IntegralVisualizer included.  When no callback throws, every one of
    them runs. *)
Theorem forEach_throw_aborts :
  (forall (A C : Type) (call : A -> C -> Outcome C)
          (l1 l2 l2' : list A) (it : A) (c c1 c' : C),
     forEach call l1 c = Returned c1 ->
     call it c1 = Thrown c' ->
     forEach call (l1 ++ it :: l2) c = Thrown c' /\
     forEach call (l1 ++ it :: l2') c = Thrown c')
  /\
  (forall (items l1 l2 : list (RenderItem (T:=R))) (it : RenderItem)
          (ctx c1 c' : Canvas),
     sort byDepth items = l1 ++ it :: l2 ->
     forEach draw l1 ctx = Returned c1 ->
     draw it c1 = Thrown c' ->
     flush items ctx = Thrown c')
  /\
  (forall (A C : Type) (call : A -> C -> Outcome C) (l : list A) (c : C),
     (forall it c0, In it l -> exists c1, call it c0 = Returned c1) ->
     exists c', forEach call l c = Returned c').
Proof.
  assert (Habort : forall (A C : Type) (call : A -> C -> Outcome C)
            (l1 l2 : list A) (it : A) (c c1 c' : C),
            forEach call l1 c = Returned c1 ->
            call it c1 = Thrown c' ->
            forEach call (l1 ++ it :: l2) c = Thrown c').
  { intros A C call l1 l2 it. induction l1 as [|y l1 IH]; intros c0 c1 c' H1 Hit.
    - cbn in H1. injection H1 as <-. cbn [app forEach]. rewrite Hit. reflexivity.
    - cbn [app forEach] in *. destruct (call y c0) as [cy|cy]; [ | discriminate ].
      eapply IH; eassumption. }
  split; [ | split ].
  - intros A C call l1 l2 l2' it c0 c1 c' H1 Hit.
    split; eapply Habort; eassumption.
  - intros items l1 l2 it ctx c1 c' Hsort H1 Hit.
    unfold flush. rewrite Hsort. eapply Habort; eassumption.
  - intros A C call l. induction l as [|it l IH]; intros c0 Hret.
    + exists c0. reflexivity.
    + destruct (Hret it c0 (or_introl eq_refl)) as (c1 & Hc1).
      cbn [forEach]. rewrite Hc1. apply IH.
      intros it' c2 Hin. apply Hret. right. exact Hin.
Qed.

(** [forEach_throw_aborts] on three callbacks of which the second
    throws: the first has painted, the third never runs; and on a render
    list whose deepest item throws: nothing is painted. *)
Lemma forEach_throw_aborts_witness :
  let paint (n : nat) (ctx : list nat) := Returned (ctx ++ [n]) in
  let boom (ctx : list nat) := Thrown (C:=list nat) ctx in
  forEach (fun cb ctx => cb ctx) [paint 1%nat; boom; paint 3%nat] []
    = Thrown [1%nat] /\
  forEach (fun cb ctx => cb ctx) [paint 1%nat; boom] [] = Thrown [1%nat] /\
  (exists c', forEach (fun cb ctx => cb ctx) [paint 1%nat; paint 3%nat] []
              = Returned c') /\
  flush [ {| type := LINE; z := 1;
             draw := fun ctx => Returned (ctx ++ [PaintFace [] true]) |};
          {| type := FACE; z := 2; draw := fun ctx => Thrown ctx |} ] []
    = Thrown [].
Proof.
  intros paint boom.
  destruct forEach_throw_aborts as (Habort & Hflush & Hall).
  destruct (Habort _ _ (fun (cb : list nat -> Outcome (list nat)) ctx => cb ctx)
              [paint 1%nat] [paint 3%nat] [] boom [] [1%nat] [1%nat]
              eq_refl eq_refl) as [H1 H2].
  split; [ exact H1 | ]. split; [ exact H2 | ]. split.
  - apply Hall. intros it c0 [<- | [<- | []]]; eexists; reflexivity.
  - apply (Hflush _ [] [ {| type := LINE; z := 1;
                           draw := fun ctx => Returned (ctx ++ [PaintFace [] true]) |} ]
                  {| type := FACE; z := 2; draw := fun ctx => Thrown ctx |}
                  [] [] []); [ | reflexivity | reflexivity ].
    cbn [sort insert].
    match goal with
    | |- (if ?t then _ else _) = _ =>
      assert (Hc : t = true)
        by (apply ltb_R_true; unfold byDepth; cbn [z]; unR; lra);
      rewrite Hc
    end.
    reflexivity.
Defined.

(** The render queue of the source does not isolate a failing callback:
    with a thrower queued at depth 2 and a line at depth 1, the frame
    ends at the throw and the line is never painted. *)
Lemma render_queue_does_not_isolate :
  ~ isolates_failures (T:=float).
Proof.
  intro Hiso.
  pose (o := {| P3.x := 0%float; P3.y := 0%float; P3.z := 0%float |}).
  pose (p := PaintLine o o "#1e293b" 1%float false).
  pose (line := {| type := LINE; z := 1%float;
                   draw := fun ctx => Returned (ctx ++ [p]) |}).
  pose (boom := {| type := FACE; z := 2%float;
                   draw := fun ctx => Thrown ctx |}).
  destruct (Hiso [line; boom] [] line p) as (ctx' & Hflush & Hin).
  - left. reflexivity.
  - intro ctx. reflexivity.
  - assert (Hrun : flush [line; boom] [] = Thrown []) by (vm_compute; reflexivity).
    rewrite Hrun in Hflush.
    destruct Hflush as [Hf | Hf]; [ discriminate | ].
    injection Hf as <-. exact Hin.
Qed.

End RenderListFacts.

(** ** Numeric text fields *)

Section TextFieldFacts.
Import MatrixMultiplicationLevel MatrixTransform ColumnVector.
Local Open Scope string_scope.

(** The parser on a few inputs, in binary64. *)
Example parseFloat_float_runs :
  parseFloat (T:=float) "2.5" = Some 2.5%float /\
  parseFloat (T:=float) "  -0.75rest" = Some (-0.75)%float /\
  parseFloat (T:=float) "1e3" = Some 1000%float /\
  parseFloat (T:=float) ".5" = Some 0.5%float /\
  parseFloat (T:=float) "" = None /\
  parseFloat (T:=float) "abc" = None /\
  parseFloat (T:=float) "-" = None /\
  parseFloat (T:=float) "." = None.
Proof. repeat split; vm_compute; reflexivity. Qed.

(** C9, as the code has it, for any number type.  When the text does not
    parse, [updateMatrix] leaves the matrix as it was, while
    [ColumnVector.handleChange] stores 0 in the edited component and
    keeps the other two; no handler stores NaN.  When the text parses,
    [updateMatrix] stores the parsed number under the edited key. *)
Theorem unparsed_text_spec {T : Type} `{Number T} (val : string) :
  (parseFloat (T:=T) val = None ->
   (forall key matrix, updateMatrix key val matrix = matrix) /\
   (forall vec axis,
      handleChange vec axis val = setAxis vec axis (ofZ 0) /\
      getAxis (handleChange vec axis val) axis = ofZ 0 /\
      forall other, other <> axis ->
        getAxis (handleChange vec axis val) other = getAxis vec other))
  /\
  (forall num, parseFloat (T:=T) val = Some num ->
     forall key matrix,
       updateMatrix key val matrix = setKey matrix key num /\
       getKey (updateMatrix key val matrix) key = num).
Proof.
  split.
  - intro Hnan. split.
    + intros key matrix. unfold updateMatrix. rewrite Hnan. reflexivity.
    + intros vec axis. unfold handleChange, parseFloatOrZero. rewrite Hnan.
      split; [ reflexivity | ]. split.
      * destruct axis; reflexivity.
      * intros other Hother. destruct axis, other; try reflexivity;
          contradiction.
  - intros num Hnum key matrix. unfold updateMatrix. rewrite Hnum.
    split; [ reflexivity | destruct key; reflexivity ].
Qed.

(** [unparsed_text_spec] over the reals, on the text "abc" and on the
    text "2.5". *)
Lemma unparsed_text_spec_witness :
  let I2 := identity (T:=R) in
  let vecA := {| P3.x := 4%R; P3.y := 1%R; P3.z := 0%R |} in
  updateMatrix Kb "abc" I2 = I2 /\
  handleChange vecA AxisX "abc"
    = {| P3.x := 0%R; P3.y := 1%R; P3.z := 0%R |} /\
  getKey (updateMatrix Kb "2.5" I2) Kb = (25 / 10)%R.
Proof.
  intros I2 vecA.
  destruct (@unparsed_text_spec R _ "abc") as [Hnan _].
  destruct (Hnan eq_refl) as [Hm Hv].
  destruct (@unparsed_text_spec R _ "2.5") as [_ Hnum].
  split; [ apply Hm | ]. split.
  - apply (Hv vecA AxisX).
  - apply (Hnum (25 / 10)%R); reflexivity.
Defined.

(** The last known-good value is not retained by the column-vector
    fields: the text "abc" in the x field of A = (4, 1, 0) replaces 4
    by 0. *)
Lemma column_vector_resets_to_zero :
  handleChange {| P3.x := 4%R; P3.y := 1%R; P3.z := 0%R |} AxisX "abc"
    = {| P3.x := 0%R; P3.y := 1%R; P3.z := 0%R |} /\
  ~ retains_last_good (T:=R).
Proof.
  split; [ reflexivity | ].
  intro Hkeep. destruct (Hkeep "abc" eq_refl) as [_ Hvec].
  specialize (Hvec {| P3.x := 4%R; P3.y := 1%R; P3.z := 0%R |} AxisX).
  cbv in Hvec. injection Hvec as Hx. lra.
Qed.

End TextFieldFacts.

(** * Further properties *)

(** ** Gradient descent: the fields *)

Section GradientFields.
Import GradientDescent.
Local Open Scope R_scope.

Lemma derivable_pt_lim_ext (g h : R -> R) (x l : R) :
  (forall t, g t = h t) -> derivable_pt_lim g x l -> derivable_pt_lim h x l.
Proof.
  intros E D eps Heps. destruct (D eps Heps) as [delta Hd].
  exists delta. intros k Hk Hlt. rewrite <- !E. apply Hd; assumption.
Qed.

Lemma derivable_pt_lim_eq (g : R -> R) (x l l' : R) :
  derivable_pt_lim g x l' -> l' = l -> derivable_pt_lim g x l.
Proof. intros D E. rewrite <- E. exact D. Qed.

(** The derivative of [t * t + c] scaled by [k], in either variable. *)
Lemma quadratic_derivative (c k x : R) :
  derivable_pt_lim (fun t => (t * t + c) * k) x (2 * x * k).
Proof.
  apply derivable_pt_lim_ext
    with (g := ((id * id + fct_cte c) * fct_cte k)%F); [ reflexivity | ].
  eapply derivable_pt_lim_eq.
  - apply derivable_pt_lim_mult.
    + apply derivable_pt_lim_plus.
      * apply derivable_pt_lim_mult; apply derivable_pt_lim_id.
      * apply derivable_pt_lim_const.
    + apply derivable_pt_lim_const.
  - unfold plus_fct, mult_fct, fct_cte, id. ring.
Qed.

(** The derivative of [c - t * t] scaled by [k]. *)
Lemma quadratic_derivative_neg (c k x : R) :
  derivable_pt_lim (fun t => (c - t * t) * k) x (- (2 * x) * k).
Proof.
  apply derivable_pt_lim_ext
    with (g := ((fct_cte c - id * id) * fct_cte k)%F); [ reflexivity | ].
  eapply derivable_pt_lim_eq.
  - apply derivable_pt_lim_mult.
    + apply derivable_pt_lim_minus.
      * apply derivable_pt_lim_const.
      * apply derivable_pt_lim_mult; apply derivable_pt_lim_id.
    + apply derivable_pt_lim_const.
  - unfold minus_fct, mult_fct, fct_cte, id. ring.
Qed.

(** The derivative of [cos t + c + (t * t + d) * k]. *)
Lemma wave_derivative (c d k x : R) :
  derivable_pt_lim (fun t => cos t + c + (t * t + d) * k) x
                   (- sin x + 2 * x * k).
Proof.
  apply derivable_pt_lim_ext
    with (g := (cos + fct_cte c + (fun t => ((t * t + d) * k)%R))%F);
    [ reflexivity | ].
  eapply derivable_pt_lim_eq.
  - apply derivable_pt_lim_plus.
    + apply derivable_pt_lim_plus.
      * apply derivable_pt_lim_cos.
      * apply derivable_pt_lim_const.
    + apply quadratic_derivative.
  - ring.
Qed.

(** X1.  Over the reals.  For each of the three entries of [FUNCTIONS]
    (bowl, waves, saddle) the declared [df_dx] and [df_dy] are the partial
    derivatives of the declared [f] at every point: the stepper follows
    the true gradient of the surface it draws. *)
Theorem FUNCTIONS_gradient (fn : Func (T:=R)) (x y : R) :
  In fn FUNCTIONS ->
  derivable_pt_lim (fun t => f fn t y) x (df_dx fn x y) /\
  derivable_pt_lim (fun t => f fn x t) y (df_dy fn x y).
Proof.
  intros [E | [E | [E | []]]]; subst fn; cbn [f df_dx df_dy bowl waves saddle];
    unR; split.
  - eapply derivable_pt_lim_eq; [ apply (quadratic_derivative (y * y) (/ 4)) | ].
    lra.
  - apply derivable_pt_lim_ext with (g := fun t => (t * t + x * x) * / 4);
      [ intro t; unfold Rdiv; ring | ].
    eapply derivable_pt_lim_eq; [ apply quadratic_derivative | ]. lra.
  - apply derivable_pt_lim_ext
      with (g := fun t => cos t + cos y + (t * t + y * y) * / 10);
      [ intro t; reflexivity | ].
    eapply derivable_pt_lim_eq; [ apply wave_derivative | ]. lra.
  - apply derivable_pt_lim_ext
      with (g := fun t => cos t + cos x + (t * t + x * x) * / 10);
      [ intro t; unfold Rdiv; ring | ].
    eapply derivable_pt_lim_eq; [ apply wave_derivative | ]. lra.
  - apply derivable_pt_lim_ext with (g := fun t => (t * t + - (y * y)) * / 4);
      [ intro t; unfold Rdiv; ring | ].
    eapply derivable_pt_lim_eq; [ apply quadratic_derivative | ]. lra.
  - eapply derivable_pt_lim_eq;
      [ apply (quadratic_derivative_neg (x * x) (/ 4)) | ]. lra.
Qed.

Lemma FUNCTIONS_gradient_witness :
  derivable_pt_lim (fun t => f (T:=R) saddle t 3) 1 (df_dx saddle 1 3) /\
  derivable_pt_lim (fun t => f (T:=R) saddle 1 t) 3 (df_dy saddle 1 3).
Proof.
  apply (@FUNCTIONS_gradient saddle 1 3). right. right. left. reflexivity.
Defined.

End GradientFields.


(** ** Gradient descent: every accepted step descends, every run halts *)

Section GradientDescentRuns.
Import GradientDescent.
Local Open Scope R_scope.

(** The sine moves no faster than its argument. *)
Lemma sin_slope (a c : R) :
  (0 <= c -> sin a - sin (a + c) <= c) /\
  (c <= 0 -> c <= sin a - sin (a + c)).
Proof.
  assert (D : forall u v : R, u < v ->
            exists w, sin v - sin u = cos w * (v - u)).
  { intros u v Huv.
    destruct (MVT_cor2 sin cos u v Huv) as (w & Hw & _).
    - intros; apply derivable_pt_lim_sin.
    - exists w. exact Hw. }
  split; intro Hc.
  - destruct (Req_dec c 0) as [-> | Hne].
    + rewrite Rplus_0_r. lra.
    + destruct (D a (a + c)) as (w & Hw); [ lra | ].
      pose proof (COS_bound w). nra.
  - destruct (Req_dec c 0) as [-> | Hne].
    + rewrite Rplus_0_r. lra.
    + destruct (D (a + c) a) as (w & Hw); [ lra | ].
      pose proof (COS_bound w). nra.
Qed.

(** The cosine lies below its tangent parabola of curvature 1. *)
Lemma cos_quadratic (a t : R) :
  cos (a + t) <= cos a - t * sin a + t * t / 2.
Proof.
  pose (psi := fun u : R => cos a - u * sin a + u * u / 2 - cos (a + u)).
  pose (psi' := fun u : R => - sin a + u + sin (a + u)).
  assert (Dpsi : forall u, derivable_pt_lim psi u (psi' u)).
  { intro u. unfold psi, psi'.
    apply derivable_pt_lim_ext
      with (g := ((fct_cte (cos a) - id * fct_cte (sin a)
                   + (id * id) * fct_cte (/ 2))
                  - comp cos (fct_cte a + id))%F).
    { intro v. unfold plus_fct, minus_fct, mult_fct, fct_cte, id, comp.
      unfold Rdiv. ring. }
    eapply derivable_pt_lim_eq.
    - apply derivable_pt_lim_minus.
      + apply derivable_pt_lim_plus.
        * apply derivable_pt_lim_minus.
          -- apply derivable_pt_lim_const.
          -- apply derivable_pt_lim_mult;
               [ apply derivable_pt_lim_id | apply derivable_pt_lim_const ].
        * apply derivable_pt_lim_mult.
          -- apply derivable_pt_lim_mult; apply derivable_pt_lim_id.
          -- apply derivable_pt_lim_const.
      + apply derivable_pt_lim_comp.
        * apply derivable_pt_lim_plus;
            [ apply derivable_pt_lim_const | apply derivable_pt_lim_id ].
        * apply derivable_pt_lim_cos.
    - unfold plus_fct, minus_fct, mult_fct, fct_cte, id. field. }
  assert (H0 : psi 0 = 0).
  { unfold psi. rewrite Rplus_0_r. lra. }
  assert (Hpsi : 0 <= psi t).
  { destruct (Rtotal_order t 0) as [Hlt | [-> | Hgt]].
    - destruct (MVT_cor2 psi psi' t 0 Hlt) as (w & Hw & Hwt).
      { intros; apply Dpsi. }
      destruct (sin_slope a w) as [_ Hs]. unfold psi' in Hw.
      specialize (Hs ltac:(lra)). nra.
    - lra.
    - destruct (MVT_cor2 psi psi' 0 t Hgt) as (w & Hw & Hwt).
      { intros; apply Dpsi. }
      destruct (sin_slope a w) as [Hs _]. unfold psi' in Hw.
      specialize (Hs ltac:(lra)). nra. }
  unfold psi in Hpsi. lra.
Qed.

(** One coordinate of the waves: a step against the slope. *)
Lemma wave_gain (lr x : R) :
  let g := - sin x + x / 5 in
  cos (x - lr * g) + (x - lr * g) * (x - lr * g) / 10
    <= cos x + x * x / 10 - lr * (1 - 3 / 5 * lr) * (g * g).
Proof.
  intro g. pose proof (cos_quadratic x (- (lr * g))) as Hc.
  replace (x + - (lr * g)) with (x - lr * g) in Hc by ring.
  unfold g in *. nra.
Qed.

(** The squared norm of the declared gradient. *)
Lemma descent_gain (fn : Func (T:=R)) (lr : R) (p : P2.t R) :
  In fn FUNCTIONS -> 0 < lr < 5 / 3 ->
  f fn (nextX fn lr p) (nextY fn lr p)
    <= f fn (P2.x p) (P2.y p)
       - lr * (1 - 3 / 5 * lr)
         * (sq (df_dx fn (P2.x p) (P2.y p)) + sq (df_dy fn (P2.x p) (P2.y p))).
Proof.
  destruct p as [x y].
  intros [E | [E | [E | []]]] Hlr; subst fn;
    cbv [nextX nextY f df_dx df_dy bowl waves saddle P2.x P2.y]; unR.
  - nra.
  - pose proof (wave_gain lr x) as Hx. pose proof (wave_gain lr y) as Hy.
    cbv zeta in Hx, Hy. lra.
  - nra.
Qed.

(** The displacement is the learning rate times the gradient's norm. *)
Lemma dist_gradient (fn : Func (T:=R)) (lr : R) (p : P2.t R) :
  dist fn lr p
    = sqrt (lr * lr * (sq (df_dx fn (P2.x p) (P2.y p))
                       + sq (df_dy fn (P2.x p) (P2.y p)))).
Proof.
  cbv [dist nextX nextY]. unR. f_equal. ring.
Qed.

(** The branch [step] takes, read off its result. *)
Lemma step_rejected (fn : Func (T:=R)) (lr : R) (s : Algo) :
  ((dist fn lr (position s) <? dec 1 1000)
   || (dist fn lr (position s) >? ofZ 10))%js = true ->
  step fn lr s
    = {| position := position s; path := path s; iteration := iteration s;
         isRunning := false |}.
Proof. intro Hg. unfold step. cbv zeta. rewrite Hg. reflexivity. Qed.

Lemma step_accepted (fn : Func (T:=R)) (lr : R) (s : Algo) :
  ((dist fn lr (position s) <? dec 1 1000)
   || (dist fn lr (position s) >? ofZ 10))%js = false ->
  step fn lr s
    = {| position := {| P2.x := nextX fn lr (position s);
                        P2.y := nextY fn lr (position s) |};
         path := path s ++ [ {| P3.x := P2.x (position s);
                                P3.y := f fn (P2.x (position s))
                                             (P2.y (position s));
                                P3.z := P2.y (position s) |} ];
         iteration := iteration s + 1;
         isRunning := isRunning s |}.
Proof. intro Hg. unfold step. cbv zeta. rewrite Hg. reflexivity. Qed.

(** An accepted displacement bounds the gradient from below and above. *)
Lemma accepted_bounds (fn : Func (T:=R)) (lr : R) (p : P2.t R) :
  0 < lr ->
  ((dist fn lr p <? dec 1 1000) || (dist fn lr p >? ofZ 10))%js = false ->
  let G := sq (df_dx fn (P2.x p) (P2.y p)) + sq (df_dy fn (P2.x p) (P2.y p)) in
  1 / 1000000 <= lr * lr * G <= 100.
Proof.
  intros Hlr Hg G. apply orb_false_iff in Hg. destruct Hg as [Hlo Hhi].
  rewrite dist_gradient in Hlo, Hhi. fold G in Hlo, Hhi.
  apply ltb_R_false in Hlo. apply ltb_R_false in Hhi. unR.
  assert (HG : 0 <= lr * lr * G).
  { unfold G. unR. nra. }
  split.
  - apply Rnot_lt_le. intro Hlt.
    assert (sqrt (lr * lr * G) < 1 / 1000) by (apply sqrt_lt_bound; lra).
    lra.
  - apply Rnot_lt_le. intro Hlt.
    assert (10 < sqrt (lr * lr * G)) by (apply sqrt_gt_bound; lra).
    lra.
Qed.

(** An accepted step lowers [f] by a fixed amount, and is taken from a
    point where [f] is bounded below. *)
Lemma accepted_gain (fn : Func (T:=R)) (lr : R) (p : P2.t R) :
  In fn FUNCTIONS -> 0 < lr < 5 / 3 ->
  ((dist fn lr p <? dec 1 1000) || (dist fn lr p >? ofZ 10))%js = false ->
  f fn (nextX fn lr p) (nextY fn lr p)
    <= f fn (P2.x p) (P2.y p) - (1 - 3 / 5 * lr) / lr / 1000000.
Proof.
  intros Hfn Hlr Hg.
  pose proof (descent_gain p Hfn Hlr) as Hd.
  pose proof (@accepted_bounds fn lr p ltac:(lra) Hg) as [Hlo _].
  cbv zeta in Hlo. clear Hg. unR.
  set (G := df_dx fn (P2.x p) (P2.y p) * df_dx fn (P2.x p) (P2.y p)
            + df_dy fn (P2.x p) (P2.y p) * df_dy fn (P2.x p) (P2.y p)) in *.
  assert (Hk : (1 - 3 / 5 * lr) / lr / 1000000 <= lr * (1 - 3 / 5 * lr) * G).
  { assert (Hc : 0 < 1 - 3 / 5 * lr) by lra.
    replace (lr * (1 - 3 / 5 * lr) * G)
      with ((1 - 3 / 5 * lr) / lr * (lr * lr * G)) by (field; lra).
    assert (0 < (1 - 3 / 5 * lr) / lr) by (apply Rdiv_lt_0_compat; lra).
    unfold Rdiv at 1.
    apply Rmult_le_compat_l; [ lra | ]. lra. }
  lra.
Qed.

Lemma accepted_floor (fn : Func (T:=R)) (lr : R) (p : P2.t R) :
  In fn FUNCTIONS -> 0 < lr ->
  ((dist fn lr p <? dec 1 1000) || (dist fn lr p >? ofZ 10))%js = false ->
  - (2 + 100 / (lr * lr)) <= f fn (P2.x p) (P2.y p).
Proof.
  intros Hfn Hlr Hg.
  pose proof (@accepted_bounds fn lr p Hlr Hg) as [_ Hhi]. cbv zeta in Hhi.
  assert (Hq : 0 < 100 / (lr * lr)) by (apply Rdiv_lt_0_compat; nra).
  destruct p as [x y].
  destruct Hfn as [E | [E | [E | []]]]; subst fn;
    cbv [f df_dx df_dy bowl waves saddle P2.x P2.y] in *; unR.
  - nra.
  - pose proof (COS_bound x). pose proof (COS_bound y). nra.
  - assert (Hy : y * y / 4 <= 100 / (lr * lr)).
    { apply Rmult_le_reg_r with (lr * lr); [ nra | ].
      replace (100 / (lr * lr) * (lr * lr)) with 100 by (field; lra). nra. }
    nra.
Qed.

(** X2.  Over the reals.  On each of the three fields and for every
    learning rate in (0, 5/3), which contains the slider's range
    [0.01, 0.5], every step that is recorded (that raises [iteration])
    strictly lowers [f] at the probe, and by at least
    [(1 - 0.6 lr) / lr * 10^-6], from whatever state it is taken. *)
Theorem step_descends (fn : Func (T:=R)) (lr : R) (s : Algo) :
  In fn FUNCTIONS -> 0 < lr < 5 / 3 ->
  iteration (step fn lr s) <> iteration s ->
  let p := position s in
  let p' := position (step fn lr s) in
  f fn (P2.x p') (P2.y p')
    <= f fn (P2.x p) (P2.y p) - (1 - 3 / 5 * lr) / lr / 1000000
  /\ f fn (P2.x p') (P2.y p') < f fn (P2.x p) (P2.y p).
Proof.
  intros Hfn Hlr Hit p p'.
  destruct (((dist fn lr (position s) <? dec 1 1000)
             || (dist fn lr (position s) >? ofZ 10))%js) eqn:Hg.
  - rewrite (step_rejected _ _ _ Hg) in Hit. cbn [iteration] in Hit.
    congruence.
  - pose proof (accepted_gain (position s) Hfn Hlr Hg) as Hgain.
    unfold p'. rewrite (step_accepted _ _ _ Hg). cbn [position P2.x P2.y].
    fold p in Hgain |- *.
    assert (0 < (1 - 3 / 5 * lr) / lr / 1000000).
    { apply Rdiv_lt_0_compat; [ apply Rdiv_lt_0_compat | ]; lra. }
    split; lra.
Qed.

Lemma step_descends_witness :
  let s := started (T:=R) bowl in
  let p := position s in
  let p' := position (step bowl (1 / 10) s) in
  f bowl (P2.x p') (P2.y p')
    <= f bowl (P2.x p) (P2.y p) - (1 - 3 / 5 * (1 / 10)) / (1 / 10) / 1000000
  /\ f bowl (P2.x p') (P2.y p') < f bowl (P2.x p) (P2.y p).
Proof.
  intro s.
  apply (@step_descends bowl (1 / 10) s).
  - left. reflexivity.
  - lra.
  - assert (Ht : on_track 0 s).
    { unfold on_track, s. cbn. unR. repeat split; lra. }
    destruct (@on_track_far 0 s Ht ltac:(lia)) as [Hlo Hhi].
    rewrite step_accepted.
    + cbn [iteration]. lia.
    + change (1 / 10) with (dec (T:=R) 1 10). rewrite Hlo, Hhi. reflexivity.
Defined.

(** A stopped run stays as it is. *)
Lemma ticks_stopped {T} `{Number T} (n : nat) (fn : Func) (lr : T)
  (s : Algo) :
  isRunning s = false -> ticks n fn lr s = s.
Proof.
  intro Hs. induction n as [|n IH]; [ reflexivity | ].
  rewrite ticks_succ, IH. unfold tick. rewrite Hs. reflexivity.
Qed.

Lemma ticks_add {T} `{Number T} (m n : nat) (fn : Func) (lr : T)
  (s : Algo) :
  ticks (m + n) fn lr s = ticks n fn lr (ticks m fn lr s).
Proof.
  revert s. induction m as [|m IH]; intro s; [ reflexivity | ].
  cbn [Nat.add ticks]. apply IH.
Qed.

(** A run that is still going after a tick was going before it, and the
    tick was an accepted step. *)
Lemma tick_running (fn : Func (T:=R)) (lr : R) (s : Algo) :
  isRunning (tick fn lr s) = true ->
  isRunning s = true /\
  ((dist fn lr (position s) <? dec 1 1000)
   || (dist fn lr (position s) >? ofZ 10))%js = false /\
  position (tick fn lr s)
    = {| P2.x := nextX fn lr (position s); P2.y := nextY fn lr (position s) |}.
Proof.
  unfold tick. destruct (isRunning s) eqn:Hrun; [ | congruence ].
  destruct (((dist fn lr (position s) <? dec 1 1000)
             || (dist fn lr (position s) >? ofZ 10))%js) eqn:Hg.
  - rewrite (step_rejected _ _ _ Hg). cbn [isRunning]. discriminate.
  - rewrite (step_accepted _ _ _ Hg). cbn [isRunning position]. auto.
Qed.

(** While the run goes on, [f] at the probe has dropped by a fixed amount
    per tick. *)
Lemma running_energy (fn : Func (T:=R)) (lr : R) (s : Algo) (n : nat) :
  In fn FUNCTIONS -> 0 < lr < 5 / 3 ->
  isRunning (ticks n fn lr s) = true ->
  let q := position (ticks n fn lr s) in
  f fn (P2.x q) (P2.y q)
    <= f fn (P2.x (position s)) (P2.y (position s))
       - INR n * ((1 - 3 / 5 * lr) / lr / 1000000).
Proof.
  intros Hfn Hlr. induction n as [|n IH]; intros Hrun q.
  - unfold q. cbn [ticks INR]. lra.
  - unfold q. clear q. revert Hrun. rewrite ticks_succ.
    revert IH. generalize (ticks n fn lr s). intros a IH Hrun.
    destruct (tick_running _ _ _ Hrun) as (Ha & Hg & Hpos).
    specialize (IH Ha). cbv zeta in IH.
    pose proof (accepted_gain (position a) Hfn Hlr Hg) as Hgain.
    rewrite Hpos. cbn [P2.x P2.y]. rewrite S_INR. lra.
Qed.

Lemma nat_above (x : R) : exists n : nat, x < INR n.
Proof.
  destruct (archimed x) as [Hup _].
  exists (Z.to_nat (up x)).
  destruct (Z.le_gt_cases 0 (up x)) as [Hpos | Hneg].
  - rewrite INR_IZR_INZ, Z2Nat.id by exact Hpos. lra.
  - pose proof (pos_INR (Z.to_nat (up x))). apply IZR_lt in Hneg. lra.
Qed.

(** X3.  Over the reals.  On each of the three fields, for every learning
    rate in (0, 5/3) and from every state, the descent halts: after
    finitely many timer ticks [isRunning] is false, and from then on
    further ticks change nothing. *)
Theorem descent_halts (fn : Func (T:=R)) (lr : R) (s : Algo) :
  In fn FUNCTIONS -> 0 < lr < 5 / 3 ->
  exists n : nat,
    isRunning (ticks n fn lr s) = false /\
    forall m : nat, (n <= m)%nat -> ticks m fn lr s = ticks n fn lr s.
Proof.
  intros Hfn Hlr.
  set (c := (1 - 3 / 5 * lr) / lr / 1000000).
  assert (Hc : 0 < c).
  { apply Rdiv_lt_0_compat; [ apply Rdiv_lt_0_compat | ]; lra. }
  set (f0 := f fn (P2.x (position s)) (P2.y (position s))).
  destruct (nat_above ((f0 + (2 + 100 / (lr * lr))) / c)) as [N HN].
  assert (HNc : f0 - INR N * c < - (2 + 100 / (lr * lr))).
  { apply (Rmult_lt_compat_r c) in HN; [ | exact Hc ].
    replace ((f0 + (2 + 100 / (lr * lr))) / c * c)
      with (f0 + (2 + 100 / (lr * lr))) in HN by (field; lra).
    lra. }
  exists (S N).
  assert (Hstop : isRunning (ticks (S N) fn lr s) = false).
  { destruct (isRunning (ticks (S N) fn lr s)) eqn:Hrun; [ | reflexivity ].
    exfalso. rewrite ticks_succ in Hrun.
    destruct (tick_running _ _ _ Hrun) as (Ha & Hg & _).
    pose proof (running_energy s N Hfn Hlr Ha) as He. cbv zeta in He.
    pose proof (@accepted_floor fn lr _ Hfn ltac:(lra) Hg) as Hfl.
    fold c in He. fold f0 in He. lra. }
  split; [ exact Hstop | ].
  intros m Hm. replace m with (S N + (m - S N))%nat by lia.
  rewrite ticks_add. apply ticks_stopped. exact Hstop.
Qed.

Lemma descent_halts_witness :
  exists n : nat,
    isRunning (ticks n waves (1 / 2) (started (T:=R) waves)) = false /\
    forall m : nat, (n <= m)%nat ->
      ticks m waves (1 / 2) (started waves)
        = ticks n waves (1 / 2) (started waves).
Proof.
  apply (@descent_halts waves (1 / 2) (started waves)).
  - right. left. reflexivity.
  - lra.
Defined.

(** X4.  For every number type, field and learning rate.  The trail is
    kept in step with the counter and on the surface: if [path] has
    [iteration] entries, each of them a point [(x, f(x, z), z)] of the
    field's graph, then the same holds after any number of timer ticks.
    It holds in particular all along a run begun from [reset] or from the
    start button, where the trail is empty and the counter is 0. *)
Theorem trail_on_surface {T : Type} `{Number T} (fn : Func) (lr : T)
  (n : nat) (s : Algo) :
  List.length (path s) = iteration s ->
  Forall (fun q => P3.y q = f fn (P3.x q) (P3.z q)) (path s) ->
  List.length (path (ticks n fn lr s)) = iteration (ticks n fn lr s) /\
  Forall (fun q => P3.y q = f fn (P3.x q) (P3.z q))
         (path (ticks n fn lr s)).
Proof.
  intros Hlen0 Hall0.
  assert (Inv : forall a : Algo,
            List.length (path a) = iteration a /\
            Forall (fun q => P3.y q = f fn (P3.x q) (P3.z q)) (path a) ->
            List.length (path (tick fn lr a)) = iteration (tick fn lr a) /\
            Forall (fun q => P3.y q = f fn (P3.x q) (P3.z q))
                   (path (tick fn lr a))).
  { intros a [Hlen Hall]. unfold tick.
    destruct (isRunning a); [ | split; assumption ].
    unfold step. cbv zeta.
    destruct (_ || _)%bool; cbn [path iteration]; [ split; assumption | ].
    split.
    - rewrite length_app, Hlen. reflexivity.
    - apply Forall_app. split; [ exact Hall | ].
      constructor; [ reflexivity | constructor ]. }
  induction n as [|n IH].
  - cbn [ticks]. split; assumption.
  - rewrite ticks_succ. apply Inv, IH.
Qed.

Lemma trail_on_surface_witness :
  let s := ticks 3 saddle (dec 1 10) (started (T:=float) saddle) in
  List.length (path s) = iteration s /\
  Forall (fun q => P3.y q = f saddle (P3.x q) (P3.z q)) (path s).
Proof.
  intro s.
  apply (@trail_on_surface float _ saddle (dec 1 10) 3 (started saddle)).
  - reflexivity.
  - constructor.
Defined.

End GradientDescentRuns.


(** ** Gradient descent: the canvas' listeners *)

Section GradientDescentView.
Import GradientDescent.
Local Open Scope R_scope.

Lemma zoom_clamp (lo hi v : R) :
  lo <= hi -> lo <= Rmax lo (Rmin hi v) <= hi.
Proof.
  intro Hlh. split; [ apply Rmax_l | ].
  apply Rmax_lub; [ exact Hlh | apply Rmin_l ].
Qed.

Lemma handle_scale (fn : Func (T:=R)) (s : State (T:=R)) (ev : Event) :
  20 <= scale s <= 150 -> 20 <= scale (handle fn s ev) <= 150.
Proof.
  intro Hs. destruct ev as [cv e | e | | e]; cbn [handle].
  - unfold handleMouseDown. destruct (_ <? _)%js; exact Hs.
  - unfold handleMouseMove. destruct (dragging s) as [[|]|]; exact Hs.
  - exact Hs.
  - unfold handleWheel. cbn [scale]. unR. apply zoom_clamp. lra.
Qed.

Lemma handle_wheel_algo (e : WheelEvent) (s : State (T:=R)) :
  algo (handleWheel e s) = algo s /\ camera (handleWheel e s) = camera s /\
  pan (handleWheel e s) = pan s.
Proof. repeat split. Qed.

(** X5.  Over the reals.  The zoom of the gradient-descent canvas, which
    starts at 40, stays in [[20, 150]] under every sequence of canvas
    events (pointer down, move, up, wheel), so the drag sensitivity
    [1 / scale] is always defined; and a wheel event changes nothing but
    the zoom: the probe, its trail, the counter, the running flag, the
    camera and the pan are as before. *)
Theorem zoom_stays_in_range (fn : Func (T:=R)) (evs : list Event)
  (s : State (T:=R)) :
  20 <= scale s <= 150 ->
  20 <= scale (fold_left (handle fn) evs s) <= 150 /\
  forall e : WheelEvent,
    algo (handleWheel e s) = algo s /\ camera (handleWheel e s) = camera s /\
    pan (handleWheel e s) = pan s /\ dragging (handleWheel e s) = dragging s.
Proof.
  intro Hs. split.
  - revert s Hs. induction evs as [|ev evs IH]; intros s Hs; [ exact Hs | ].
    cbn [fold_left]. apply IH, handle_scale, Hs.
  - intro e. repeat split.
Qed.

Lemma zoom_stays_in_range_witness :
  let s := {| algo := started bowl; camera := {| P2.x := - (1 / 2); P2.y := 1 / 2 |};
              scale := 40; pan := {| P2.x := 0; P2.y := 0 |};
              dragging := None; lastMouse := {| P2.x := 0; P2.y := 0 |} |} in
  let evs := [ Wheel {| deltaY := -100 |}; Wheel {| deltaY := -100 |};
               MouseUp; Wheel {| deltaY := 100 |} ] in
  20 <= scale (fold_left (handle bowl) evs s) <= 150 /\
  forall e : WheelEvent,
    algo (handleWheel e s) = algo s /\ camera (handleWheel e s) = camera s /\
    pan (handleWheel e s) = pan s /\ dragging (handleWheel e s) = dragging s.
Proof.
  intros s evs. apply (@zoom_stays_in_range bowl evs s).
  unfold s. cbn [scale]. lra.
Defined.

End GradientDescentView.

(** ** The vector playground: dragging, orbiting and zooming *)

Section VectorPlaygroundFacts.
Import VectorPlayground VectorPlaygroundDrag.
Local Open Scope R_scope.

Lemma sin2_cos2_mult (a : R) : sin a * sin a + cos a * cos a = 1.
Proof. pose proof (sin2_cos2 a) as H. unfold Rsqr in H. exact H. Qed.

(** The projected tip after [updateVector], in the flat view. *)
Lemma updateVector_2D (vw : View (T:=R)) (dx dy w h : R) (v : P3.t R) :
  is3D vw = false -> scale vw <> 0 ->
  let t := project vw v w h in
  let t' := project vw (updateVector vw dx dy v) w h in
  P3.x t' = P3.x t + dx /\ P3.y t' = P3.y t + dy.
Proof.
  intros H2 Hs. unfold project, updateVector. rewrite H2.
  cbn [P3.x P3.y P3.z]. unR. split; field; exact Hs.
Qed.

(** ... and in the orbit view. *)
Lemma updateVector_3D (vw : View (T:=R)) (dx dy w h : R) (v : P3.t R) :
  is3D vw = true -> scale vw <> 0 ->
  let t := project vw v w h in
  let t' := project vw (updateVector vw dx dy v) w h in
  P3.x t' = P3.x t + dx /\
  P3.y t' = P3.y t + dy * cos (P2.x (cameraAngle vw)) /\
  P3.z t' = P3.z t - dy * sin (P2.x (cameraAngle vw)) / scale vw.
Proof.
  intros H3 Hs. unfold project, updateVector. rewrite H3.
  unfold rotateX, rotateY. cbn [P3.x P3.y P3.z]. unR.
  pose proof (sin2_cos2_mult (P2.y (cameraAngle vw))) as Hsc.
  set (c := cos (P2.y (cameraAngle vw))) in *.
  set (sn := sin (P2.y (cameraAngle vw))) in *.
  set (cp := cos (P2.x (cameraAngle vw))).
  set (sp := sin (P2.x (cameraAngle vw))).
  assert (Hx : dx * c * (1 / scale vw) * c + dx * sn * (1 / scale vw) * sn
               = dx / scale vw).
  { transitivity (dx / scale vw * (sn * sn + c * c)); [ field; exact Hs | ].
    rewrite Hsc. ring. }
  repeat split.
  - transitivity (w / 2 + P2.x (pan vw)
                  + (P3.x v * c + P3.z v * sn) * scale vw
                  + (dx * c * (1 / scale vw) * c
                     + dx * sn * (1 / scale vw) * sn) * scale vw);
      [ ring | ].
    rewrite Hx. field. exact Hs.
  - field. exact Hs.
  - field. exact Hs.
Qed.

(** X6.  Over the reals.  While a vector handle is dragged and the zoom
    is not zero, a pointer move of [(dx, dy)] pixels moves the projected
    tip of the dragged vector by exactly [(dx, dy)] pixels in the flat
    view, and in the orbit view by [dx] pixels horizontally and
    [dy * cos(pitch)] pixels vertically; the other vector and the view
    are untouched and the handle stays held. *)
Theorem drag_follows_pointer (h : Handle) (e : MouseEvent) (w ht : R)
  (s : State (T:=R)) :
  dragging s = Some h -> scale (view s) <> 0 ->
  let dx := clientX e - P2.x (lastMousePos s) in
  let dy := clientY e - P2.y (lastMousePos s) in
  let s' := handleMouseMove e s in
  P3.x (tip h s' w ht) = P3.x (tip h s w ht) + dx /\
  P3.y (tip h s' w ht)
    = P3.y (tip h s w ht)
      + (if is3D (view s) then dy * cos (P2.x (cameraAngle (view s)))
         else dy) /\
  view s' = view s /\ dragging s' = Some h /\
  match h with
  | HandleA => vecB s' = vecB s
  | HandleB => vecA s' = vecA s
  end.
Proof.
  intros Hd Hs dx dy s'. unfold s', handleMouseMove. rewrite Hd.
  unfold tip. fold dx dy.
  destruct h; cbn [view dragged vecA vecB dragging].
  - destruct (is3D (view s)) eqn:H3.
    + destruct (@updateVector_3D (view s) dx dy w ht (vecA s) H3 Hs)
        as (Hx & Hy & _).
      repeat split; assumption.
    + destruct (@updateVector_2D (view s) dx dy w ht (vecA s) H3 Hs)
        as (Hx & Hy).
      repeat split; assumption.
  - destruct (is3D (view s)) eqn:H3.
    + destruct (@updateVector_3D (view s) dx dy w ht (vecB s) H3 Hs)
        as (Hx & Hy & _).
      repeat split; assumption.
    + destruct (@updateVector_2D (view s) dx dy w ht (vecB s) H3 Hs)
        as (Hx & Hy).
      repeat split; assumption.
Qed.

Lemma drag_follows_pointer_witness :
  let s := {| vecA := {| P3.x := 4; P3.y := 1; P3.z := 0 |};
              vecB := {| P3.x := 1; P3.y := 3; P3.z := 0 |};
              view := {| is3D := true;
                         cameraAngle := {| P2.x := - (3 / 10); P2.y := 1 / 2 |};
                         scale := 40; pan := {| P2.x := 0; P2.y := 0 |} |};
              dragging := Some HandleA; isOrbiting := false;
              lastMousePos := {| P2.x := 100; P2.y := 100 |} |} in
  let e := {| clientX := 130; clientY := 90; buttons := 1 |} in
  let s' := handleMouseMove e s in
  P3.x (tip HandleA s' 800 600) = P3.x (tip HandleA s 800 600) + (130 - 100) /\
  P3.y (tip HandleA s' 800 600)
    = P3.y (tip HandleA s 800 600) + (90 - 100) * cos (- (3 / 10)) /\
  view s' = view s /\ dragging s' = Some HandleA /\ vecB s' = vecB s.
Proof.
  intros s e.
  apply (@drag_follows_pointer HandleA e 800 600 s).
  - reflexivity.
  - cbn. lra.
Defined.

Lemma handle_view (s : State (T:=R)) (ev : Event) :
  (10 <= scale (view s) <= 200 /\
   - (PI / 2) <= P2.x (cameraAngle (view s)) <= PI / 2) ->
  10 <= scale (view (handle s ev)) <= 200 /\
  - (PI / 2) <= P2.x (cameraAngle (view (handle s ev))) <= PI / 2.
Proof.
  intros [Hs Hp]. pose proof PI2_1 as Hpi.
  destruct ev as [cv e | e | | dY | | | ]; cbn [handle].
  - unfold handleMouseDown. cbv zeta.
    destruct (_ <? _)%js; [ | destruct (_ <? _)%js ]; cbn [view];
      split; assumption.
  - unfold handleMouseMove. cbv zeta.
    destruct (dragging s) as [[|]|]; cbn [view]; try (split; assumption).
    destruct (isOrbiting s && is3D (view s)).
    + cbn [view withCamera scale cameraAngle P2.x]. split; [ exact Hs | ].
      unR. cbv [mPI RCircle]. replace (- PI / 2) with (- (PI / 2)) by lra.
      apply zoom_clamp. lra.
    + destruct ((buttons e =? 1)%Z && negb (is3D (view s)));
        cbn [view withPan scale cameraAngle]; split; assumption.
  - cbn [handleMouseUp view]. split; assumption.
  - cbn [handleWheel view withScale scale cameraAngle]. split; [ | exact Hp ].
    unR. apply zoom_clamp. lra.
  - cbn [set2D view scale cameraAngle P2.x]. unR. split; lra.
  - cbn [set3D view scale cameraAngle P2.x]. unR. split; [ exact Hs | lra ].
  - cbn [resetView view scale cameraAngle P2.x]. unR. split; lra.
Qed.

(** X7.  Over the reals.  From the initial cells and under every
    sequence of canvas events and view buttons (pointer down, move, up,
    wheel, 2D, 3D, reset view), the zoom of the vector playground stays in
    [[10, 200]] and the camera pitch in [[-pi/2, pi/2]]: the scene is
    never turned upside down and a drag never divides by zero. *)
Theorem view_stays_in_range (evs : list (Event (T:=R))) :
  let s := fold_left handle evs initial in
  10 <= scale (view s) <= 200 /\
  - (PI / 2) <= P2.x (cameraAngle (view s)) <= PI / 2.
Proof.
  cbv zeta.
  assert (H0 : 10 <= scale (view (initial (T:=R))) <= 200 /\
               - (PI / 2) <= P2.x (cameraAngle (view (initial (T:=R))))
                 <= PI / 2).
  { pose proof PI2_1. cbn [initial view scale cameraAngle P2.x]. unR.
    split; lra. }
  revert H0. generalize (initial (T:=R)).
  induction evs as [|ev evs IH]; intros s Hs; [ exact Hs | ].
  cbn [fold_left]. apply IH, handle_view, Hs.
Qed.

End VectorPlaygroundFacts.

(** ** The dot-product level: the shadow of A on B *)

Section DotProductFacts.
Import DotProductLevel.
Local Open Scope R_scope.

Lemma jsOr_R (v d : R) : jsOr v d = if Req_dec_T v 0 then d else v.
Proof.
  unfold jsOr. unR.
  destruct (Rlt_dec v 0), (Rlt_dec 0 v), (Req_dec_T v 0); cbn; try reflexivity;
    lra.
Qed.

Lemma mag_sq (v : P3.t R) :
  sq (mag v) = P3.x v * P3.x v + P3.y v * P3.y v + P3.z v * P3.z v.
Proof. unfold mag. unR. apply sqrt_sqrt. nra. Qed.

Lemma sum_squares_zero (a b c : R) :
  a * a + b * b + c * c = 0 -> a = 0 /\ b = 0 /\ c = 0.
Proof. intro Hz. repeat split; nra. Qed.

(** X8.  Over the reals, for all vectors A and B.  The shadow [vecProj]
    of A on B has the same dot product with B as A has, so what is left
    of A after removing it is perpendicular to B; it is [scalarProj]
    times B; and when B is the zero vector the guard [|| 1] makes it the
    zero vector instead of dividing by zero. *)
Theorem vecProj_spec (vecA vecB : P3.t R) :
  dotProduct (vecProj vecA vecB) vecB = dotProduct vecA vecB /\
  dotProduct {| P3.x := P3.x vecA - P3.x (vecProj vecA vecB);
                P3.y := P3.y vecA - P3.y (vecProj vecA vecB);
                P3.z := P3.z vecA - P3.z (vecProj vecA vecB) |} vecB = 0 /\
  (mag vecB = 0 ->
   vecProj vecA vecB = {| P3.x := 0; P3.y := 0; P3.z := 0 |}).
Proof.
  destruct vecA as [ax ay az], vecB as [bx by_ bz].
  unfold vecProj, scalarProj. rewrite jsOr_R, mag_sq.
  unfold dotProduct. cbn [P3.x P3.y P3.z]. unR.
  destruct (Req_dec_T (bx * bx + by_ * by_ + bz * bz) 0) as [Hz | Hnz].
  - destruct (sum_squares_zero Hz) as (-> & -> & ->).
    repeat split; try ring. intros _. f_equal; ring.
  - repeat split; try (field; exact Hnz).
    intro Hm. exfalso. apply Hnz.
    unfold mag in Hm. cbn [P3.x P3.y P3.z] in Hm. unR.
    apply sqrt_eq_0 in Hm; [ exact Hm | nra ].
Qed.

Lemma cauchy_schwarz (ax ay az bx by_ bz : R) :
  (ax * bx + ay * by_ + az * bz) * (ax * bx + ay * by_ + az * bz)
    <= (ax * ax + ay * ay + az * az) * (bx * bx + by_ * by_ + bz * bz).
Proof.
  assert (H : (ax * ax + ay * ay + az * az) * (bx * bx + by_ * by_ + bz * bz)
              - (ax * bx + ay * by_ + az * bz) * (ax * bx + ay * by_ + az * bz)
              = (ax * by_ - ay * bx) * (ax * by_ - ay * bx)
                + (ax * bz - az * bx) * (ax * bz - az * bx)
                + (ay * bz - az * by_) * (ay * bz - az * by_)) by ring.
  pose proof (Rle_0_sqr (ax * by_ - ay * bx)) as H1.
  pose proof (Rle_0_sqr (ax * bz - az * bx)) as H2.
  pose proof (Rle_0_sqr (ay * bz - az * by_)) as H3.
  unfold Rsqr in H1, H2, H3. lra.
Qed.

(** X9.  The value handed to [Math.acos] for the angle.  Over the
    reals, for all vectors A and B, the quotient [A.B / (|A| |B|)] lies
    in [[-1, 1]], so there the clamp leaves it as it is, and the value is
    0 (a right angle is shown) when either vector is zero.  In binary64
    rounding can push the quotient above 1: for A = B = (3, 2, 0) the
    product [|A| |B|] is [12.999999999999998] and the quotient is
    [1.0000000000000002]; there the clamp cuts it to 1, the cosine of
    the angle 0 between a vector and itself. *)
Theorem cosArg_spec :
  (forall vecA vecB : P3.t R,
     -1 <= cosArg vecA vecB <= 1 /\
     (mag vecA * mag vecB <> 0 ->
      cosArg vecA vecB = dotProduct vecA vecB / (mag vecA * mag vecB)) /\
     (mag vecA * mag vecB = 0 -> cosArg vecA vecB = 0))
  /\
  (let v := {| P3.x := 3%float; P3.y := 2%float; P3.z := 0%float |} in
   (mag v * mag v)%js = 12.999999999999998%float /\
   (dotProduct v v / jsOr (mag v * mag v) (ofZ 1))%js
     = 1.0000000000000002%float /\
   (ofZ 1 <? dotProduct v v / jsOr (mag v * mag v) (ofZ 1))%js = true /\
   cosArg v v = 1%float).
Proof.
  split; [ | cbv zeta; repeat split; vm_compute; reflexivity ].
  intros vecA vecB.
  assert (Hcl : forall v : R, -1 <= v <= 1 -> Rmin 1 (Rmax (- (1)) v) = v).
  { intros v Hv. rewrite Rmax_right by lra. rewrite Rmin_right by lra.
    reflexivity. }
  unfold cosArg. rewrite jsOr_R. unR.
  destruct (Req_dec_T (mag vecA * mag vecB) 0) as [Hz | Hnz].
  - assert (Hd : dotProduct vecA vecB = 0).
    { pose proof (mag_sq vecA) as Ha. pose proof (mag_sq vecB) as Hb.
      destruct vecA as [ax ay az], vecB as [bx by_ bz].
      cbn [P3.x P3.y P3.z] in *. unfold dotProduct. cbn [P3.x P3.y P3.z].
      unR.
      destruct (Rmult_integral _ _ Hz) as [H0 | H0]; rewrite H0 in *.
      - destruct (@sum_squares_zero ax ay az) as (-> & -> & ->); [ lra | ring ].
      - destruct (@sum_squares_zero bx by_ bz) as (-> & -> & ->); [ lra | ring ]. }
    unR. rewrite Hd.
    replace (0 / 1) with 0 by field. rewrite (Hcl 0) by lra.
    repeat split; first [ lra | intros; contradiction ].
  - assert (Hb : -1 <= dotProduct vecA vecB / (mag vecA * mag vecB) <= 1).
    { pose proof (mag_sq vecA) as Ha. pose proof (mag_sq vecB) as Hb.
      assert (HmA : 0 <= mag vecA) by (unfold mag; unR; apply sqrt_pos).
      assert (HmB : 0 <= mag vecB) by (unfold mag; unR; apply sqrt_pos).
      destruct vecA as [ax ay az], vecB as [bx by_ bz].
      unfold mag, dotProduct in *. cbn [P3.x P3.y P3.z] in *.
      pose proof (cauchy_schwarz ax ay az bx by_ bz) as Hcs.
      unR.
      set (mA := sqrt (ax * ax + ay * ay + az * az)) in *.
      set (mB := sqrt (bx * bx + by_ * by_ + bz * bz)) in *.
      set (d := ax * bx + ay * by_ + az * bz) in *.
      assert (Hpos : 0 < mA * mB).
      { destruct (Rle_lt_or_eq_dec 0 (mA * mB)) as [Hlt | Heq];
          [ nra | exact Hlt | ].
        exfalso. apply Hnz. symmetry. exact Heq. }
      assert (Hdd : d * d <= (mA * mB) * (mA * mB)) by nra.
      assert (Hd : - (mA * mB) <= d <= mA * mB) by nra.
      split.
      + apply Rmult_le_reg_r with (mA * mB); [ exact Hpos | ].
        unfold Rdiv. rewrite Rmult_assoc, Rinv_l by lra. lra.
      + apply Rmult_le_reg_r with (mA * mB); [ exact Hpos | ].
        unfold Rdiv. rewrite Rmult_assoc, Rinv_l by lra. lra. }
    unR. rewrite (Hcl _ Hb).
    repeat split; first [ lra | intros; contradiction | intros; reflexivity ].
Qed.

End DotProductFacts.



(** ** The matrix pipeline: composition, interpolation, editing *)

Section PipelineFacts.
Import MatrixMultiplicationLevel.
Local Open Scope R_scope.

Lemma transform_multiply (p : P2.t R) (m1 m2 : Matrix2x2 (T:=R)) :
  transform p (multiply m1 m2) = transform (transform p m2) m1.
Proof.
  unfold transform, multiply. cbn [a b c d P2.x P2.y]. unR.
  f_equal; ring.
Qed.

Lemma transform_composeFrom (q : list TransformationStep) (p : P2.t R)
  (acc : Matrix2x2 (T:=R)) :
  transform p (composeFrom acc q)
    = fold_left (fun pt st => transform pt (matrix st)) q (transform p acc).
Proof.
  revert acc. induction q as [|st q IH]; intro acc; [ reflexivity | ].
  unfold composeFrom in *. cbn [fold_left]. rewrite IH.
  rewrite transform_multiply. reflexivity.
Qed.

(** X10.  Over the reals.  [multiply(m1, m2)] is the matrix of "first
    [m2], then [m1]", and the matrix [compose q] that the animation ends
    on sends every point where the queued steps send it when they are
    applied one after another, first in the list first. *)
Theorem compose_applies_in_order (q : list TransformationStep)
  (p : P2.t R) (m1 m2 : Matrix2x2 (T:=R)) :
  transform p (multiply m1 m2) = transform (transform p m2) m1 /\
  transform p (compose q)
    = fold_left (fun pt st => transform pt (matrix st)) q p.
Proof.
  split; [ apply transform_multiply | ].
  unfold compose. rewrite transform_composeFrom. f_equal.
  destruct p as [x y]. unfold transform, identity.
  cbn [a b c d P2.x P2.y]. unR. f_equal; ring.
Qed.

Lemma smoothstep_bounds (p : R) :
  0 <= p <= 1 -> 0 <= smoothstep p <= 1.
Proof.
  intro Hp. unfold smoothstep. unR. split.
  - apply Rmult_le_pos; [ nra | lra ].
  - assert (H : 1 - p * p * (3 - 2 * p) = (1 - p) * (1 - p) * (1 + 2 * p))
      by ring.
    assert (0 <= (1 - p) * (1 - p) * (1 + 2 * p)).
    { apply Rmult_le_pos; [ nra | lra ]. }
    lra.
Qed.

Lemma smoothstep_monotone (p q : R) :
  0 <= p -> p <= q -> q <= 1 -> smoothstep p <= smoothstep q.
Proof.
  intros Hp Hpq Hq. unfold smoothstep. unR.
  assert (H : q * q * (3 - 2 * q) - p * p * (3 - 2 * p)
              = (q - p) * (3 * (p + q) - 2 * (q * q + q * p + p * p)))
    by ring.
  assert (0 <= (q - p) * (3 * (p + q) - 2 * (q * q + q * p + p * p))).
  { apply Rmult_le_pos; [ lra | ]. nra. }
  lra.
Qed.

(** X11.  Over the reals.  The easing [smoothstep] maps [[0, 1]] into
    [[0, 1]], fixes both ends and never goes backwards; and under the
    interpolated matrix [lerpMatrix A B t] every point sits on the
    straight segment from its image under [A] to its image under [B], at
    fraction [t]. *)
Theorem interpolation_spec (A B : Matrix2x2 (T:=R)) (t : R) (p : P2.t R) :
  (forall u, 0 <= u <= 1 -> 0 <= smoothstep u <= 1) /\
  smoothstep 0 = 0 /\ smoothstep 1 = 1 /\
  (forall u v, 0 <= u -> u <= v -> v <= 1 -> smoothstep u <= smoothstep v) /\
  P2.x (transform p (lerpMatrix A B t))
    = (1 - t) * P2.x (transform p A) + t * P2.x (transform p B) /\
  P2.y (transform p (lerpMatrix A B t))
    = (1 - t) * P2.y (transform p A) + t * P2.y (transform p B).
Proof.
  split; [ exact smoothstep_bounds | ].
  split; [ unfold smoothstep; unR; ring | ].
  split; [ unfold smoothstep; unR; ring | ].
  split; [ exact smoothstep_monotone | ].
  unfold transform, lerpMatrix. cbn [a b c d P2.x P2.y]. unR.
  split; ring.
Qed.

Lemma dropIndex_combine {A : Type} (idx k : nat) (l : list A) :
  map snd
      (filter (fun e => negb (fst e =? idx + k)%nat)
              (combine (seq k (List.length l)) l))
    = firstn idx l ++ skipn (S idx) l.
Proof.
  revert idx k. induction l as [|x l IH]; intros idx k.
  - destruct idx; reflexivity.
  - cbn [List.length seq combine filter fst].
    destruct idx as [|idx].
    + cbn [Nat.add]. rewrite Nat.eqb_refl. cbn [negb firstn skipn app].
      clear IH. 
      assert (Hall : forall (m : list A) j, (k < j)%nat ->
                map snd
                    (filter (fun e => negb (fst e =? k)%nat)
                            (combine (seq j (List.length m)) m)) = m).
      { induction m as [|y m IHm]; intros j Hj; [ reflexivity | ].
        cbn [List.length seq combine filter fst].
        destruct (Nat.eqb_spec j k) as [E | _]; [ lia | ].
        cbn [negb map snd]. f_equal. apply IHm. lia. }
      apply Hall. lia.
    + destruct (Nat.eqb_spec k (S idx + k)) as [E | _]; [ lia | ].
      cbn [negb map snd firstn skipn app]. f_equal.
      replace (S idx + k)%nat with (idx + S k)%nat by lia.
      apply IH.
Qed.

Lemma dropIndex_spec {A : Type} (idx : nat) (l : list A) :
  dropIndex idx l = firstn idx l ++ skipn (S idx) l.
Proof.
  unfold dropIndex. rewrite <- (dropIndex_combine idx 0 l).
  rewrite Nat.add_0_r. reflexivity.
Qed.

(** X12.  For every number type.  While the animation runs, [addStep]
    and [removeStep] leave every cell as it is.  Otherwise [addStep]
    with the type ROTATE, SCALE, SHEAR or REFLECT appends exactly one
    step to the end of the queue, carrying the given id and the matrix
    [(0, -1; 1, 0)], [(1.5, 0; 0, 1.5)], [(1, 1; 0, 1)] or
    [(-1, 0; 0, 1)] respectively, and changes no other cell; with any
    other type it does nothing.  [removeStep idx] takes exactly the entry
    at position [idx] out of the queue and keeps the others in order
    (nothing happens when [idx] is past the end), and removing the step
    just added gives the queue back. *)
Theorem queue_editing {T : Type} `{Number T} (s : Anim (T:=T))
  (type i : string) (idx : nat) :
  let pushed (nm : string) (m : Matrix2x2 (T:=T)) (col : string) :=
    {| queue := queue s ++ [ {| id := i; name := nm; matrix := m;
                                color := col |} ];
       isAnimating := false; currentMatrix := currentMatrix s;
       stepIndex := stepIndex s; progress := progress s;
       accumulatedMatrix := accumulatedMatrix s |} in
  (isAnimating s = true ->
   addStep type i s = s /\ removeStep idx s = s) /\
  (isAnimating s = false ->
   addStep "ROTATE" i s
     = pushed "ROTAR 90°"%string
              {| a := ofZ 0; b := (- ofZ 1)%js; c := ofZ 1; d := ofZ 0 |}
              "text-yellow-400"%string /\
   addStep "SCALE" i s
     = pushed "ESCALAR 1.5x"%string
              {| a := dec 15 10; b := ofZ 0; c := ofZ 0; d := dec 15 10 |}
              "text-green-400"%string /\
   addStep "SHEAR" i s
     = pushed "CIZALLA X"%string
              {| a := ofZ 1; b := ofZ 1; c := ofZ 0; d := ofZ 1 |}
              "text-red-400"%string /\
   addStep "REFLECT" i s
     = pushed "REFLEJO X"%string
              {| a := (- ofZ 1)%js; b := ofZ 0; c := ofZ 0; d := ofZ 1 |}
              "text-blue-400"%string /\
   (~ In type [ "ROTATE"; "SCALE"; "SHEAR"; "REFLECT" ]%string ->
    addStep type i s = s) /\
   queue (removeStep idx s)
     = firstn idx (queue s) ++ skipn (S idx) (queue s) /\
   ((List.length (queue s) <= idx)%nat ->
    queue (removeStep idx s) = queue s) /\
   queue (removeStep (List.length (queue s)) (addStep type i s)) = queue s).
Proof.
  cbv zeta. split.
  - intro Han. unfold addStep, removeStep. rewrite Han. split; reflexivity.
  - intro Hidle.
    assert (Hrm : forall k (a : Anim (T:=T)), isAnimating a = false ->
              queue (removeStep k a)
                = firstn k (queue a) ++ skipn (S k) (queue a)).
    { intros k a Ha. unfold removeStep. rewrite Ha. cbn [queue].
      apply dropIndex_spec. }
    assert (Hadd : (addStep type i s = s /\
                    ~ In type [ "ROTATE"; "SCALE"; "SHEAR"; "REFLECT" ]%string)
                   \/
                   exists st, queue (addStep type i s) = queue s ++ [ st ] /\
                     isAnimating (addStep type i s) = false).
    { unfold addStep. rewrite Hidle. cbv zeta.
      destruct (String.eqb_spec type "ROTATE") as [E1 | N1];
        [ right; eexists; cbn [queue isAnimating];
          split; reflexivity | ].
      destruct (String.eqb_spec type "SCALE") as [E2 | N2];
        [ right; eexists; cbn [queue isAnimating];
          split; reflexivity | ].
      destruct (String.eqb_spec type "SHEAR") as [E3 | N3];
        [ right; eexists; cbn [queue isAnimating];
          split; reflexivity | ].
      destruct (String.eqb_spec type "REFLECT") as [E4 | N4];
        [ right; eexists; cbn [queue isAnimating];
          split; reflexivity | ].
      left. split; [ reflexivity | ].
      intros [E | [E | [E | [E | []]]]]; congruence. }
    split; [ unfold addStep; rewrite Hidle; reflexivity | ].
    split; [ unfold addStep; rewrite Hidle; reflexivity | ].
    split; [ unfold addStep; rewrite Hidle; reflexivity | ].
    split; [ unfold addStep; rewrite Hidle; reflexivity | ].
    split.
    { intro Hnot. unfold addStep. rewrite Hidle. cbv zeta.
      destruct (String.eqb_spec type "ROTATE") as [E | _];
        [ exfalso; apply Hnot; left; congruence | ].
      destruct (String.eqb_spec type "SCALE") as [E | _];
        [ exfalso; apply Hnot; right; left; congruence | ].
      destruct (String.eqb_spec type "SHEAR") as [E | _];
        [ exfalso; apply Hnot; right; right; left; congruence | ].
      destruct (String.eqb_spec type "REFLECT") as [E | _];
        [ exfalso; apply Hnot; right; right; right; left; congruence | ].
      reflexivity. }
    split; [ apply Hrm, Hidle | ].
    split.
    { intro Hlen. rewrite (Hrm idx s Hidle).
      rewrite firstn_all2 by exact Hlen.
      rewrite skipn_all2 by lia. apply app_nil_r. }
    destruct Hadd as [[E _] | (st & Hq & Han)].
    + rewrite E, (Hrm _ s Hidle).
      rewrite firstn_all, skipn_all2 by lia. apply app_nil_r.
    + rewrite (Hrm _ _ Han), Hq.
      rewrite firstn_app, Nat.sub_diag, firstn_all. cbn [firstn].
      rewrite app_nil_r.
      rewrite skipn_all2 by (rewrite length_app; cbn; lia).
      apply app_nil_r.
Qed.

(** X13.  For every number type.  Once the animation has stopped on a
    non-empty queue, further frames change nothing: the displayed matrix
    stays on the composite. *)
Theorem finished_animation_rests {T : Type} `{Number T} (s : Anim (T:=T))
  (n : nat) :
  isAnimating s = false -> queue s <> [] -> frames n s = Some s.
Proof.
  intros Hstop Hq. induction n as [|n IH]; [ reflexivity | ].
  cbn [frames].
  assert (Hf : frame s = Some s).
  { unfold frame, loopTick. rewrite Hstop. unfold visualEffect.
    rewrite Hstop. cbn [andb negb].
    destruct (queue s) as [|st q]; [ congruence | ]. reflexivity. }
  rewrite Hf. exact IH.
Qed.

Lemma finished_animation_rests_witness :
  let s := {| queue := [ SHEAR (T:=R) "1" ]; isAnimating := false;
              currentMatrix := matrix (SHEAR "1"); stepIndex := 0;
              progress := 1%R; accumulatedMatrix := identity |} in
  frames 3 s = Some s.
Proof.
  intro s. apply (@finished_animation_rests R _ s 3).
  - reflexivity.
  - discriminate.
Defined.

End PipelineFacts.


(** ** The matrix explorer: collapse and the glide to the target *)

Section MatrixTransformFacts.
Import MatrixMultiplicationLevel MatrixTransform.
Local Open Scope R_scope.

(** X14.  Over the reals.  The "Colapso dimensional" warning, shown when
    [det === 0], appears exactly when the matrix sends some non-zero
    vector to the origin, that is, exactly when the transformed grid is
    squeezed onto a line or a point. *)
Theorem collapsed_iff_kernel (matrix : Matrix2x2 (T:=R)) :
  collapsed matrix = true <->
  exists p : P2.t R,
    p <> {| P2.x := 0; P2.y := 0 |} /\
    transform matrix p = {| P2.x := 0; P2.y := 0 |}.
Proof.
  destruct matrix as [ma mb mc md].
  unfold collapsed, det, transform. cbn [a b c d P2.x P2.y].
  rewrite andb_true_iff, !leb_R_true. unR. split.
  - intros [Hle Hge]. assert (Hdet : ma * md - mb * mc = 0) by lra.
    destruct (Req_dec ma 0) as [Ha | Ha].
    + destruct (Req_dec mb 0) as [Hb | Hb].
      * destruct (Req_dec mc 0) as [Hc | Hc].
        -- destruct (Req_dec md 0) as [Hd | Hd].
           ++ exists {| P2.x := 1; P2.y := 0 |}. split.
              ** intro E. apply (f_equal (@P2.x R)) in E. cbn in E. lra.
              ** cbn [P2.x P2.y]. subst. f_equal; ring.
           ++ exists {| P2.x := md; P2.y := - mc |}. split.
              ** intro E. apply (f_equal (@P2.x R)) in E. cbn in E. lra.
              ** cbn [P2.x P2.y]. f_equal; nra.
        -- exists {| P2.x := md; P2.y := - mc |}. split.
           ++ intro E. apply (f_equal (@P2.y R)) in E. cbn in E. lra.
           ++ cbn [P2.x P2.y]. f_equal; nra.
      * exists {| P2.x := - mb; P2.y := ma |}. split.
        -- intro E. apply (f_equal (@P2.x R)) in E. cbn in E. lra.
        -- cbn [P2.x P2.y]. f_equal; nra.
    + exists {| P2.x := - mb; P2.y := ma |}. split.
      * intro E. apply (f_equal (@P2.y R)) in E. cbn in E. lra.
      * cbn [P2.x P2.y]. f_equal; nra.
  - intros ([x y] & Hne & Hker). cbn [P2.x P2.y] in Hker.
    injection Hker as Hx Hy.
    assert (Hdx : (ma * md - mb * mc) * x = 0).
    { replace ((ma * md - mb * mc) * x)
        with (md * (ma * x + mb * y) - mb * (mc * x + md * y)) by ring.
      rewrite Hx, Hy. ring. }
    assert (Hdy : (ma * md - mb * mc) * y = 0).
    { replace ((ma * md - mb * mc) * y)
        with (ma * (mc * x + md * y) - mc * (ma * x + mb * y)) by ring.
      rewrite Hx, Hy. ring. }
    destruct (Req_dec (ma * md - mb * mc) 0) as [Hz | Hnz]; [ lra | ].
    exfalso. apply Hne.
    apply Rmult_integral in Hdx. apply Rmult_integral in Hdy.
    destruct Hdx as [? | ->]; [ contradiction | ].
    destruct Hdy as [? | ->]; [ contradiction | ]. reflexivity.
Qed.

End MatrixTransformFacts.

Section MatrixAnimationFacts.
Import MatrixMultiplicationLevel MatrixTransformAnimation.
Local Open Scope R_scope.

Lemma lerp_offset (start end_ : R) :
  Rabs (lerp start end_ - end_) = 9 / 10 * Rabs (start - end_).
Proof.
  unfold lerp. unR.
  replace (start + (end_ - start) * (1 / 10) - end_)
    with (9 / 10 * (start - end_)) by lra.
  rewrite Rabs_mult, (Rabs_pos_eq (9 / 10)) by lra. reflexivity.
Qed.

Lemma animate_cases (s : Cells2D (T:=R)) :
  animating s = true ->
  let D := diff2D (currentMatrix2D s) (targetMatrix2D s) in
  (9 / 10 * D < 5 / 1000 /\
   animate s = {| targetMatrix2D := targetMatrix2D s;
                  currentMatrix2D := targetMatrix2D s;
                  animating := false |}) \/
  (5 / 1000 <= 9 / 10 * D /\
   animating (animate s) = true /\
   targetMatrix2D (animate s) = targetMatrix2D s /\
   diff2D (currentMatrix2D (animate s)) (targetMatrix2D s) = 9 / 10 * D).
Proof.
  intros Han D. unfold animate. rewrite Han. cbv zeta.
  set (next := {| a := lerp (a (currentMatrix2D s)) (a (targetMatrix2D s));
                  b := lerp (b (currentMatrix2D s)) (b (targetMatrix2D s));
                  c := lerp (c (currentMatrix2D s)) (c (targetMatrix2D s));
                  d := lerp (d (currentMatrix2D s)) (d (targetMatrix2D s)) |}).
  assert (Hd : diff2D next (targetMatrix2D s) = 9 / 10 * D).
  { unfold D, diff2D, next. cbn [a b c d].
    change (@mabs R RNumber) with Rabs. change (@sub R RNumber) with Rminus.
    change (@add R RNumber) with Rplus.
    rewrite !lerp_offset. ring. }
  destruct (diff2D next (targetMatrix2D s) <? dec 5 1000)%js eqn:Hlt.
  - left. apply ltb_R_true in Hlt. rewrite Hd in Hlt. unR.
    split; [ lra | reflexivity ].
  - right. apply ltb_R_false in Hlt. rewrite Hd in Hlt. unR.
    cbn [animating targetMatrix2D currentMatrix2D].
    repeat split; first [ lra | exact Hd ].
Qed.

Lemma animates_succ {T} `{Number T} (n : nat) (s : Cells2D (T:=T)) :
  animates (S n) s = animate (animates n s).
Proof.
  revert s. induction n as [|n IH]; intro s; [ reflexivity | ].
  change (animates (S (S n)) s) with (animates (S n) (animate s)).
  rewrite IH. reflexivity.
Qed.

Lemma settles_within (N : nat) (s : Cells2D (T:=R)) :
  animating s = true ->
  (9 / 10) ^ S N * diff2D (currentMatrix2D s) (targetMatrix2D s) < 5 / 1000 ->
  exists n : nat, (1 <= n <= S N)%nat /\
    animates n s = {| targetMatrix2D := targetMatrix2D s;
                      currentMatrix2D := targetMatrix2D s;
                      animating := false |} /\
    forall k : nat, (k < n)%nat ->
      animating (animates k s) = true /\
      diff2D (currentMatrix2D (animates k s)) (targetMatrix2D s)
        = (9 / 10) ^ k * diff2D (currentMatrix2D s) (targetMatrix2D s).
Proof.
  revert s. induction N as [|N IH]; intros s Han Hsmall.
  - destruct (animate_cases s Han) as [[_ Hsnap] | [Hfar _]];
      [ | cbv zeta in Hfar; rewrite pow_1 in Hsmall; lra ].
    exists 1%nat. split; [ lia | ]. split; [ exact Hsnap | ].
    intros k Hk. replace k with 0%nat by lia. cbn [animates pow].
    split; [ exact Han | ring ].
  - destruct (animate_cases s Han) as [[_ Hsnap] | (Hfar & Han' & Htg & Hd)].
    + exists 1%nat. split; [ lia | ]. split; [ exact Hsnap | ].
      intros k Hk. replace k with 0%nat by lia. cbn [animates pow].
      split; [ exact Han | ring ].
    + destruct (IH (animate s) Han') as (n & Hn & Hend & Hbefore).
      { rewrite Htg, Hd. rewrite <- Rmult_assoc.
        replace ((9 / 10) ^ S N * (9 / 10)) with ((9 / 10) ^ S (S N))
          by (rewrite <- !tech_pow_Rmult; ring).
        exact Hsmall. }
      exists (S n). split; [ lia | ]. split.
      * cbn [animates]. rewrite Hend, Htg. reflexivity.
      * intros [|k] Hk.
        -- cbn [animates pow]. split; [ exact Han | ring ].
        -- cbn [animates]. destruct (Hbefore k ltac:(lia)) as [Hrun Hdk].
           split; [ exact Hrun | ].
           rewrite Htg, Hd in Hdk. rewrite Hdk, <- tech_pow_Rmult. ring.
Qed.

Lemma animates_add {T} `{Number T} (n k : nat) (s : Cells2D (T:=T)) :
  animates (n + k) s = animates k (animates n s).
Proof.
  revert s. induction n as [|n IH]; intro s; [ reflexivity | ].
  cbn [Nat.add animates]. apply IH.
Qed.

Lemma animates_fixed {T} `{Number T} (s : Cells2D (T:=T)) :
  animate s = s -> forall n, animates n s = s.
Proof.
  intros Hs n. induction n as [|n IH]; [ reflexivity | ].
  cbn [animates]. rewrite Hs. exact IH.
Qed.

Lemma animates_from {T} `{Number T} (N : nat) (s r : Cells2D (T:=T)) :
  animates N s = r -> animate r = r ->
  forall n, (N <= n)%nat -> animates n s = r.
Proof.
  intros HN Hr n Hn. replace n with (N + (n - N))%nat by lia.
  rewrite animates_add, HN. apply animates_fixed, Hr.
Qed.

(** X15.  The glide started by a preset or an edit.
    Over the reals it ends, whatever the displayed and the target
    matrix are: after finitely many frames the displayed matrix is
    exactly the target and [animating] is off; until then the total
    distance [|a - a'| + |b - b'| + |c - c'| + |d - d'|] to the target
    shrinks by the factor 0.9 with every frame.
    In binary64 it ends between the six presets: from the initial
    identity, press a preset, let the glide rest, press any preset; from
    the 68th frame on the displayed matrix is exactly the new target and
    [animating] is off.  It does not end for every edit: with 1e13 typed
    into the cell a of the initial identity, [animating] is on at every
    frame, and from the 328th frame on the displayed entry stays at
    9999999999999.9922; there the step [(end - start) * 0.1] is lost in
    the sum, and the distance 0.0078125 is not below 0.005. *)
Theorem animation_settles :
  (forall target current : Matrix2x2 (T:=R),
     let s := {| targetMatrix2D := target; currentMatrix2D := current;
                 animating := true |} in
     exists n : nat,
       animates n s = {| targetMatrix2D := target; currentMatrix2D := target;
                         animating := false |} /\
       forall k : nat, (k < n)%nat ->
         animating (animates k s) = true /\
         diff2D (currentMatrix2D (animates k s)) target
           = (9 / 10) ^ k * diff2D current target)
  /\
  (let identity : Matrix2x2 (T:=float) :=
     {| a := 1%float; b := 0%float; c := 0%float; d := 1%float |} in
   let start := {| targetMatrix2D := identity; currentMatrix2D := identity;
                   animating := false |} in
   (forall from to : string,
      In from ["IDENTITY"; "SHEAR"; "ROTATE"; "SCALE"; "REFLECT";
               "COLLAPSE"]%string ->
      In to ["IDENTITY"; "SHEAR"; "ROTATE"; "SCALE"; "REFLECT";
             "COLLAPSE"]%string ->
      let rest := animates 68 (setPreset from start) in
      let s := setPreset to rest in
      rest = {| targetMatrix2D := targetMatrix2D (setPreset from start);
                currentMatrix2D := targetMatrix2D (setPreset from start);
                animating := false |} /\
      animating s = true /\
      forall n : nat, (68 <= n)%nat ->
        animates n s = {| targetMatrix2D := targetMatrix2D s;
                          currentMatrix2D := targetMatrix2D s;
                          animating := false |})
   /\
   (let s := update2D MatrixTransform.Ka "1e13" start in
    let stalled :=
      {| targetMatrix2D := {| a := 1e13%float; b := 0%float;
                              c := 0%float; d := 1%float |};
         currentMatrix2D := {| a := 9999999999999.9922%float; b := 0%float;
                               c := 0%float; d := 1%float |};
         animating := true |} in
    targetMatrix2D s = targetMatrix2D stalled /\
    (forall n : nat, animating (animates n s) = true) /\
    (forall n : nat, (328 <= n)%nat -> animates n s = stalled) /\
    diff2D (currentMatrix2D stalled) (targetMatrix2D stalled)
      = 0.0078125%float /\
    (diff2D (currentMatrix2D stalled) (targetMatrix2D stalled)
       <? dec 5 1000)%js = false)).
Proof.
  split; [ | cbv zeta; split ].
  - intros target current s.
    set (D := diff2D current target).
    assert (HD : 0 <= D).
    { unfold D, diff2D. unR.
      repeat apply Rplus_le_le_0_compat; apply Rabs_pos. }
    destruct (pow_lt_1_zero (9 / 10)) with (y := 5 / 1000 / (D + 1))
      as [N HN].
    { rewrite Rabs_pos_eq; lra. }
    { apply Rdiv_lt_0_compat; lra. }
    specialize (HN (S N) ltac:(lia)).
    rewrite Rabs_pos_eq in HN by (apply pow_le; lra).
    assert (Hsmall : (9 / 10) ^ S N * D < 5 / 1000).
    { assert (Hq : 0 < (9 / 10) ^ S N) by (apply pow_lt; lra).
      apply Rle_lt_trans with ((9 / 10) ^ S N * (D + 1)); [ nra | ].
      apply (Rmult_lt_compat_r (D + 1)) in HN; [ | lra ].
      replace (5 / 1000 / (D + 1) * (D + 1)) with (5 / 1000) in HN
        by (field; lra).
      exact HN. }
    destruct (@settles_within N s eq_refl Hsmall) as (n & _ & Hend & Hbefore).
    exists n. split; [ exact Hend | exact Hbefore ].
  - intros from to Hfrom Hto. cbn [In] in Hfrom, Hto.
    repeat (destruct Hfrom as [<- | Hfrom]; [ | ]); try contradiction;
      (repeat (destruct Hto as [<- | Hto]; [ | ]); try contradiction;
       (split; [ vm_compute; reflexivity | ];
        split; [ reflexivity | ];
        apply animates_from; [ vm_compute; reflexivity | reflexivity ])).
  - split; [ vm_compute; reflexivity | ].
    assert (Hstall : forall n : nat, (328 <= n)%nat ->
              animates n (update2D MatrixTransform.Ka "1e13"
                {| targetMatrix2D := {| a := 1%float; b := 0%float;
                                        c := 0%float; d := 1%float |};
                   currentMatrix2D := {| a := 1%float; b := 0%float;
                                         c := 0%float; d := 1%float |};
                   animating := false |})
              = {| targetMatrix2D := {| a := 1e13%float; b := 0%float;
                                        c := 0%float; d := 1%float |};
                   currentMatrix2D := {| a := 9999999999999.9922%float;
                                         b := 0%float; c := 0%float;
                                         d := 1%float |};
                   animating := true |})
      by (apply animates_from; vm_compute; reflexivity).
    split; [ | split; [ exact Hstall | split; vm_compute; reflexivity ] ].
    intro n. destruct (Nat.lt_ge_cases n 328) as [Hlt | Hge].
    + assert (Hall : forallb (fun k => animating (animates k
                (update2D MatrixTransform.Ka "1e13"
                  {| targetMatrix2D := {| a := 1%float; b := 0%float;
                                          c := 0%float; d := 1%float |};
                     currentMatrix2D := {| a := 1%float; b := 0%float;
                                           c := 0%float; d := 1%float |};
                     animating := false |}))) (seq 0 328) = true)
        by (vm_compute; reflexivity).
      rewrite forallb_forall in Hall. apply Hall.
      apply in_seq. lia.
    + rewrite (Hstall n Hge). reflexivity.
Qed.

End MatrixAnimationFacts.

(** ** The eigenvector level: the presets and the timeline *)

Section EigenFacts.
Import MatrixMultiplicationLevel EigenvectorsLevel.
Local Open Scope R_scope.

Lemma cross_probe_SCALE_X (t : R) (p : P2.t R) :
  cross p (currentProbe SCALE_X t p) = - (t * (P2.x p * P2.y p)).
Proof.
  unfold cross, currentProbe, transform, currentMatrix, lerp, SCALE_X.
  cbn [matrix a b c d P2.x P2.y]. unR. ring.
Qed.

Lemma cross_probe_SCALE_UNIFORM (t : R) (p : P2.t R) :
  cross p (currentProbe SCALE_UNIFORM t p) = 0.
Proof.
  unfold cross, currentProbe, transform, currentMatrix, lerp, SCALE_UNIFORM.
  cbn [matrix a b c d P2.x P2.y]. unR. ring.
Qed.

Lemma cross_probe_SHEAR (t : R) (p : P2.t R) :
  cross p (currentProbe SHEAR t p) = - (t * (P2.y p * P2.y p)).
Proof.
  unfold cross, currentProbe, transform, currentMatrix, lerp, SHEAR.
  cbn [matrix a b c d P2.x P2.y]. unR. ring.
Qed.

Lemma cross_probe_DIAGONAL (t : R) (p : P2.t R) :
  cross p (currentProbe DIAGONAL t p)
    = t * ((P2.x p - P2.y p) * (P2.x p + P2.y p)).
Proof.
  unfold cross, currentProbe, transform, currentMatrix, lerp, DIAGONAL.
  cbn [matrix a b c d P2.x P2.y]. unR. ring.
Qed.

(** X16.  Over the reals.  The eigen lines declared in [PRESETS] are
    right and, for the three presets that are not the uniform scaling,
    complete: at every time [t <> 0] of the transformation a probe keeps
    its direction (its image is parallel to it) exactly when it lies on
    one of the declared lines.  Under the uniform scaling every probe
    keeps its direction. *)
Theorem eigenLines_exact (pr : Preset (T:=R)) (t : R) (probeBase : P2.t R) :
  In pr PRESETS -> t <> 0 ->
  (cross probeBase (currentProbe pr t probeBase) = 0 <->
   pr = SCALE_UNIFORM \/
   exists line, In line (eigenLines pr) /\ cross probeBase line = 0).
Proof.
  destruct probeBase as [x y].
  intros [E | [E | [E | [E | []]]]] Ht; subst pr.
  - rewrite cross_probe_SCALE_X. cbn [P2.x P2.y]. split.
    + intro Hz.
      assert (Hxy : x * y = 0).
      { assert (Hz' : t * (x * y) = 0) by lra.
        apply Rmult_integral in Hz'. destruct Hz'; [ contradiction | lra ]. }
      right. apply Rmult_integral in Hxy. destruct Hxy as [-> | ->].
      * exists {| P2.x := 0; P2.y := 1 |}. split;
          [ right; left; reflexivity | unfold cross; cbn; unR; ring ].
      * exists {| P2.x := 1; P2.y := 0 |}. split;
          [ left; reflexivity | unfold cross; cbn; unR; ring ].
    + intros [Habs | (line & Hin & Hc)].
      * exfalso. apply (f_equal (fun q => d (matrix q))) in Habs.
        cbn in Habs. unR. lra.
      * unfold cross in Hc. cbn [P2.x P2.y] in Hc.
        destruct Hin as [<- | [<- | []]]; cbn [P2.x P2.y] in Hc; unR; nra.
  - split; [ intros _; left; reflexivity | ].
    intros _. apply cross_probe_SCALE_UNIFORM.
  - rewrite cross_probe_SHEAR. cbn [P2.x P2.y]. split.
    + intro Hz.
      assert (Hy : y = 0).
      { assert (Hz' : t * (y * y) = 0) by lra.
        apply Rmult_integral in Hz'. destruct Hz' as [? | Hyy];
          [ contradiction | ].
        apply Rmult_integral in Hyy. destruct Hyy; assumption. }
      right. subst y. exists {| P2.x := 1; P2.y := 0 |}. split;
        [ left; reflexivity | unfold cross; cbn; unR; ring ].
    + intros [Habs | (line & Hin & Hc)].
      * exfalso. apply (f_equal (fun q => a (matrix q))) in Habs.
        cbn in Habs. unR. lra.
      * unfold cross in Hc. cbn [P2.x P2.y] in Hc.
        destruct Hin as [<- | []]; cbn [P2.x P2.y] in Hc; unR; nra.
  - rewrite cross_probe_DIAGONAL. cbn [P2.x P2.y]. split.
    + intro Hz. right.
      apply Rmult_integral in Hz. destruct Hz as [Hz | Hz];
        [ contradiction | ].
      apply Rmult_integral in Hz. destruct Hz as [Hz | Hz].
      * exists {| P2.x := 1; P2.y := 1 |}. split;
          [ left; reflexivity | unfold cross; cbn; unR; lra ].
      * exists {| P2.x := - (1); P2.y := 1 |}. split;
          [ right; left; reflexivity | unfold cross; cbn; unR; lra ].
    + intros [Habs | (line & Hin & Hc)].
      * exfalso. apply (f_equal (fun q => b (matrix q))) in Habs.
        cbn in Habs. unR. lra.
      * unfold cross in Hc. cbn [P2.x P2.y] in Hc.
        destruct Hin as [<- | [<- | []]]; cbn [P2.x P2.y] in Hc; unR; nra.
Qed.

Lemma eigenLines_exact_witness :
  let probeBase := {| P2.x := 2; P2.y := 2 |} in
  cross probeBase (currentProbe DIAGONAL (1 / 2) probeBase) = 0 <->
  DIAGONAL (T:=R) = SCALE_UNIFORM \/
  exists line, In line (eigenLines DIAGONAL) /\ cross probeBase line = 0.
Proof.
  intro probeBase.
  apply (@eigenLines_exact DIAGONAL (1 / 2) probeBase).
  - right. right. right. left. reflexivity.
  - lra.
Defined.

Lemma loops_succ {T} `{Number T} (n : nat) (s : Timeline (T:=T)) :
  loops (S n) s = loop (loops n s).
Proof.
  revert s. induction n as [|n IH]; intro s; [ reflexivity | ].
  change (loops (S (S n)) s) with (loops (S n) (loop s)).
  rewrite IH. reflexivity.
Qed.

Lemma playing_R (s : Timeline (T:=R)) (k : nat) :
  (k <= 100)%nat ->
  loops k (play s) = {| t := INR k / 100; isPlaying := true |}.
Proof.
  induction k as [|k IH]; intro Hk.
  - unfold play. cbn [loops INR]. unR. f_equal. lra.
  - rewrite loops_succ, IH by lia. unfold loop. cbn [isPlaying t].
    assert (Hlt : ((INR k / 100)%R >=? ofZ 1)%js = false).
    { apply leb_R_false. unR.
      assert (Hk99 : INR k <= INR 99) by (apply le_INR; lia).
      replace (INR 99) with 99%R in Hk99
        by (rewrite INR_IZR_INZ; reflexivity).
      lra. }
    rewrite Hlt. f_equal. rewrite S_INR. unR. lra.
Qed.

(** X17.  The [ANIMAR] button sets [t] to 0 and starts the loop.  Over
    the reals the loop then shows [t = k / 100] at frame [k] for
    [k = 0, ..., 100] and stops at frame 101 with [t = 1].  In binary64
    it also stops at frame 101 with [t] exactly 1, but a hundred
    additions of [0.01] give [1.0000000000000007]: frame 100 is drawn
    with [t] slightly above 1, and no frame shows a [t] above that. *)
Theorem play_timeline :
  (forall (s : Timeline (T:=R)) (k : nat), (k <= 100)%nat ->
     loops k (play s) = {| t := INR k / 100; isPlaying := true |}) /\
  (forall s : Timeline (T:=R),
     loops 101 (play s) = {| t := 1%R; isPlaying := false |}) /\
  (forall s : Timeline (T:=float),
     loops 101 (play s) = {| t := 1%float; isPlaying := false |} /\
     loops 100 (play s)
       = {| t := 1.0000000000000007%float; isPlaying := true |} /\
     forallb (fun k => isPlaying (loops k (play s))
                       && (t (loops k (play s))
                             <=? 1.0000000000000007%float)%js)
             (seq 0 101) = true).
Proof.
  split; [ exact playing_R | ]. split.
  - intro s. rewrite loops_succ, playing_R by lia.
    unfold loop. cbn [isPlaying t].
    assert (Hge : ((INR 100 / 100)%R >=? ofZ 1)%js = true).
    { apply leb_R_true. unR.
      replace (INR 100) with 100%R by (rewrite INR_IZR_INZ; reflexivity).
      lra. }
    rewrite Hge. unR. reflexivity.
  - intro s. unfold play.
    repeat split; vm_compute; reflexivity.
Qed.

End EigenFacts.


(** ** The cross-product level *)

Section CrossProductFacts.
Import CrossProductLevel.
Local Open Scope R_scope.

Lemma magC_sq (vecA vecB : P3.t R) :
  magC vecA vecB * magC vecA vecB
    = DotProductLevel.dotProduct vecA vecA * DotProductLevel.dotProduct vecB vecB
      - DotProductLevel.dotProduct vecA vecB * DotProductLevel.dotProduct vecA vecB.
Proof.
  unfold magC. unR. rewrite sqrt_sqrt.
  - unfold vecC, DotProductLevel.dotProduct. cbn [P3.x P3.y P3.z]. unR. ring.
  - nra.
Qed.

(** X18.  Over the reals, for all vectors A and B.  The yellow vector
    [vecC] is perpendicular to both A and B; swapping A and B reverses
    it; the number shown as the area of the parallelogram, [magC],
    satisfies [magC^2 = |A|^2 |B|^2 - (A.B)^2]; and it is 0 exactly when
    A and B are parallel (one is a multiple of the other). *)
Theorem vecC_spec (vecA vecB : P3.t R) :
  DotProductLevel.dotProduct (vecC vecA vecB) vecA = 0 /\
  DotProductLevel.dotProduct (vecC vecA vecB) vecB = 0 /\
  vecC vecB vecA = {| P3.x := - P3.x (vecC vecA vecB);
                      P3.y := - P3.y (vecC vecA vecB);
                      P3.z := - P3.z (vecC vecA vecB) |} /\
  magC vecA vecB * magC vecA vecB
    = DotProductLevel.dotProduct vecA vecA * DotProductLevel.dotProduct vecB vecB
      - DotProductLevel.dotProduct vecA vecB
        * DotProductLevel.dotProduct vecA vecB /\
  (magC vecA vecB = 0 <->
   exists k l : R, (k <> 0 \/ l <> 0) /\
     k * P3.x vecA = l * P3.x vecB /\ k * P3.y vecA = l * P3.y vecB /\
     k * P3.z vecA = l * P3.z vecB).
Proof.
  split; [ | split; [ | split; [ | split ] ] ].
  - unfold vecC, DotProductLevel.dotProduct. cbn [P3.x P3.y P3.z]. unR. ring.
  - unfold vecC, DotProductLevel.dotProduct. cbn [P3.x P3.y P3.z]. unR. ring.
  - unfold vecC. cbn [P3.x P3.y P3.z]. unR. f_equal; ring.
  - apply magC_sq.
  - destruct vecA as [ax ay az], vecB as [bx by_ bz].
    unfold magC, vecC. cbn [P3.x P3.y P3.z]. unR.
    set (cx := ay * bz - az * by_). set (cy := az * bx - ax * bz).
    set (cz := ax * by_ - ay * bx).
    split.
    + intro Hz. apply sqrt_eq_0 in Hz; [ | nra ].
      assert (Hcx : cx = 0) by nra.
      assert (Hcy : cy = 0) by nra.
      assert (Hcz : cz = 0) by nra.
      unfold cx, cy, cz in *.
      destruct (Req_dec bx 0) as [Hbx | Hbx].
      * destruct (Req_dec by_ 0) as [Hby | Hby].
        -- destruct (Req_dec bz 0) as [Hbz | Hbz].
           ++ exists 0, 1. subst. split; [ right; lra | repeat split; lra ].
           ++ exists bz, az. split; [ left; exact Hbz | repeat split; nra ].
        -- exists by_, ay. split; [ left; exact Hby | repeat split; nra ].
      * exists bx, ax. split; [ left; exact Hbx | repeat split; nra ].
    + intros (k & l & Hkl & Hx & Hy & Hz).
      assert (Hcx : cx = 0 /\ cy = 0 /\ cz = 0).
      { unfold cx, cy, cz. destruct Hkl as [Hk | Hl].
        - repeat split; apply (Rmult_eq_reg_l k); try exact Hk;
            rewrite Rmult_0_r.
          + replace (k * (ay * bz - az * by_))
              with ((k * ay) * bz - (k * az) * by_) by ring.
            rewrite Hy, Hz. ring.
          + replace (k * (az * bx - ax * bz))
              with ((k * az) * bx - (k * ax) * bz) by ring.
            rewrite Hx, Hz. ring.
          + replace (k * (ax * by_ - ay * bx))
              with ((k * ax) * by_ - (k * ay) * bx) by ring.
            rewrite Hx, Hy. ring.
        - repeat split; apply (Rmult_eq_reg_l l); try exact Hl;
            rewrite Rmult_0_r.
          + replace (l * (ay * bz - az * by_))
              with (ay * (l * bz) - az * (l * by_)) by ring.
            rewrite <- Hy, <- Hz. ring.
          + replace (l * (az * bx - ax * bz))
              with (az * (l * bx) - ax * (l * bz)) by ring.
            rewrite <- Hx, <- Hz. ring.
          + replace (l * (ax * by_ - ay * bx))
              with (ax * (l * by_) - ay * (l * bx)) by ring.
            rewrite <- Hx, <- Hy. ring. }
      destruct Hcx as (-> & -> & ->).
      replace (0 * 0 + 0 * 0 + 0 * 0) with 0 by ring. apply sqrt_0.
Qed.

End CrossProductFacts.

(** ** The scalar-multiplication level *)

Section ScalarMultiplicationFacts.
Import ScalarMultiplication.
Local Open Scope R_scope.

(** X19.  Over the reals.  The length shown for the scaled vector is
    [|scalar|] times the length of the original, for every vector and
    every scalar, negative ones included. *)
Theorem resultMag_spec (vector : P3.t R) (scalar : R) :
  resultMag vector scalar = Rabs scalar * baseMag vector.
Proof.
  unfold resultMag, baseMag, resultVector. cbn [P3.x P3.y P3.z]. unR.
  destruct vector as [x y z]. cbn [P3.x P3.y P3.z].
  replace (x * scalar * (x * scalar) + y * scalar * (y * scalar)
           + z * scalar * (z * scalar))
    with ((scalar * scalar) * (x * x + y * y + z * z)) by ring.
  rewrite sqrt_mult by nra.
  f_equal. rewrite <- (sqrt_Rsqr_abs scalar). reflexivity.
Qed.

End ScalarMultiplicationFacts.

(** ** The vector visualizer: polar input and zoom *)

Section VectorVisualizerFacts.
Import VectorPlayground VectorVisualizer.
Local Open Scope R_scope.

(** X20.  Over the reals.  The vector that [updateFromPolar] sets has
    length [|r|], in the flat view for every angle and in the spherical
    view for every pair of angles. *)
Theorem updateFromPolar_magnitude (is3D : bool) (newR theta phi : R) :
  magnitude is3D (updateFromPolar is3D newR theta phi) = Rabs newR.
Proof.
  unfold magnitude, updateFromPolar.
  destruct is3D; cbn [negb P3.x P3.y P3.z]; unR; cbv [mPI RCircle].
  - set (t := theta * PI / 180). set (p := phi * PI / 180).
    pose proof (sin2_cos2_mult t) as Ht. pose proof (sin2_cos2_mult p) as Hp.
    replace (newR * sin p * cos t * (newR * sin p * cos t)
             + newR * sin p * sin t * (newR * sin p * sin t)
             + newR * cos p * (newR * cos p))
      with (newR * newR
            * (sin p * sin p * (sin t * sin t + cos t * cos t)
               + cos p * cos p)) by ring.
    rewrite Ht, Rmult_1_r, Hp, Rmult_1_r. apply sqrt_Rsqr_abs.
  - set (t := theta * PI / 180).
    pose proof (sin2_cos2_mult t) as Ht.
    replace (newR * cos t * (newR * cos t) + newR * sin t * (newR * sin t) + 0)
      with (newR * newR * (sin t * sin t + cos t * cos t)) by ring.
    rewrite Ht, Rmult_1_r. apply sqrt_Rsqr_abs.
Qed.

(** X21.  Over the reals.  A wheel event on the canvas keeps the zoom in
    [[5, 500]] and, when the zoom was not zero, zooms about the pointer:
    every world point drawn under the pointer before the event is drawn
    under the pointer after it, in the flat view and in the orbit view
    alike. *)
Theorem wheel_zooms_about_pointer (cv : Canvas) (e : WheelEvent)
  (vw : View (T:=R)) (v : P3.t R) :
  scale vw <> 0 ->
  let vw' := handleCanvasWheel cv e vw in
  let mx := clientX e - rect_left cv in
  let my := clientY e - rect_top cv in
  5 <= scale vw' <= 500 /\
  (P3.x (project vw v (width cv) (height cv)) = mx ->
   P3.x (project vw' v (width cv) (height cv)) = mx) /\
  (P3.y (project vw v (width cv) (height cv)) = my ->
   P3.y (project vw' v (width cv) (height cv)) = my).
Proof.
  intros Hs. cbv zeta. split.
  { unfold handleCanvasWheel. cbn [scale]. unR. apply zoom_clamp. lra. }
  unfold handleCanvasWheel, project.
  cbn [is3D cameraAngle scale pan P2.x P2.y P3.x P3.y P3.z].
  generalize (if is3D vw
              then rotateX (rotateY v (P2.y (cameraAngle vw)))
                           (P2.x (cameraAngle vw))
              else {| P3.x := P3.x v; P3.y := P3.y v; P3.z := ofZ 0 |}).
  intros [rx ry rz]. cbn [P3.x P3.y P3.z]. unR.
  generalize (Rmax 5 (Rmin 500 (scale vw * (if Rlt_dec (deltaY e) 0
                                            then 1 + 1 / 10
                                            else 1 - 1 / 10)))).
  intro ns. split; intro Hp.
  - assert (Hrx : rx = (clientX e - rect_left cv - width cv / 2
                        - P2.x (pan vw)) / scale vw).
    { apply (Rmult_eq_reg_r (scale vw)); [ | exact Hs ].
      unfold Rdiv. rewrite Rmult_assoc, Rinv_l by exact Hs. lra. }
    rewrite Hrx. field. exact Hs.
  - assert (Hry : ry = (height cv / 2 + P2.y (pan vw)
                        - (clientY e - rect_top cv)) / scale vw).
    { apply (Rmult_eq_reg_r (scale vw)); [ | exact Hs ].
      unfold Rdiv. rewrite Rmult_assoc, Rinv_l by exact Hs. lra. }
    rewrite Hry. field. exact Hs.
Qed.

Lemma wheel_zooms_about_pointer_witness :
  let cv := {| rect_left := 0; rect_top := 0; width := 800; height := 600 |} in
  let e := {| clientX := 440; clientY := 260; deltaY := -100 |} in
  let vw := {| is3D := false; cameraAngle := {| P2.x := 0; P2.y := 0 |};
               scale := 40; pan := {| P2.x := 0; P2.y := 0 |} |} in
  let v := {| P3.x := 1; P3.y := 1; P3.z := 0 |} in
  let vw' := handleCanvasWheel cv e vw in
  5 <= scale vw' <= 500 /\
  (P3.x (project vw v 800 600) = 440 - 0 ->
   P3.x (project vw' v 800 600) = 440 - 0) /\
  (P3.y (project vw v 800 600) = 260 - 0 ->
   P3.y (project vw' v 800 600) = 260 - 0).
Proof.
  intros cv e vw v.
  apply (@wheel_zooms_about_pointer cv e vw v).
  cbn. lra.
Defined.

End VectorVisualizerFacts.


(** ** The curl level *)

Section CurlFacts.
Import CurlLevel.
Local Open Scope R_scope.

Lemma linear_derivative (k c x : R) :
  derivable_pt_lim (fun t => k * t + c) x k.
Proof.
  apply derivable_pt_lim_ext
    with (g := (fct_cte k * id + fct_cte c)%F); [ reflexivity | ].
  eapply derivable_pt_lim_eq.
  - apply derivable_pt_lim_plus.
    + apply derivable_pt_lim_mult;
        [ apply derivable_pt_lim_const | apply derivable_pt_lim_id ].
    + apply derivable_pt_lim_const.
  - unfold fct_cte, id. ring.
Qed.

(** X22.  Over the reals.  For each of the three entries of [FIELDS]
    the declared [dFy_dx] and [dFx_dy] are the partial derivatives of
    the declared components [Fy] and [Fx] at every point, and the value
    shown, [curlVal = dFy_dx - dFx_dy], is the entry's [curl_const]
    wherever the probe is. *)
Theorem FIELDS_curl (fd : Field (T:=R)) (position : P2.t R) :
  In fd FIELDS ->
  derivable_pt_lim (fun t => Fy fd t (P2.y position)) (P2.x position)
                   (dFy_dx fd (P2.x position) (P2.y position)) /\
  derivable_pt_lim (fun t => Fx fd (P2.x position) t) (P2.y position)
                   (dFx_dy fd (P2.x position) (P2.y position)) /\
  curlVal fd position = curl_const fd.
Proof.
  destruct position as [x y].
  intros [E | [E | [E | []]]]; subst fd;
    cbv [curlVal Fx Fy dFy_dx dFx_dy curl_const vortex shear expansion
         P2.x P2.y]; unR.
  - split; [ | split; [ | ring ] ].
    + apply derivable_pt_lim_id.
    + apply derivable_pt_lim_ext with (g := fun t => - (1) * t + 0);
        [ intro t; ring | ].
      eapply derivable_pt_lim_eq; [ apply linear_derivative | ring ].
  - split; [ | split; [ | ring ] ].
    + apply derivable_pt_lim_const.
    + apply derivable_pt_lim_id.
  - split; [ | split; [ | ring ] ].
    + apply (derivable_pt_lim_const y).
    + apply (derivable_pt_lim_const x).
Qed.

Lemma FIELDS_curl_witness :
  let position := {| P2.x := 3 / 2; P2.y := 3 / 2 |} in
  derivable_pt_lim (fun t => Fy (T:=R) vortex t (3 / 2)) (3 / 2)
                   (dFy_dx vortex (3 / 2) (3 / 2)) /\
  derivable_pt_lim (fun t => Fx (T:=R) vortex (3 / 2) t) (3 / 2)
                   (dFx_dy vortex (3 / 2) (3 / 2)) /\
  curlVal vortex position = curl_const vortex.
Proof.
  intro position. apply (@FIELDS_curl vortex position).
  left. reflexivity.
Defined.

Lemma loops_paddle (n : nat) (cv a : R) :
  loops n cv a = a + INR n * (cv * (5 / 100)).
Proof.
  revert a. induction n as [|n IH]; intro a.
  - cbn [loops INR]. ring.
  - cbn [loops]. rewrite IH, S_INR. unfold loop. unR. ring.
Qed.

(** X23.  Over the reals.  After [n] frames the paddle wheel has turned
    by [n * curlVal * 0.05]: on the three fields, wherever the probe is,
    that is [n / 10] (counter-clockwise) in the vortex, [- n / 20]
    (clockwise) in the shear and nothing in the expansion, and the
    caption under the value agrees with the direction. *)
Theorem paddle_turns (n : nat) (position : P2.t R) (paddleAngle : R) :
  loops n (curlVal vortex position) paddleAngle = paddleAngle + INR n / 10 /\
  loops n (curlVal shear position) paddleAngle = paddleAngle - INR n / 20 /\
  loops n (curlVal expansion position) paddleAngle = paddleAngle /\
  caption (curlVal vortex position) = "Giro Anti-horario (Positivo)"%string /\
  caption (curlVal shear position) = "Giro Horario (Negativo)"%string /\
  caption (curlVal expansion position) = "Sin Rotación"%string.
Proof.
  rewrite !loops_paddle.
  assert (Hv : curlVal vortex position = 2)
    by (cbv [curlVal dFy_dx dFx_dy vortex]; unR; ring).
  assert (Hs : curlVal shear position = -1)
    by (cbv [curlVal dFy_dx dFx_dy shear]; unR; ring).
  assert (He : curlVal expansion position = 0)
    by (cbv [curlVal dFy_dx dFx_dy expansion]; unR; ring).
  rewrite Hv, Hs, He.
  split; [ lra | ]. split; [ lra | ]. split; [ lra | ].
  unfold caption.
  assert (H1 : (2 >? dec 1 10)%js = true) by (apply ltb_R_true; unR; lra).
  assert (H2 : ((-1)%R >? dec 1 10)%js = false)
    by (apply ltb_R_false; unR; lra).
  assert (H3 : ((-1)%R <? - dec 1 10)%js = true)
    by (apply ltb_R_true; unR; lra).
  assert (H4 : (0 >? dec 1 10)%js = false) by (apply ltb_R_false; unR; lra).
  assert (H5 : (0 <? - dec 1 10)%js = false) by (apply ltb_R_false; unR; lra).
  rewrite H1, H2, H3, H4, H5. repeat split.
Qed.

End CurlFacts.

(** ** The derivative visualizer *)

Section DerivativeFacts.
Import DerivativeVisualizer.
Local Open Scope R_scope.

Lemma FUNCTIONS_partials (fn : Func (T:=R)) (x y : R) :
  In fn FUNCTIONS ->
  derivable_pt_lim (fun t => f fn t y) x (df_dx fn x y) /\
  derivable_pt_lim (fun t => f fn x t) y (df_dy fn x y).
Proof.
  intros [E | [E | [E | [E | []]]]]; subst fn;
    cbv [f df_dx df_dy waves bowl saddle mult]; unR; split.
  - apply derivable_pt_lim_ext with (g := (sin + fct_cte (cos y))%F);
      [ reflexivity | ].
    eapply derivable_pt_lim_eq.
    + apply derivable_pt_lim_plus;
        [ apply derivable_pt_lim_sin | apply derivable_pt_lim_const ].
    + ring.
  - apply derivable_pt_lim_ext with (g := (fct_cte (sin x) + cos)%F);
      [ reflexivity | ].
    eapply derivable_pt_lim_eq.
    + apply derivable_pt_lim_plus;
        [ apply derivable_pt_lim_const | apply derivable_pt_lim_cos ].
    + ring.
  - eapply derivable_pt_lim_eq; [ apply (quadratic_derivative (y * y) (/ 4)) | ].
    lra.
  - apply derivable_pt_lim_ext with (g := fun t => (t * t + x * x) * / 4);
      [ intro t; unfold Rdiv; ring | ].
    eapply derivable_pt_lim_eq; [ apply quadratic_derivative | ]. lra.
  - apply derivable_pt_lim_ext with (g := fun t => (t * t + - (y * y)) * / 4);
      [ intro t; unfold Rdiv; ring | ].
    eapply derivable_pt_lim_eq; [ apply quadratic_derivative | ]. lra.
  - eapply derivable_pt_lim_eq;
      [ apply (quadratic_derivative_neg (x * x) (/ 4)) | ]. lra.
  - apply derivable_pt_lim_ext with (g := fun t => (y / 4) * t + 0);
      [ intro t; unfold Rdiv; ring | ].
    apply linear_derivative.
  - apply derivable_pt_lim_ext with (g := fun t => (x / 4) * t + 0);
      [ intro t; unfold Rdiv; ring | ].
    apply linear_derivative.
Qed.

(** X24.  Over the reals.  For each of the four surfaces of
    [FUNCTIONS] and every probe position, the pink and the cyan segment
    drawn at the probe are tangent to the surface: each is centred on
    the surface point above the probe, runs along its axis, and rises at
    the rate that is the derivative of the surface along that axis (so
    the declared [df_dx] and [df_dy] are the true partial
    derivatives). *)
Theorem tangents_are_tangent (fn : Func (T:=R)) (position : P2.t R) :
  In fn FUNCTIONS ->
  let x := P2.x position in
  let y := P2.y position in
  let mid (a b : P3.t R) :=
    {| P3.x := (P3.x a + P3.x b) / 2; P3.y := (P3.y a + P3.y b) / 2;
       P3.z := (P3.z a + P3.z b) / 2 |} in
  let surface := {| P3.x := x; P3.y := f fn x y; P3.z := y |} in
  mid (tX_start fn position) (tX_end fn position) = surface /\
  mid (tY_start fn position) (tY_end fn position) = surface /\
  P3.z (tX_end fn position) = P3.z (tX_start fn position) /\
  P3.x (tY_end fn position) = P3.x (tY_start fn position) /\
  derivable_pt_lim (fun t => f fn t y) x
    ((P3.y (tX_end fn position) - P3.y (tX_start fn position))
     / (P3.x (tX_end fn position) - P3.x (tX_start fn position))) /\
  derivable_pt_lim (fun t => f fn x t) y
    ((P3.y (tY_end fn position) - P3.y (tY_start fn position))
     / (P3.z (tY_end fn position) - P3.z (tY_start fn position))).
Proof.
  intros Hfn x y mid surface.
  destruct (FUNCTIONS_partials x y Hfn) as [Dx Dy].
  unfold mid, surface, tX_start, tX_end, tY_start, tY_end, zVal, slopeX,
    slopeY, tangentLength.
  cbn [P3.x P3.y P3.z]. fold x y. unR.
  split; [ f_equal; lra | ]. split; [ f_equal; lra | ].
  split; [ reflexivity | ]. split; [ reflexivity | ].
  split.
  - eapply derivable_pt_lim_eq; [ exact Dx | field; lra ].
  - eapply derivable_pt_lim_eq; [ exact Dy | field; lra ].
Qed.

Lemma tangents_are_tangent_witness :
  let position := {| P2.x := 1; P2.y := 2 |} in
  let mid (a b : P3.t R) :=
    {| P3.x := (P3.x a + P3.x b) / 2; P3.y := (P3.y a + P3.y b) / 2;
       P3.z := (P3.z a + P3.z b) / 2 |} in
  let surface := {| P3.x := 1; P3.y := f (T:=R) mult 1 2; P3.z := 2 |} in
  mid (tX_start mult position) (tX_end mult position) = surface /\
  mid (tY_start mult position) (tY_end mult position) = surface /\
  P3.z (tX_end mult position) = P3.z (tX_start mult position) /\
  P3.x (tY_end mult position) = P3.x (tY_start mult position) /\
  derivable_pt_lim (fun t => f (T:=R) mult t 2) 1
    ((P3.y (tX_end mult position) - P3.y (tX_start mult position))
     / (P3.x (tX_end mult position) - P3.x (tX_start mult position))) /\
  derivable_pt_lim (fun t => f (T:=R) mult 1 t) 2
    ((P3.y (tY_end mult position) - P3.y (tY_start mult position))
     / (P3.z (tY_end mult position) - P3.z (tY_start mult position))).
Proof.
  intro position.
  apply (@tangents_are_tangent mult position).
  right. right. right. left. reflexivity.
Defined.

End DerivativeFacts.

(** ** The draggable window *)

Section DraggableWindowFacts.
Import DraggableWindow.
Local Open Scope R_scope.

Lemma handleMouseMove_keeps {T} `{Number T} (win : Window) (e : MouseEvent)
  (s : State (T:=T)) :
  isDragging (handleMouseMove win e s) = isDragging s /\
  dragStartRef (handleMouseMove win e s) = dragStartRef s.
Proof.
  unfold handleMouseMove. destruct (isDragging s) eqn:Hd; cbn [negb].
  - cbn [isDragging dragStartRef]. split; reflexivity.
  - split; [ exact Hd | reflexivity ].
Qed.

Lemma handleMouseMoves_keeps {T} `{Number T}
  (moves : list (Window * MouseEvent)) (s : State (T:=T)) :
  isDragging (handleMouseMoves moves s) = isDragging s /\
  dragStartRef (handleMouseMoves moves s) = dragStartRef s.
Proof.
  revert s. induction moves as [|[win e] moves IH]; intro s.
  - split; reflexivity.
  - unfold handleMouseMoves in *. cbn [fold_left fst snd].
    destruct (IH (handleMouseMove win e s)) as [Hd Hr].
    destruct (handleMouseMove_keeps win e s) as [Hd' Hr'].
    split; congruence.
Qed.

(** X25.  Over the reals.  After the header is pressed with the left
    button, every pointer move of the drag, however many moves came
    before it, puts the window at its position at the press plus the
    pointer's displacement since the press, cut to
    [[-100, innerWidth - 50]] horizontally and [[-100, innerHeight - 50]]
    vertically: while that point is inside these bounds the window
    follows the pointer exactly, the grabbed point of the header staying
    under it, and the window is never placed beyond the upper bounds.
    A move ends no drag and leaves the grab offset alone; releasing the
    button does end it, after which moves leave the window where it is.
    A press with another button starts no drag, and without a drag a
    pointer move changes nothing. *)
Theorem window_follows_pointer (moves : list (Window * MouseEvent))
  (win win' : Window) (e0 e e' : MouseEvent) (s : State (T:=R)) :
  let s1 := handleHeaderMouseDown e0 s in
  let s2 := handleMouseMove win e (handleMouseMoves moves s1) in
  let tx := P2.x (position s) + (clientX e - clientX e0) in
  let ty := P2.y (position s) + (clientY e - clientY e0) in
  (button e0 = 0%Z ->
   P2.x (position s2) = Rmin (Rmax (-100) tx) (innerWidth win - 50) /\
   P2.y (position s2) = Rmin (Rmax (-100) ty) (innerHeight win - 50) /\
   (-100 <= tx <= innerWidth win - 50 -> P2.x (position s2) = tx) /\
   (-100 <= ty <= innerHeight win - 50 -> P2.y (position s2) = ty) /\
   P2.x (position s2) <= innerWidth win - 50 /\
   P2.y (position s2) <= innerHeight win - 50 /\
   isDragging s2 = true /\
   dragStartRef s2 = {| P2.x := clientX e0 - P2.x (position s);
                        P2.y := clientY e0 - P2.y (position s) |} /\
   handleMouseMove win' e' (handleMouseUp s2) = handleMouseUp s2 /\
   position (handleMouseUp s2) = position s2) /\
  (button e0 <> 0%Z -> s1 = s) /\
  (isDragging s = false -> handleMouseMove win e s = s).
Proof.
  cbv zeta. split; [ | split ].
  - intro Hb.
    destruct (handleMouseMoves_keeps moves (handleHeaderMouseDown e0 s))
      as [Hd Hr].
    assert (Hd1 : isDragging (handleHeaderMouseDown e0 s) = true).
    { unfold handleHeaderMouseDown. rewrite Hb. reflexivity. }
    assert (Hr1 : dragStartRef (handleHeaderMouseDown e0 s)
                  = {| P2.x := clientX e0 - P2.x (position s);
                       P2.y := clientY e0 - P2.y (position s) |}).
    { unfold handleHeaderMouseDown. rewrite Hb. reflexivity. }
    rewrite Hd1 in Hd. rewrite Hr1 in Hr.
    revert Hd Hr.
    generalize (handleMouseMoves moves (handleHeaderMouseDown e0 s)).
    intros a Hd Hr.
    unfold handleMouseMove at 1 2 3 4 5 6 7 8. rewrite Hd, Hr.
    cbn [negb isDragging position dragStartRef P2.x P2.y]. unR.
    replace (clientX e - (clientX e0 - P2.x (position s)))
      with (P2.x (position s) + (clientX e - clientX e0)) by ring.
    replace (clientY e - (clientY e0 - P2.y (position s)))
      with (P2.y (position s) + (clientY e - clientY e0)) by ring.
    replace (- (100)) with (-100) by lra.
    split; [ reflexivity | ]. split; [ reflexivity | ].
    split.
    { intros [Hlo Hhi]. rewrite Rmax_right by exact Hlo.
      apply Rmin_left. exact Hhi. }
    split.
    { intros [Hlo Hhi]. rewrite Rmax_right by exact Hlo.
      apply Rmin_left. exact Hhi. }
    split; [ apply Rmin_r | ]. split; [ apply Rmin_r | ].
    split; [ reflexivity | ]. split; [ reflexivity | ].
    split; reflexivity.
  - intro Hb. unfold handleHeaderMouseDown.
    destruct (Z.eqb_spec (button e0) 0) as [E | _]; [ contradiction | ].
    reflexivity.
  - intro Hd. unfold handleMouseMove. rewrite Hd. reflexivity.
Qed.

End DraggableWindowFacts.

(** ** The level-to-level buttons *)

Section NavigationFacts.
Import App.

(** X26.  The previous-level button undoes the next-level button: from
    every view that has a next-level button, pressing it and then the
    previous-level button of the view reached comes back.  Conversely
    previous-then-next comes back from every view except the first
    calculus level, whose previous-level button leaves for the level
    menu.  No chain of next-level buttons is longer than eight presses,
    so the levels are never cycled through. *)
Theorem navigation_round_trip (v w : ViewState) :
  (onNextLevel v = Some w -> onPrevLevel w = Some v) /\
  (onPrevLevel w = Some v ->
   onNextLevel v = Some w \/
   (w = DERIVATIVE_DEFINITION /\ v = LEVEL_SELECT_CALCULUS)) /\
  forward 9 v = None /\
  forward 8 LEVEL_1_VECTOR = Some EIGENVECTORS /\
  forward 3 DERIVATIVE_DEFINITION = Some ROTATIONAL.
Proof.
  split; [ | split; [ | split; [ | split ] ] ].
  - destruct v; cbn; intro E; try discriminate; injection E as <-;
      reflexivity.
  - destruct w; cbn; intro E; try discriminate; injection E as <-;
      solve [ left; reflexivity | right; split; reflexivity ].
  - destruct v; reflexivity.
  - reflexivity.
  - reflexivity.
Qed.

End NavigationFacts.


(** ** The Riemann-sum estimator at every resolution *)

Section RiemannClosedForm.
Import IntegralVisualizer.
Local Open Scope R_scope.
Variables A B C : R.
Variable fn : R -> R -> R.
Variable r : R.
Variable n : nat.
Hypothesis fn_quadric :
  forall x y, fn x y = A + B * (x + y) + C * (x * x + y * y).
Hypothesis fn_positive :
  forall ij, positive_at fn r n ij = true.

(** The sums of the first [k] midpoints and of their squares. *)
Lemma inner_sum (i k : nat) (a : R) :
  let s := side r n in
  let c := - r + s / 2 in
  let m := midpoint r n i in
  fold_left
    (fun a' j =>
       a' + fn (midpoint r n i) (midpoint r n j) * (side r n * side r n))
    (seq 0 k) a
  = a + s * s
        * (INR k * (A + B * m + C * (m * m))
           + B * (INR k * c + s * (INR k * (INR k - 1)) / 2)
           + C * (INR k * (c * c) + c * s * (INR k * (INR k - 1))
                  + s * s * ((INR k - 1) * INR k * (2 * INR k - 1)) / 6)).
Proof.
  cbv zeta. induction k as [|k IH].
  - cbn [seq fold_left INR]. field.
  - rewrite seq_S, fold_left_app, IH. cbn [fold_left Nat.add].
    rewrite fn_quadric, S_INR. unfold midpoint, corner. field.
Qed.

Lemma outer_sum (k : nat) (a : R) :
  let s := side r n in
  let c := - r + s / 2 in
  let S1 (q : nat) := INR q * c + s * (INR q * (INR q - 1)) / 2 in
  let S2 (q : nat) :=
    INR q * (c * c) + c * s * (INR q * (INR q - 1))
    + s * s * ((INR q - 1) * INR q * (2 * INR q - 1)) / 6 in
  fold_left
    (fun a' i =>
       fold_left
         (fun a'' j =>
            a'' + fn (midpoint r n i) (midpoint r n j)
                  * (side r n * side r n))
         (seq 0 n) a')
    (seq 0 k) a
  = a + s * s
        * (INR k * (INR n * A + B * S1 n + C * S2 n)
           + INR n * (B * S1 k + C * S2 k)).
Proof.
  cbv zeta. induction k as [|k IH].
  - cbn [seq fold_left INR]. field.
  - rewrite seq_S, fold_left_app, IH. cbn [fold_left Nat.add].
    rewrite inner_sum. cbv zeta. rewrite S_INR.
    unfold midpoint, corner. field.
Qed.

Lemma midpoint_sum_quadric :
  (1 <= n)%nat ->
  midpoint_sum fn r n
    = 4 * (r * r) * A
      + 8 * C * (r * r * r * r) * (1 - 1 / (INR n * INR n)) / 3.
Proof.
  intro Hn. assert (Hpos : 0 < INR n) by (apply lt_0_INR; lia).
  unfold midpoint_sum. rewrite (filter_all _ _ fn_positive).
  unfold cells.
  rewrite (fold_list_prod
             (fun acc ij =>
                acc + fn (midpoint r n (fst ij)) (midpoint r n (snd ij))
                      * (side r n * side r n))).
  cbn [fst snd]. rewrite outer_sum. cbv zeta. unfold side. field. lra.
Qed.

Lemma midpoint_prisms_all : List.length (midpoint_prisms fn r n) = (n * n)%nat.
Proof.
  unfold midpoint_prisms. rewrite length_map, (filter_all _ _ fn_positive).
  unfold cells. rewrite length_prod, length_seq. reflexivity.
Qed.

End RiemannClosedForm.

Section RiemannEveryResolution.
Import IntegralVisualizer.
Local Open Scope R_scope.

Lemma midpoint_above (r : R) (n i : nat) :
  0 < r -> (1 <= n)%nat -> - r < midpoint r n i.
Proof.
  intros Hr Hn. unfold midpoint, corner.
  pose proof (side_pos Hr Hn) as Hs. pose proof (pos_INR i) as Hi. nra.
Qed.

Lemma plane_positive (n : nat) (ij : nat * nat) :
  (1 <= n)%nat -> positive_at plane 3 n ij = true.
Proof.
  intro Hn. unfold positive_at, plane.
  pose proof (@midpoint_above 3 n (fst ij) ltac:(lra) Hn).
  pose proof (@midpoint_above 3 n (snd ij) ltac:(lra) Hn).
  unR. destruct (Rlt_dec _ _) as [H1|H1]; [ reflexivity | ].
  exfalso. apply H1. lra.
Qed.

(** X27.  The estimate at every resolution.
    Over the reals, at every resolution [n >= 1] (given fuel for the
    [2 n] loop tests): on the paraboloid the loops push [n * n] prisms
    and hand [63 - 27 / n^2] to [setTotalVolume]; on the inclined plane
    they push [n * n] prisms and hand over exactly [72], whatever the
    resolution.
    In binary64, at the slider's resolutions 2..50: at 28 of them the
    loops push [n * n] prisms and the two volumes are within [1e-12] of
    [63 - 27 / n^2] and of [72]; at the other 21 (9, 11, 14, 15, 20-23,
    29, 31, 33-36, 39, 40, 42-45, 47) the loop counter stops short of
    the range, both loops run once more, [(n + 1) * (n + 1)] prisms are
    pushed and the volumes are more than 3.9 above [63 - 27 / n^2] and
    more than 4.5 above [72]. *)
Theorem estimate_every_resolution :
  (forall n fuel : nat,
     (1 <= n)%nat -> (2 * n <= fuel)%nat ->
     (exists prisms,
        estimate fuel paraboloid 3 (INR n)
          = Some (63 - 27 / (INR n * INR n), prisms) /\
        List.length prisms = (n * n)%nat) /\
     (exists prisms,
        estimate fuel plane 3 (INR n) = Some (72, prisms) /\
        List.length prisms = (n * n)%nat))
  /\
  (forall n : nat,
     (2 <= n <= 50)%nat ->
     let resolution : float := ofZ (Z.of_nat n) in
     let closed : float := (ofZ 63 - ofZ 27 / (resolution * resolution))%js in
     match estimate (T:=float) 120 paraboloid (ofZ 3) resolution,
           estimate (T:=float) 120 plane (ofZ 3) resolution with
     | Some (vol, prisms), Some (vol', prisms') =>
         if existsb (Nat.eqb n)
              [9; 11; 14; 15; 20; 21; 22; 23; 29; 31; 33; 34; 35; 36; 39;
               40; 42; 43; 44; 45; 47]%nat
         then
           List.length prisms = ((n + 1) * (n + 1))%nat /\
           List.length prisms' = ((n + 1) * (n + 1))%nat /\
           (closed + 3.9%float <? vol)%js = true /\
           (ofZ 72 + 4.5%float <? vol')%js = true
         else
           List.length prisms = (n * n)%nat /\
           List.length prisms' = (n * n)%nat /\
           (mabs (vol - closed) <? 1e-12%float)%js = true /\
           (mabs (vol' - ofZ 72) <? 1e-12%float)%js = true
     | _, _ => False
     end).
Proof.
  split.
  - intros n fuel Hn Hfuel.
    assert (Hpos : 0 < INR n) by (apply lt_0_INR; lia).
    split.
    + exists (midpoint_prisms paraboloid 3 n). split.
      * rewrite (@estimate_exact paraboloid 3 n ltac:(lra) Hn fuel Hfuel).
        rewrite (@midpoint_sum_quadric 1 0 (1 / 8) paraboloid 3 n).
        -- do 2 f_equal. field. lra.
        -- intros x y. unfold paraboloid. unR. lra.
        -- intro ij. apply paraboloid_positive.
        -- exact Hn.
      * apply midpoint_prisms_all. intro ij. apply paraboloid_positive.
    + exists (midpoint_prisms plane 3 n). split.
      * rewrite (@estimate_exact plane 3 n ltac:(lra) Hn fuel Hfuel).
        rewrite (@midpoint_sum_quadric 2 (3 / 10) 0 plane 3 n).
        -- do 2 f_equal. field. lra.
        -- intros x y. unfold plane. unR. lra.
        -- intro ij. apply plane_positive. exact Hn.
        -- exact Hn.
      * apply midpoint_prisms_all. intro ij. apply plane_positive. exact Hn.
  - intros n Hn.
    assert (Hin : In n (seq 2 49)) by (apply in_seq; lia).
    clear Hn. cbn [seq In] in Hin.
    repeat (destruct Hin as [<- | Hin]; [ vm_compute; repeat split | ]).
    contradiction.
Qed.

Lemma estimate_every_resolution_witness :
  (exists prisms,
     estimate 12 paraboloid 3 (INR 6)
       = Some (63 - 27 / (INR 6 * INR 6), prisms) /\
     List.length prisms = (6 * 6)%nat) /\
  (exists prisms,
     estimate 12 plane 3 (INR 6) = Some (72, prisms) /\
     List.length prisms = (6 * 6)%nat).
Proof.
  apply (proj1 estimate_every_resolution 6%nat 12%nat); lia.
Defined.

End RiemannEveryResolution.
